(** * python-igraph: attribute queries and dict-list construction

    A shallow embedding of the pure-Python layer of [igraph/__init__.py]:
    the keyword grammar of [VertexSeq.select] and [EdgeSeq.select], and the
    [Graph.DictList] constructor in its batch and iterative modes.  The
    compiled core ([igraph.core]) and [igraph.datatypes] are not part of the
    Python file; the few operations the Python code calls on them are
    modelled separately and marked as such.

    The second part of the development covers further functions of the
    module: the argument handling of [Graph.__init__] and pickling
    ([__reduce__], [_reconstruct]), [Graph.get_adjacency] with an edge
    attribute, [Graph.k_core], [_prepare_community_comparison], the file
    format dispatch of [Read] and [write], [Graph.layout] and
    [Graph.__mul__]. *)

From stdpp Require Import gmap strings list fin_maps.
From Stdlib Require Import ZArith Ascii.

(** ** Python exceptions and the error monad *)

Inductive pyerror : Type :=
  | KeyError (key : string)
  | ValueError (msg : string)
  | IndexError
  | TypeError
  | AttributeError (name : string).

Inductive res (A : Type) : Type :=
  | Ok (a : A)
  | Err (e : pyerror).
Arguments Ok {A} a.
Arguments Err {A} e.

Global Instance res_ret : MRet res := fun A a => Ok a.
Global Instance res_bind : MBind res := fun A B f m =>
  match m with Ok a => f a | Err e => Err e end.
Global Instance res_fmap : FMap res := fun A B f m =>
  match m with Ok a => Ok (f a) | Err e => Err e end.

(** [for x in l: st = body(st, x)] where the body may raise. *)
Fixpoint foldM {A S : Type} (body : S -> A -> res S) (st : S) (l : list A) : res S :=
  match l with
  | [] => Ok st
  | x :: l' => st' ← body st x; foldM body st' l'
  end.

(** ** Python strings: the operations used by the keyword grammar *)

Module PyStr.

Definition underscore : ascii := "_"%char.

(** [c in s] for a one-character [c]. *)
Fixpoint contains (c : ascii) (s : string) : bool :=
  match s with
  | EmptyString => false
  | String d s' => if Ascii.eqb c d then true else contains c s'
  end.

(** [s.rindex(c)]; [None] stands for the ValueError Python raises when
    [c] does not occur. *)
Fixpoint rindex (c : ascii) (s : string) : option nat :=
  match s with
  | EmptyString => None
  | String d s' =>
      match rindex c s' with
      | Some p => Some (S p)
      | None => if Ascii.eqb c d then Some 0 else None
      end
  end.

(** [s[0:n]] *)
Fixpoint take (n : nat) (s : string) : string :=
  match n, s with
  | S n', String c s' => String c (take n' s')
  | _, _ => EmptyString
  end.

(** [s[n:]] *)
Fixpoint drop (n : nat) (s : string) : string :=
  match n, s with
  | S n', String _ s' => drop n' s'
  | _, _ => s
  end.

(** [s[0]]; [None] stands for the IndexError on the empty string. *)
Definition head (s : string) : option ascii :=
  match s with
  | EmptyString => None
  | String c _ => Some c
  end.

End PyStr.

(** ** The operator table of [select] *)

Inductive operator : Type :=
  | OpLt | OpGt | OpLe | OpGe | OpEq | OpNe | OpIn | OpNotin.

Global Instance operator_eq_dec : EqDecision operator.
Proof. solve_decision. Defined.

(** The dict [operators] of both [select] methods, as a lookup. *)
Definition operators (op : string) : option operator :=
  if String.eqb op "lt" then Some OpLt
  else if String.eqb op "gt" then Some OpGt
  else if String.eqb op "le" then Some OpLe
  else if String.eqb op "ge" then Some OpGe
  else if String.eqb op "eq" then Some OpEq
  else if String.eqb op "ne" then Some OpNe
  else if String.eqb op "in" then Some OpIn
  else if String.eqb op "notin" then Some OpNotin
  else None.

(** What the head of the keyword loop computes: the attribute name, the raw
    operator token [op] (still consulted by [EdgeSeq.select]) and the
    function [func] picked from the table. *)
Record predicate : Type := Predicate {
  pred_attr : string;
  pred_op : string;
  pred_func : operator
}.

(** Lines 2349-2357 and 2599-2608. *)
Definition parse_keyword (keyword : string) : res predicate :=
  let keyword :=
    if negb (PyStr.contains PyStr.underscore keyword)
       || bool_decide (PyStr.rindex PyStr.underscore keyword = Some 0)
    then keyword +:+ "_eq" else keyword in
  match PyStr.rindex PyStr.underscore keyword with
  | None => Err (ValueError "substring not found")
  | Some pos =>
      let attr := PyStr.take pos keyword in
      let op := PyStr.drop (pos + 1) keyword in
      match operators op with
      | Some func => Ok (Predicate attr op func)
      | None => Ok (Predicate (attr +:+ "_" +:+ op) op OpEq)
      end
  end.

(** ** Python values *)

(** Attribute values and names: [None], integers and strings. *)
Inductive pyval : Type :=
  | PNone
  | PInt (z : Z)
  | PStr (s : string).

Global Instance pyval_eq_dec : EqDecision pyval.
Proof. solve_decision. Defined.

Global Instance pyval_countable : Countable pyval.
Proof.
  refine (inj_countable'
    (fun v => match v with
              | PNone => inl ()
              | PInt z => inr (inl z)
              | PStr s => inr (inr s)
              end)
    (fun x => match x with
              | inl _ => PNone
              | inr (inl z) => PInt z
              | inr (inr s) => PStr s
              end) _).
  by intros [].
Defined.

(** The objects a caller hands to [select] as the value of a keyword: an
    atomic value, a list, a set, a vertex sequence (known by the absolute
    indices it holds), or a tuple of such collections.  [OVertex] is what
    indexing a vertex sequence yields. *)
Inductive collection : Type :=
  | CList (l : list pyval)
  | CSet (s : gset pyval)
  | CVertexSeq (indices : list nat).

Inductive pyobj : Type :=
  | OVal (v : pyval)
  | OColl (c : collection)
  | OTuple (parts : list collection)
  | OVertex (index : nat).

Module Py.

(** [t in s] on two strings: [t] occurs in [s] as a substring. *)
Fixpoint is_prefix (t s : string) : bool :=
  match t, s with
  | EmptyString, _ => true
  | String a t', String b s' => Ascii.eqb a b && is_prefix t' s'
  | String _ _, EmptyString => false
  end.

Fixpoint is_substring (t s : string) : bool :=
  is_prefix t s ||
  match s with
  | EmptyString => false
  | String _ s' => is_substring t s'
  end.

(** The characters of a string, each a string of length one. *)
Fixpoint chars (s : string) : list pyval :=
  match s with
  | EmptyString => []
  | String c s' => PStr (String c EmptyString) :: chars s'
  end.

(** [cmp(a, b)] of Python 2 on atomic values: [None] sorts before
    everything, numbers before strings, strings bytewise. *)
Definition cmp (a b : pyval) : comparison :=
  match a, b with
  | PNone, PNone => Eq
  | PNone, _ => Lt
  | _, PNone => Gt
  | PInt x, PInt y => Z.compare x y
  | PInt _, PStr _ => Lt
  | PStr _, PInt _ => Gt
  | PStr s, PStr t => String.compare s t
  end.

(** How an atomic value orders against an object of another type in
    Python 2: [None] and numbers come first, the rest goes by type name
    ("igraph.Vertex", "igraph.VertexSeq", "list" < "str" < "tuple"); a set
    refuses to be ordered against a non-set. *)
Definition cmp_other (a : pyval) (b : pyobj) : res comparison :=
  match b with
  | OVal v => Ok (cmp a v)
  | OColl (CSet _) => Err TypeError
  | OTuple _ => Ok Lt
  | OColl (CList _) | OColl (CVertexSeq _) | OVertex _ =>
      Ok (match a with PStr _ => Gt | _ => Lt end)
  end.

(** [a == b] for an atomic [a]. *)
Definition eq (a : pyval) (b : pyobj) : bool :=
  match b with
  | OVal v => bool_decide (a = v)
  | _ => false
  end.

(** [a in b] for an atomic [a]. *)
Definition contains (a : pyval) (b : pyobj) : res bool :=
  match b with
  | OVal (PStr s) =>
      match a with
      | PStr t => Ok (is_substring t s)
      | _ => Err TypeError
      end
  | OVal _ => Err TypeError
  | OColl (CList l) => Ok (bool_decide (a ∈ l))
  | OColl (CSet s) => Ok (bool_decide (a ∈ s))
  | OColl (CVertexSeq _) => Ok false
  | OTuple _ => Ok false
  | OVertex _ => Err TypeError
  end.

(** [len(b)] *)
Definition len (b : pyobj) : res nat :=
  match b with
  | OVal (PStr s) => Ok (String.length s)
  | OVal _ => Err TypeError
  | OColl (CList l) => Ok (length l)
  | OColl (CSet s) => Ok (size s)
  | OColl (CVertexSeq idx) => Ok (length idx)
  | OTuple parts => Ok (length parts)
  | OVertex _ => Err TypeError
  end.

(** [b[i]] for a non-negative [i]. *)
Definition getitem (b : pyobj) (i : nat) : res pyobj :=
  match b with
  | OVal (PStr s) =>
      match chars s !! i with Some c => Ok (OVal c) | None => Err IndexError end
  | OVal _ => Err TypeError
  | OColl (CList l) =>
      match l !! i with Some v => Ok (OVal v) | None => Err IndexError end
  | OColl (CSet _) => Err TypeError
  | OColl (CVertexSeq idx) =>
      match idx !! i with Some v => Ok (OVertex v) | None => Err IndexError end
  | OTuple parts =>
      match parts !! i with Some c => Ok (OColl c) | None => Err IndexError end
  | OVertex _ => Err TypeError
  end.

(** [set(b)], keeping the members that are atomic values.  Lists and sets
    are unhashable, so a tuple holding one cannot be turned into a set;
    vertex sequences are hashable objects that equal no atomic value. *)
Definition set (b : pyobj) : res (gset pyval) :=
  match b with
  | OVal (PStr s) => Ok (list_to_set (chars s))
  | OVal _ => Err TypeError
  | OColl (CList l) => Ok (list_to_set l)
  | OColl (CSet s) => Ok s
  | OColl (CVertexSeq idx) => Ok ∅
  | OTuple parts =>
      if forallb (fun c => match c with CVertexSeq _ => true | _ => false end) parts
      then Ok ∅ else Err TypeError
  | OVertex _ => Err TypeError
  end.

End Py.

(** The eight entries of [operators], applied as [func(v, value)]. *)
Definition apply_operator (func : operator) (v : pyval) (value : pyobj) : res bool :=
  match func with
  | OpLt => c ← Py.cmp_other v value; Ok (bool_decide (c = Lt))
  | OpGt => c ← Py.cmp_other v value; Ok (bool_decide (c = Gt))
  | OpLe => c ← Py.cmp_other v value; Ok (bool_decide (c <> Gt))
  | OpGe => c ← Py.cmp_other v value; Ok (bool_decide (c <> Lt))
  | OpEq => Ok (Py.eq v value)
  | OpNe => Ok (negb (Py.eq v value))
  | OpIn => Py.contains v value
  | OpNotin => negb <$> Py.contains v value
  end.

(** ** Graphs and entity sequences *)

(** Modelled from the spec: the graph structure of the compiled core
    ([GraphBase]), as the data model describes it: a vertex count, a
    directed flag, an ordered edge list, and one column per attribute name
    for vertices and for edges. *)
Record Graph : Type := mkGraph {
  vcount : nat;
  is_directed : bool;
  edge_list : list (nat * nat);
  vertex_attributes : gmap string (list pyval);
  edge_attributes : gmap string (list pyval)
}.

Definition ecount (g : Graph) : nat := length (edge_list g).

(** [[f(x) for x in l]] where [f] may raise. *)
Fixpoint mapM_res {A B : Type} (f : A -> res B) (l : list A) : res (list B) :=
  match l with
  | [] => Ok []
  | x :: l' => y ← f x; ys ← mapM_res f l'; Ok (y :: ys)
  end.

Definition lookup_or {A : Type} (e : pyerror) (l : list A) (i : nat) : res A :=
  match l !! i with Some x => Ok x | None => Err e end.

(** Modelled from the spec: [seq[name]] of the compiled sequence classes,
    the values of the sequence's entities in sequence order; an unknown
    attribute name is a lookup error ([KeyError]). *)
Definition get_attribute_values (columns : gmap string (list pyval))
    (indices : list nat) (attr : string) : res (list pyval) :=
  match columns !! attr with
  | None => Err (KeyError attr)
  | Some col => mapM_res (lookup_or IndexError col) indices
  end.

(** Modelled from the spec: [seq.select(indices)] of the compiled sequence
    classes with one list of integers, which are relative indices into the
    current sequence; an index out of range is a lookup error. *)
Definition select_relative (indices : list nat) (rel : list nat) : res (list nat) :=
  mapM_res (lookup_or IndexError indices) rel.

(** Modelled from the spec: [core.VertexSeq.select(self)] and
    [core.EdgeSeq.select(self)] without positional arguments return the
    same absolute indices in the same order. *)
Definition core_select (indices : list nat) : list nat := indices.

(** The sequence object a graph method receives. *)
Inductive seq_arg : Type :=
  | ArgVertexSeq (indices : list nat)
  | ArgEdgeSeq (indices : list nat).

(** The methods of [Graph] reachable through [getattr(graph, name)]: they
    live in the compiled core and in other modules, so [select] is
    parametric in them.  A missing name is an [AttributeError]. *)
Definition engine : Type := string -> option (Graph -> seq_arg -> res (list pyval)).

Definition call_method (methods : engine) (name : string) (g : Graph)
    (arg : seq_arg) : res (list pyval) :=
  match methods name with
  | None => Err (AttributeError name)
  | Some m => m g arg
  end.

(** [[i for i, v in enumerate(values) if func(v, value)]], counting from [i]. *)
Fixpoint filter_indices_from (i : nat) (func : operator) (values : list pyval)
    (value : pyobj) : res (list nat) :=
  match values with
  | [] => Ok []
  | v :: rest =>
      b ← apply_operator func v value;
      tl ← filter_indices_from (S i) func rest value;
      Ok (if b : bool then i :: tl else tl)
  end.

Definition filter_indices := filter_indices_from 0.

Definition starts_with_underscore (attr : string) : res bool :=
  match PyStr.head attr with
  | None => Err IndexError
  | Some c => Ok (Ascii.eqb c PyStr.underscore)
  end.

(** *** [VertexSeq.select], the keyword loop (lines 2348-2367)

    [kwds] lists the keyword arguments in the order [kwds.iteritems()]
    yields them. *)
Definition VertexSeq_select_step (methods : engine) (g : Graph)
    (vs : list nat) (kw : string * pyobj) : res (list nat) :=
  let '(keyword, value) := kw in
  p ← parse_keyword keyword;
  let attr := pred_attr p in
  let func := pred_func p in
  special ← starts_with_underscore attr;
  values ← (if special : bool
            then call_method methods (PyStr.drop 1 attr) g (ArgVertexSeq vs)
            else get_attribute_values (vertex_attributes g) vs attr);
  filtered_idxs ← filter_indices func values value;
  select_relative vs filtered_idxs.

Definition VertexSeq_select (methods : engine) (g : Graph)
    (self : list nat) (kwds : list (string * pyobj)) : res (list nat) :=
  foldM (VertexSeq_select_step methods g) (core_select self) kwds.

(** *** [EdgeSeq.select] (lines 2580-2645) *)

(** [_ensure_set], lines 2582-2587. *)
Definition _ensure_set (value : pyobj) : res (gset pyval) :=
  match value with
  | OColl (CVertexSeq indices) =>
      Ok (list_to_set ((fun i => PInt (Z.of_nat i)) <$> indices))
  | _ => Py.set value
  end.

(** [e.source] and [e.target] for the edge with absolute index [e]. *)
Definition edge_source (g : Graph) (e : nat) : res nat :=
  fst <$> lookup_or IndexError (edge_list g) e.
Definition edge_target (g : Graph) (e : nat) : res nat :=
  snd <$> lookup_or IndexError (edge_list g) e.

Definition vertex_id (v : nat) : pyval := PInt (Z.of_nat v).

(** [[i for i, e in enumerate(es) if test(e.source, e.target)]] *)
Fixpoint filter_edges_from (i : nat) (g : Graph) (test : nat -> nat -> bool)
    (es : list nat) : res (list nat) :=
  match es with
  | [] => Ok []
  | e :: rest =>
      st ← lookup_or IndexError (edge_list g) e;
      tl ← filter_edges_from (S i) g test rest;
      Ok (if test st.1 st.2 then i :: tl else tl)
  end.

Definition in_set (s : gset pyval) (v : nat) : bool := bool_decide (vertex_id v ∈ s).

Definition is_in_or_notin (op : string) : bool :=
  String.eqb op "in" || String.eqb op "notin".

(** The endpoint pseudo-attributes: the values are the endpoints, and the
    right-hand side becomes a set when the token is [in] or [notin]. *)
Definition endpoint_filter (func : operator) (op : string)
    (values : list pyval) (value : pyobj) : res (list nat) :=
  value ← (if is_in_or_notin op
           then (fun s => OColl (CSet s)) <$> _ensure_set value
           else Ok value);
  filter_indices func values value.

Definition EdgeSeq_select_step (methods : engine) (g : Graph)
    (es : list nat) (kw : string * pyobj) : res (list nat) :=
  let '(keyword, value) := kw in
  p ← parse_keyword keyword;
  let attr := pred_attr p in
  let op := pred_op p in
  let func := pred_func p in
  special ← starts_with_underscore attr;
  filtered_idxs ←
    (if special : bool then
       if String.eqb attr "_source" || String.eqb attr "_from" then
         values ← mapM_res (fun e => vertex_id <$> edge_source g e) es;
         endpoint_filter func op values value
       else if String.eqb attr "_target" || String.eqb attr "_to" then
         values ← mapM_res (fun e => vertex_id <$> edge_target g e) es;
         endpoint_filter func op values value
       else if String.eqb attr "_within" then
         value ← _ensure_set value;
         filter_edges_from 0 g (fun s t => in_set value s && in_set value t) es
       else if String.eqb attr "_between" then
         n ← Py.len value;
         if negb (n =? 2)%nat then
           Err (ValueError "_between selector requires two vertex ID lists")
         else
           v0 ← Py.getitem value 0;
           set1 ← _ensure_set v0;
           v1 ← Py.getitem value 1;
           set2 ← _ensure_set v1;
           filter_edges_from 0 g
             (fun s t => (in_set set1 s && in_set set2 t)
                         || (in_set set2 s && in_set set1 t)) es
       else
         values ← call_method methods (PyStr.drop 1 attr) g (ArgEdgeSeq es);
         filter_indices func values value
     else
       values ← get_attribute_values (edge_attributes g) es attr;
       filter_indices func values value);
  select_relative es filtered_idxs.

Definition EdgeSeq_select (methods : engine) (g : Graph)
    (self : list nat) (kwds : list (string * pyobj)) : res (list nat) :=
  foldM (EdgeSeq_select_step methods g) (core_select self) kwds.

(** ** Auxiliary notions used to state the properties of [select] *)

(** The positions, counted from [i], at which [flags] holds [true]. *)
Fixpoint true_positions (i : nat) (flags : list bool) : list nat :=
  match flags with
  | [] => []
  | b :: fl => if b then i :: true_positions (S i) fl else true_positions (S i) fl
  end.

(** The members of [l] whose flag is [true]. *)
Fixpoint keep {A : Type} (flags : list bool) (l : list A) : list A :=
  match flags, l with
  | b :: fl, x :: l' => if b then x :: keep fl l' else keep fl l'
  | _, _ => []
  end.

(** The test one keyword predicate over a literal attribute performs on the
    entity with absolute index [i]. *)
Definition entity_test (col : list pyval) (func : operator) (value : pyobj)
    (i : nat) : res bool :=
  v ← lookup_or IndexError col i; apply_operator func v value.

Definition ok_true (r : res bool) : bool :=
  match r with Ok true => true | _ => false end.

Definition passes (col : list pyval) (func : operator) (value : pyobj)
    (i : nat) : bool :=
  ok_true (entity_test col func value i).

(** A keyword whose attribute part is a literal attribute name. *)
Definition is_literal (keyword : string) : bool :=
  match parse_keyword keyword with
  | Ok p => match starts_with_underscore (pred_attr p) with
            | Ok false => true
            | _ => false
            end
  | Err _ => false
  end.

(** The loop body of both [select] methods on a literal attribute. *)
Definition literal_step (columns : gmap string (list pyval)) (seq : list nat)
    (attr : string) (func : operator) (value : pyobj) : res (list nat) :=
  values ← get_attribute_values columns seq attr;
  filtered_idxs ← filter_indices func values value;
  select_relative seq filtered_idxs.

(** Whether the entity [i] passes the literal predicate [kw]. *)
Definition passes_kw (columns : gmap string (list pyval))
    (kw : string * pyobj) (i : nat) : bool :=
  match parse_keyword kw.1 with
  | Ok p => match columns !! pred_attr p with
            | Some col => passes col (pred_func p) kw.2 i
            | None => false
            end
  | Err _ => false
  end.

Definition passes_all (columns : gmap string (list pyval))
    (kwds : list (string * pyobj)) (i : nat) : bool :=
  forallb (fun kw => passes_kw columns kw i) kwds.

(** Right-hand sides on which an operator cannot raise, whatever the
    attribute value on the left. *)
Definition never_raises (func : operator) (value : pyobj) : bool :=
  match func with
  | OpEq | OpNe => true
  | OpLt | OpGt | OpLe | OpGe =>
      match value with OColl (CSet _) => false | _ => true end
  | OpIn | OpNotin =>
      match value with OColl _ | OTuple _ => true | _ => false end
  end.

(** A literal predicate that is sure to be evaluated without an exception
    on the sequence [seq]: its attribute exists, the column covers the
    indices of the sequence, and the operator accepts the right-hand side. *)
Definition evaluable (columns : gmap string (list pyval)) (seq : list nat)
    (kw : string * pyobj) : Prop :=
  is_literal kw.1 = true /\
  exists p col, parse_keyword kw.1 = Ok p /\ columns !! pred_attr p = Some col /\
                Forall (fun i => i < length col) seq /\
                never_raises (pred_func p) kw.2 = true.

(** Whether the vertex [v] belongs to a collection of vertex ids (for a
    vertex sequence: whether it is one of its members). *)
Definition member (c : collection) (v : nat) : bool :=
  match c with
  | CList l => bool_decide (vertex_id v ∈ l)
  | CSet s => bool_decide (vertex_id v ∈ s)
  | CVertexSeq indices => bool_decide (v ∈ indices)
  end.

(** A test on the two endpoints of the edge with absolute index [e]. *)
Definition edge_test (g : Graph) (test : nat -> nat -> bool) (e : nat) : bool :=
  match edge_list g !! e with
  | Some st => test st.1 st.2
  | None => false
  end.

(** One endpoint in [c1] and the other in [c2], in either direction. *)
Definition between (c1 c2 : collection) (s t : nat) : bool :=
  (member c1 s && member c2 t) || (member c2 s && member c1 t).

(** A membership predicate with the right-hand side turned into a set
    before the test, whatever the attribute: [negate] tells [notin] from
    [in]. *)
Definition coerced_membership_select (columns : gmap string (list pyval))
    (seq : list nat) (attr : string) (negate : bool) (value : pyobj)
    : res (list nat) :=
  s ← _ensure_set value;
  values ← get_attribute_values columns seq attr;
  filtered_idxs ← filter_indices (if negate then OpNotin else OpIn) values
                    (OColl (CSet s));
  select_relative seq filtered_idxs.

(** A small graph for the examples: the four-cycle of the test suite with
    an attribute on its vertices and one on its edges. *)
Definition square : Graph :=
  mkGraph 4 false [(0, 1); (1, 2); (2, 3); (0, 3)]
    {[ "x" := [PInt 0; PInt 5; PInt 7; PInt 5] ]}
    {[ "w" := [PInt 1; PInt 2; PInt 3; PInt 4] ]}.

Definition no_methods : engine := fun _ => None.


(** The endpoint an endpoint pseudo-attribute stands for. *)
Definition is_source_attr (attr : string) : bool :=
  String.eqb attr "_source" || String.eqb attr "_from".
Definition is_target_attr (attr : string) : bool :=
  String.eqb attr "_target" || String.eqb attr "_to".
Definition endpoint_of (attr : string) (s t : nat) : nat :=
  if is_source_attr attr then s else t.


(** ** Attribute assignment through a collection *)

(** What is assigned: one value -- a string counts as one value -- or a
    sequence of values. *)
Inductive assigned : Type :=
  | AScalar (v : pyval)
  | ASeq (l : list pyval).

(** The first [k] values of the endless repetition of [values]. *)
Definition cycle (values : list pyval) (k : nat) : list pyval :=
  (fun j => default PNone (values !! (j mod length values))) <$> seq 0 k.

(** Modelled from the spec: the values an assignment writes to a scope of
    [k] entities (section 4.1): a scalar is broadcast, a sequence no longer
    than the scope is repeated cyclically until it fills the scope, a longer
    sequence is a length-mismatch error.  An empty sequence cannot fill a
    non-empty scope and is refused as well. *)
Definition assigned_values (value : assigned) (k : nat) : res (list pyval) :=
  match value with
  | AScalar v => Ok (replicate k v)
  | ASeq l =>
      if (k <? length l)%nat then Err (ValueError "length mismatch")
      else if (length l =? 0)%nat && negb (k =? 0)%nat
           then Err (ValueError "sequence must not be empty")
      else Ok (cycle l k)
  end.

(** [column[i] = v], an IndexError when [i] is out of range. *)
Definition store (column : list pyval) (iv : nat * pyval) : res (list pyval) :=
  if (iv.1 <? length column)%nat then Ok (<[iv.1 := iv.2]> column) else Err IndexError.

(** Modelled from the spec: [seq[name] = value] of the compiled sequence
    classes (sections 4.1 and 4.2).  [universe] is the number of entities of
    the graph in this scope and [scope] the absolute indices of the
    sequence; only these entities are written, an attribute that did not
    exist starts out null-filled. *)
Definition set_attribute_values (columns : gmap string (list pyval))
    (universe : nat) (scope : list nat) (name : string) (value : assigned)
    : res (gmap string (list pyval)) :=
  vals ← assigned_values value (length scope);
  column ← foldM store (default (replicate universe PNone) (columns !! name))
             (zip scope vals);
  Ok (<[name := column]> columns).

(** [g.vs[name] = value] and [g.es[name] = value] on the full collections,
    [g.vs[i][name] = v] and [g.es[i][name] = v] on one entity. *)
Definition vs_setitem (g : Graph) (name : string) (value : assigned) : res Graph :=
  columns ← set_attribute_values (vertex_attributes g) (vcount g)
              (seq 0 (vcount g)) name value;
  Ok (mkGraph (vcount g) (is_directed g) (edge_list g) columns (edge_attributes g)).

Definition es_setitem (g : Graph) (name : string) (value : assigned) : res Graph :=
  columns ← set_attribute_values (edge_attributes g) (ecount g)
              (seq 0 (ecount g)) name value;
  Ok (mkGraph (vcount g) (is_directed g) (edge_list g) (vertex_attributes g) columns).

Definition vertex_setitem (g : Graph) (i : nat) (name : string) (v : pyval)
    : res Graph :=
  columns ← set_attribute_values (vertex_attributes g) (vcount g) [i] name (AScalar v);
  Ok (mkGraph (vcount g) (is_directed g) (edge_list g) columns (edge_attributes g)).

Definition edge_setitem (g : Graph) (i : nat) (name : string) (v : pyval)
    : res Graph :=
  columns ← set_attribute_values (edge_attributes g) (ecount g) [i] name (AScalar v);
  Ok (mkGraph (vcount g) (is_directed g) (edge_list g) (vertex_attributes g) columns).

(** ** Building graphs *)

(** The vertex count an edge list asks for: one more than its largest
    endpoint. *)
Definition vertices_needed (edges : list (nat * nat)) : nat :=
  foldr (fun e n => S e.1 `max` (S e.2 `max` n)) 0 edges.

(** Modelled from the spec: [GraphBase.__init__(n, edges, directed)].  As
    the docstring of [Graph.__init__] says, the vertex count is adjusted when
    an endpoint exceeds [n - 1]. *)
Definition GraphBase_init (n : nat) (edges : list (nat * nat)) (directed : bool)
    : Graph :=
  mkGraph (n `max` vertices_needed edges) directed edges ∅ ∅.

(** Modelled from the spec: [g.add_vertices(k)]; every vertex column gets
    [k] null-filled slots (section 4.1, structural resize). *)
Definition add_vertices (g : Graph) (k : nat) : Graph :=
  mkGraph (vcount g + k) (is_directed g) (edge_list g)
    ((fun col => col ++ replicate k PNone) <$> vertex_attributes g)
    (edge_attributes g).

(** Modelled from the spec: [g.add_edges(es)]; every edge column gets one
    null-filled slot per new edge.  The core refuses an endpoint that is
    not a vertex of the graph. *)
Definition add_edges (g : Graph) (es : list (nat * nat)) : res Graph :=
  if forallb (fun e => (e.1 <? vcount g)%nat && (e.2 <? vcount g)%nat) es
  then Ok (mkGraph (vcount g) (is_directed g) (edge_list g ++ es)
             (vertex_attributes g)
             ((fun col => col ++ replicate (length es) PNone) <$> edge_attributes g))
  else Err (ValueError "cannot add edges").

(** [Graph.__init__], lines 124-140, called with positional arguments
    [(n, edges, directed, {}, vertex_attrs, edge_attrs)]; the loop over the
    empty [graph_attrs] does nothing.  The dicts are walked in the order
    [iteritems()] yields their entries. *)
Definition Graph_init (nverts : nat) (edges : list (nat * nat)) (directed : bool)
    (vertex_attrs edge_attrs : gmap string (list pyval)) : res Graph :=
  let self := GraphBase_init nverts edges directed in
  self ← foldM (fun g kv => vs_setitem g kv.1 (ASeq kv.2)) self
           (map_to_list vertex_attrs);
  foldM (fun g kv => es_setitem g kv.1 (ASeq kv.2)) self (map_to_list edge_attrs).

(** Modelled from the spec: [UniqueIdGenerator] of [igraph.datatypes]
    (section 3): names get dense ids in first-seen order.  The generator is
    the list of the names seen, the id of a name being its position. *)
Module UniqueIdGenerator.

Definition t : Type := list pyval.

(** [gen[name]]: the id of [name], a fresh one when it was not seen
    before; returns the id and the generator afterwards. *)
Definition getitem (gen : t) (name : pyval) : nat * t :=
  match list_find (fun x => x = name) gen with
  | Some (i, _) => (i, gen)
  | None => (length gen, gen ++ [name])
  end.

(** [UniqueIdGenerator(initial = names)] *)
Definition init (initial : list pyval) : t :=
  foldl (fun gen name => (getitem gen name).2) [] initial.

(** [len(gen)] and [gen.values()], the names in id order. *)
Definition len (gen : t) : nat := length gen.
Definition values (gen : t) : list pyval := gen.

End UniqueIdGenerator.

(** *** [Graph.DictList] (lines 1464-1574) *)

(** [d[key]] on a dict. *)
Definition dict_get {V : Type} (d : gmap string V) (key : string) : res V :=
  match d !! key with
  | Some v => Ok v
  | None => Err (KeyError key)
  end.

(** [create_list_from_indices], lines 1500-1503. *)
Definition create_list_from_indices (l : list (nat * pyval)) (n : nat)
    : res (list pyval) :=
  foldM store (replicate n PNone) l.

(** The [try: attrs[k].append((idx, v)) except KeyError: attrs[k] = [(idx, v)]]
    loop over the items of one record. *)
Definition accumulate_item (idx : nat) (attrs : gmap string (list (nat * pyval)))
    (kv : string * pyval) : gmap string (list (nat * pyval)) :=
  match attrs !! kv.1 with
  | Some l => <[kv.1 := l ++ [(idx, kv.2)]]> attrs
  | None => <[kv.1 := [(idx, kv.2)]]> attrs
  end.

Definition accumulate (attrs : gmap string (list (nat * pyval))) (idx : nat)
    (data : gmap string pyval) : gmap string (list (nat * pyval)) :=
  foldl (accumulate_item idx) attrs (map_to_list data).

(** [for k, v in attrs.iteritems(): attrs[k] = create_list_from_indices(v, n)] *)
Definition materialize (attrs : gmap string (list (nat * pyval))) (n : nat)
    : res (gmap string (list pyval)) :=
  foldM (fun cols kv =>
           col ← create_list_from_indices kv.2 n; Ok (<[kv.1 := col]> cols))
        ∅ (map_to_list attrs).

(** The loop over [enumerate(vertices)], lines 1508-1514. *)
Fixpoint vertex_loop (idx : nat) (vertices : list (gmap string pyval))
    (vertex_attrs : gmap string (list (nat * pyval))) (n : nat)
    : gmap string (list (nat * pyval)) * nat :=
  match vertices with
  | [] => (vertex_attrs, n)
  | vertex_data :: rest =>
      vertex_loop (S idx) rest (accumulate vertex_attrs idx vertex_data) (S n)
  end.

(** Lines 1506-1518: [vertices] is [None] or a list of records; [None] and
    the empty list are both false. *)
Definition construct_vertices (vertices : option (list (gmap string pyval)))
    (vertex_name_attr : string) : res (gmap string (list pyval) * nat) :=
  match vertices with
  | Some ((_ :: _) as records) =>
      let '(vertex_attrs, n) := vertex_loop 0 records ∅ 0 in
      cols ← materialize vertex_attrs n; Ok (cols, n)
  | _ => Ok ({[ vertex_name_attr := [] ]}, 0)
  end.

(** The state of the iterative loop: the live graph, [n] and the name map. *)
Definition discover (vertex_name_attr : string) (g : Graph) (n : nat)
    (v : nat) (name : pyval) : res (Graph * nat) :=
  if (v =? n)%nat then
    g ← vertex_setitem (add_vertices g 1) n vertex_name_attr name;
    Ok (g, n + 1)
  else Ok (g, n).

(** Lines 1531-1545. *)
Fixpoint iterative_loop (vertex_name_attr efk_src efk_dest : string) (idx : nat)
    (edges : list (gmap string pyval)) (g : Graph) (n : nat)
    (vertex_name_map : UniqueIdGenerator.t) : res Graph :=
  match edges with
  | [] => Ok g
  | edge_data :: rest =>
      src_name ← dict_get edge_data efk_src;
      dst_name ← dict_get edge_data efk_dest;
      let '(v1, vertex_name_map) :=
        UniqueIdGenerator.getitem vertex_name_map src_name in
      '(g, n) ← discover vertex_name_attr g n v1 src_name;
      let '(v2, vertex_name_map) :=
        UniqueIdGenerator.getitem vertex_name_map dst_name in
      '(g, n) ← discover vertex_name_attr g n v2 dst_name;
      g ← add_edges g [(v1, v2)];
      g ← foldM (fun g kv => edge_setitem g idx kv.1 kv.2) g (map_to_list edge_data);
      iterative_loop vertex_name_attr efk_src efk_dest (S idx) rest g n vertex_name_map
  end.

(** The state of the batch loop. *)
Record batch_state : Type := BatchState {
  bs_names : UniqueIdGenerator.t;
  bs_edge_list : list (nat * nat);
  bs_edge_attrs : gmap string (list (nat * pyval));
  bs_m : nat
}.

(** Lines 1550-1560. *)
Fixpoint batch_loop (efk_src efk_dest : string) (idx : nat)
    (edges : list (gmap string pyval)) (st : batch_state) : res batch_state :=
  match edges with
  | [] => Ok st
  | edge_data :: rest =>
      src_name ← dict_get edge_data efk_src;
      let '(v1, vertex_name_map) := UniqueIdGenerator.getitem (bs_names st) src_name in
      dst_name ← dict_get edge_data efk_dest;
      let '(v2, vertex_name_map) := UniqueIdGenerator.getitem vertex_name_map dst_name in
      batch_loop efk_src efk_dest (S idx) rest
        (BatchState vertex_name_map (bs_edge_list st ++ [(v1, v2)])
           (accumulate (bs_edge_attrs st) idx edge_data) (bs_m st + 1))
  end.

(** Lines 1566-1571: room for the vertices met while reading the edges. *)
Definition extend_vertices (vertex_name_attr : string)
    (vertex_attrs : gmap string (list pyval)) (n : nat)
    (vertex_name_map : UniqueIdGenerator.t) : gmap string (list pyval) * nat :=
  if (n <? UniqueIdGenerator.len vertex_name_map)%nat then
    let diff := UniqueIdGenerator.len vertex_name_map - n in
    let more := replicate diff PNone in
    (<[vertex_name_attr := UniqueIdGenerator.values vertex_name_map]>
       ((fun v => v ++ more) <$> vertex_attrs),
     UniqueIdGenerator.len vertex_name_map)
  else (vertex_attrs, n).

(** [len(vertex_names) != len(set(vertex_names))] *)
Definition has_duplicates (vertex_names : list pyval) : bool :=
  negb (length vertex_names =? size (list_to_set vertex_names : gset pyval))%nat.

Definition DictList (vertices : option (list (gmap string pyval)))
    (edges : list (gmap string pyval)) (directed : bool)
    (vertex_name_attr : string) (edge_foreign_keys : string * string)
    (iterative : bool) : res Graph :=
  '(vertex_attrs, n) ← construct_vertices vertices vertex_name_attr;
  vertex_names ← dict_get vertex_attrs vertex_name_attr;
  if has_duplicates vertex_names then Err (ValueError "vertex names are not unique")
  else
    let vertex_name_map := UniqueIdGenerator.init vertex_names in
    let '(efk_src, efk_dest) := edge_foreign_keys in
    if iterative then
      g ← Graph_init n [] directed vertex_attrs ∅;
      iterative_loop vertex_name_attr efk_src efk_dest 0 edges g n vertex_name_map
    else
      st ← batch_loop efk_src efk_dest 0 edges (BatchState vertex_name_map [] ∅ 0);
      edge_attrs ← materialize (bs_edge_attrs st) (bs_m st);
      let '(vertex_attrs, n) :=
        extend_vertices vertex_name_attr vertex_attrs n (bs_names st) in
      Graph_init n (bs_edge_list st) directed vertex_attrs edge_attrs.

(** [column[i] = v] for each pair, without the range check. *)
Definition write_all (column : list pyval) (ivs : list (nat * pyval)) : list pyval :=
  foldl (fun c iv => <[iv.1 := iv.2]> c) column ivs.

(** ** Auxiliary notions used to state the properties of [DictList] *)

(** [create_list_from_indices] without the range check. *)
Definition fill (l : list (nat * pyval)) (n : nat) : list pyval :=
  write_all (replicate n PNone) l.

(** The dense column of the key [k] over a list of records: the value of
    each record under [k], [None] where a record lacks the key. *)
Definition column_of (k : string) (records : list (gmap string pyval)) : list pyval :=
  (fun r => default PNone (r !! k)) <$> records.

(** A key has a column when some record carries it. *)
Definition column_opt (k : string) (records : list (gmap string pyval))
    : option (list pyval) :=
  if decide (Exists (fun r => is_Some (r !! k)) records)
  then Some (column_of k records) else None.

(** Every recorded position is below [n]. *)
Definition positions_below (attrs : gmap string (list (nat * pyval))) (n : nat) : Prop :=
  forall k l, attrs !! k = Some l -> Forall (fun iv => iv.1 < n) l.

(** A graph with other vertex, respectively edge, columns. *)
Definition with_vertex_attributes (g : Graph) (cols : gmap string (list pyval)) : Graph :=
  mkGraph (vcount g) (is_directed g) (edge_list g) cols (edge_attributes g).
Definition with_edge_attributes (g : Graph) (cols : gmap string (list pyval)) : Graph :=
  mkGraph (vcount g) (is_directed g) (edge_list g) (vertex_attributes g) cols.

(** Every column of a scope has one slot per entity. *)
Definition columns_sized (cols : gmap string (list pyval)) (n : nat) : Prop :=
  forall k col, cols !! k = Some col -> length col = n.

(** The generator after the names [names] were looked up in turn. *)
Definition seen (gen : UniqueIdGenerator.t) (names : list pyval) : UniqueIdGenerator.t :=
  foldl (fun gen name => (UniqueIdGenerator.getitem gen name).2) gen names.

(** The two endpoint names of an edge record, in the order they are looked up. *)
Definition endpoint_names (efk_src efk_dest : string) (r : gmap string pyval)
    : list pyval :=
  [default PNone (r !! efk_src); default PNone (r !! efk_dest)].

(** The edge [e] joins the vertices named by the record [r]. *)
Definition resolved (efk_src efk_dest : string) (names : list pyval)
    (e : nat * nat) (r : gmap string pyval) : Prop :=
  exists s d, r !! efk_src = Some s /\ r !! efk_dest = Some d /\
              names !! e.1 = Some s /\ names !! e.2 = Some d.

(** An edge record carries both endpoint keys. *)
Definition has_endpoints (efk_src efk_dest : string) (r : gmap string pyval) : Prop :=
  is_Some (r !! efk_src) /\ is_Some (r !! efk_dest).

(** Edge records of the examples. *)
Definition edge_ab : gmap string pyval :=
  {[ "source" := PStr "a"; "target" := PStr "b" ]}.
Definition edge_ac : gmap string pyval :=
  {[ "source" := PStr "a"; "target" := PStr "c" ]}.
Definition edge_ab_weighted : gmap string pyval :=
  {[ "source" := PStr "a"; "target" := PStr "b"; "weight" := PInt 1 ]}.

(** Vertex records of the examples. *)
Definition vertex_a : gmap string pyval := {[ "name" := PStr "a"; "age" := PInt 30 ]}.
Definition vertex_b : gmap string pyval := {[ "name" := PStr "b" ]}.

(** The entry written for key [k] by the item [v], given the old entry
    under [k]: the shape of every loop over the items of a dict. *)
Definition upsert {V W : Type} (f : string -> V -> option W -> W)
    (m : gmap string W) (kv : string * V) : gmap string W :=
  <[kv.1 := f kv.1 kv.2 (m !! kv.1)]> m.

(** No split of a keyword with an operator name as trailing token exists. *)
Definition no_operator_split (kw : string) : Prop :=
  forall a tok, kw = a +:+ "_" +:+ tok -> a <> EmptyString -> operators tok = None.

(** What the accumulators stand for after the records [done]. *)
Definition accumulated (done : list (gmap string pyval))
    (attrs : gmap string (list (nat * pyval))) : Prop :=
  positions_below attrs (length done) /\
  forall k, (fun l => fill l (length done)) <$> attrs !! k = column_opt k done.

(** The records a [vertices] argument stands for. *)
Definition records_of (vertices : option (list (gmap string pyval)))
    : list (gmap string pyval) := default [] vertices.

(** The vertex columns right after the vertex records were read. *)
Definition initial_column (vertices : option (list (gmap string pyval)))
    (vertex_name_attr k : string) : option (list pyval) :=
  match records_of vertices with
  | [] => if decide (k = vertex_name_attr) then Some [] else None
  | records => column_opt k records
  end.

(** The vertex columns once the names [new] were met among the edges,
    [vertex_attrs0] and [names0] being the columns and the names read from
    the vertex records. *)
Definition grown_columns (vertex_attrs0 : gmap string (list pyval))
    (names0 : list pyval) (vertex_name_attr : string) (new : list pyval)
    : gmap string (list pyval) :=
  <[vertex_name_attr := names0 ++ new]>
    ((fun c => c ++ replicate (length new) PNone) <$> vertex_attrs0).

(** The graph of the iterative mode while it reads the edges. *)
Definition live_graph (vertex_attrs0 : gmap string (list pyval)) (n0 : nat)
    (names0 : list pyval) (vertex_name_attr : string) (directed : bool)
    (new : list pyval) (el : list (nat * nat))
    (ecols : gmap string (list pyval)) : Graph :=
  mkGraph (n0 + length new) directed el
    (grown_columns vertex_attrs0 names0 vertex_name_attr new) ecols.

(** How the batch mode finishes from the state its loop ends in (lines
    1561-1574). *)
Definition finish_batch (vertex_attrs0 : gmap string (list pyval)) (n0 : nat)
    (vertex_name_attr : string) (directed : bool) (st : batch_state) : res Graph :=
  edge_attrs ← materialize (bs_edge_attrs st) (bs_m st);
  let '(vertex_attrs, n) :=
    extend_vertices vertex_name_attr vertex_attrs0 n0 (bs_names st) in
  Graph_init n (bs_edge_list st) directed vertex_attrs edge_attrs.

Definition endpoints_below (n : nat) (el : list (nat * nat)) : Prop :=
  Forall (fun e => e.1 < n /\ e.2 < n) el.


(** * The rest of the module *)

(** ** Community comparison: [_prepare_community_comparison] (lines 2727-2765) *)

(** [vec[i], vec[n] = vec[n], vec[i]] *)
Definition swap_items {A : Type} (vec : list A) (i n : nat) : res (list A) :=
  at_n ← lookup_or IndexError vec n;
  at_i ← lookup_or IndexError vec i;
  Ok (<[n := at_i]> (<[i := at_n]> vec)).

(** The body of the loop over [idxs_to_remove], lines 2758-2761.  The
    counter [n] starts at the length of the vectors and the loop runs once
    per index of the vectors at most, so [n -= 1] stays a natural number. *)
Definition remove_step (st : list pyval * list pyval * nat) (i : nat)
    : res (list pyval * list pyval * nat) :=
  let '(vec1, vec2, n) := st in
  let n := n - 1 in
  vec1 ← swap_items vec1 i n;
  vec2 ← swap_items vec2 i n;
  Ok (vec1, vec2, n).

(** [vec[i] is None]; the comprehension of line 2754 only asks for indices
    below the common length of the two vectors. *)
Definition is_None_at (vec : list pyval) (i : nat) : bool :=
  bool_decide (vec !! i = Some PNone).

(** The two communities are given as membership lists, which
    [_ensure_list] copies with [list(obj)]. *)
Definition _prepare_community_comparison (comm1 comm2 : list pyval)
    (remove_none : bool) : res (list pyval * list pyval) :=
  let vec1 := comm1 in
  let vec2 := comm2 in
  if negb (length vec1 =? length vec2)%nat then
    Err (ValueError "the two membership vectors must be equal in length")
  else if remove_none && (bool_decide (PNone ∈ vec1) || bool_decide (PNone ∈ vec2)) then
    let idxs_to_remove :=
      filter (fun i => Is_true (is_None_at vec1 i || is_None_at vec2 i))
        (seq 0 (length vec1)) in
    let idxs_to_remove := reverse idxs_to_remove in
    '(vec1, vec2, n) ← foldM remove_step (vec1, vec2, length vec1) idxs_to_remove;
    Ok (take n vec1, take n vec2)
  else Ok (vec1, vec2).

(** *** Auxiliary notions for the community comparison *)

(** The swap without the range checks. *)
Definition swapped {A : Type} (l : list A) (i n : nat) : list A :=
  match l !! n, l !! i with
  | Some at_n, Some at_i => <[n := at_i]> (<[i := at_n]> l)
  | _, _ => l
  end.

(** The whole loop on one list: every index is swapped to the end of the
    part that is still kept. *)
Fixpoint swap_out {A : Type} (l : list A) (n : nat) (idxs : list nat) : list A :=
  match idxs with
  | [] => l
  | i :: rest => swap_out (swapped l i (n - 1)) (n - 1) rest
  end.

(** A strictly descending list of indices below [n]. *)
Fixpoint descending_below (n : nat) (idxs : list nat) : Prop :=
  match idxs with
  | [] => True
  | i :: rest => i < n /\ descending_below i rest
  end.

(** The members of [l] whose position, counted from [i], is not in [idxs]. *)
Fixpoint omit_from {A : Type} (i : nat) (idxs : list nat) (l : list A) : list A :=
  match l with
  | [] => []
  | x :: l' =>
      if decide (i ∈ idxs) then omit_from (S i) idxs l'
      else x :: omit_from (S i) idxs l'
  end.

(** A pair of memberships none of which is [None]. *)
Definition both_known (p : pyval * pyval) : Prop := p.1 <> PNone /\ p.2 <> PNone.

Global Instance both_known_dec p : Decision (both_known p).
Proof. unfold both_known. apply _. Defined.

(** ** [Graph.get_adjacency] with an edge attribute (lines 311-362) *)

(** The three constants [GET_ADJACENCY_UPPER], [GET_ADJACENCY_LOWER] and
    [GET_ADJACENCY_BOTH] of the compiled core. *)
Inductive adjacency_type : Type :=
  | GET_ADJACENCY_UPPER
  | GET_ADJACENCY_LOWER
  | GET_ADJACENCY_BOTH.

Global Instance adjacency_type_eq_dec : EqDecision adjacency_type.
Proof. solve_decision. Defined.

(** What a caller passes as [type] or as [attribute]: one of the constants,
    [None], or an attribute name. *)
Inductive adjacency_arg : Type :=
  | AdjType (t : adjacency_type)
  | AdjNone
  | AdjName (name : string).

Abbreviation matrix := (list (list pyval)).

(** [data[i][j] = v] on a list of rows. *)
Definition set_cell (data : matrix) (i j : nat) (v : pyval) : res matrix :=
  row ← lookup_or IndexError data i;
  if (j <? length row)%nat then Ok (<[i := <[j := v]> row]> data) else Err IndexError.

(** [for edge in self.es: ...], the body receiving the index of the edge and
    its [(source, target)] tuple. *)
Definition for_each_edge {S : Type} (g : Graph) (body : S -> nat -> nat * nat -> res S)
    (st : S) : res S :=
  foldM (fun st ie => body st ie.1 ie.2) st (zip (seq 0 (ecount g)) (edge_list g)).

(** [GraphBase.get_adjacency] belongs to the compiled core; the method is
    parametric in it ([base]).  The rows of [data] are built one by one by
    the comprehension of line 343, so no two of them are the same list. *)
Definition get_adjacency (base : Graph -> adjacency_arg -> res matrix) (self : Graph)
    (type attribute : adjacency_arg) (default : pyval) : res matrix :=
  let '(type, attribute) :=
    match type with
    | AdjType _ => (type, attribute)
    | _ =>
        let '(type, attribute) := (attribute, type) in
        (match type with AdjNone => AdjType GET_ADJACENCY_BOTH | _ => type end,
         attribute)
    end in
  match attribute with
  | AdjNone => base self type
  | _ =>
      match (match attribute with
             | AdjName name => edge_attributes self !! name
             | _ => None
             end) with
      | None => Err (ValueError "Attribute does not exist")
      | Some column =>
          let data := replicate (vcount self) (replicate (vcount self) default) in
          if is_directed self then
            for_each_edge self (fun data idx edge =>
              v ← lookup_or IndexError column idx;
              set_cell data edge.1 edge.2 v) data
          else
            match type with
            | AdjType GET_ADJACENCY_BOTH =>
                for_each_edge self (fun data idx edge =>
                  let '(source, target) := edge in
                  v ← lookup_or IndexError column idx;
                  data ← set_cell data source target v;
                  set_cell data target source v) data
            | AdjType GET_ADJACENCY_UPPER =>
                for_each_edge self (fun data idx edge =>
                  v ← lookup_or IndexError column idx;
                  set_cell data (edge.1 `min` edge.2) (edge.1 `max` edge.2) v) data
            | _ =>
                for_each_edge self (fun data idx edge =>
                  v ← lookup_or IndexError column idx;
                  set_cell data (edge.1 `max` edge.2) (edge.1 `min` edge.2) v) data
            end
      end
  end.

(** *** Auxiliary notions for the adjacency matrix *)

(** [data[i][j]] *)
Definition cell (data : matrix) (i j : nat) : option pyval :=
  row ← data !! i; row !! j.

(** A square matrix of [n] rows. *)
Definition square_matrix (n : nat) (data : matrix) : Prop :=
  length data = n /\ Forall (fun row => length row = n) data.

(** The cells an edge is written to. *)
Definition adjacency_cells (directed : bool) (t : adjacency_type) (e : nat * nat)
    : list (nat * nat) :=
  if directed then [e]
  else match t with
       | GET_ADJACENCY_BOTH => [(e.1, e.2); (e.2, e.1)]
       | GET_ADJACENCY_UPPER => [(e.1 `min` e.2, e.1 `max` e.2)]
       | GET_ADJACENCY_LOWER => [(e.1 `max` e.2, e.1 `min` e.2)]
       end.

(** The edge [e] is written to the cell [(i, j)]. *)
Definition writes_to (directed : bool) (t : adjacency_type) (i j : nat)
    (e : nat * nat) : Prop :=
  (i, j) ∈ adjacency_cells directed t e.

Global Instance writes_to_dec directed t i j e : Decision (writes_to directed t i j e).
Proof. unfold writes_to. apply _. Defined.

(** A graph whose edges join vertices of the graph, with an edge column
    [column] of one value per edge. *)
Definition adjacency_ready (g : Graph) (column : list pyval) : Prop :=
  endpoints_below (vcount g) (edge_list g) /\ length column = ecount g.

(** The triangle with a weighted edge cycle used in the examples. *)
Definition triangle (directed : bool) : Graph :=
  mkGraph 3 directed [(0, 1); (2, 1); (0, 2)] ∅
    {[ "weight" := [PInt 7; PInt 8; PInt 9] ]}.

Definition no_base : Graph -> adjacency_arg -> res matrix := fun _ _ => Err TypeError.

(** ** [Graph.k_core] (lines 831-865) *)

(** A positional argument of [k_core]: an integer, or a list or tuple of
    integers. *)
Inductive k_arg : Type :=
  | KInt (k : Z)
  | KList (ks : list Z).

(** What [k_core] returns: a single graph or a list of graphs. *)
Inductive k_cores (G : Type) : Type :=
  | OneGraph (g : G)
  | GraphList (gs : list G).
Arguments OneGraph {G} g.
Arguments GraphList {G} gs.

(** [[vidx for vidx in vidxs if corenesses[vidx] >= idx]] *)
Fixpoint core_idxs (corenesses : list Z) (idx : Z) (vidxs : list nat) : res (list nat) :=
  match vidxs with
  | [] => Ok []
  | vidx :: rest =>
      c ← lookup_or IndexError corenesses vidx;
      tl ← core_idxs corenesses idx rest;
      Ok (if (idx <=? c)%Z then vidx :: tl else tl)
  end.

(** [self.coreness()] and [self.subgraph] belong to the compiled core: the
    method is parametric in the list [corenesses] the former returns and in
    the function [subgraph]. *)
Definition k_core {G : Type} (vcount : nat) (corenesses : list Z)
    (subgraph : list nat -> G) (args : list k_arg) : res (k_cores G) :=
  let '(indices, return_single) :=
    match args with
    | [] => (Z.of_nat <$> seq 0 vcount, false)
    | _ => (args ≫= (fun arg => match arg with KList ks => ks | KInt k => [k] end),
            true)
    end in
  return_single ←
    (if (1 <? length indices)%nat then Ok false
     else match args with
          | [] => Err IndexError
          | KList _ :: _ => Ok false
          | KInt _ :: _ => Ok return_single
          end);
  let vidxs := seq 0 vcount in
  result ← mapM_res (fun idx => subgraph <$> core_idxs corenesses idx vidxs) indices;
  if return_single : bool then
    match result with
    | g :: _ => Ok (OneGraph g)
    | [] => Err IndexError
    end
  else Ok (GraphList result).

(** *** Auxiliary notions for [k_core] *)

(** The vertex [v] has coreness at least [k]. *)
Definition in_core (corenesses : list Z) (k : Z) (v : nat) : bool :=
  match corenesses !! v with
  | Some c => (k <=? c)%Z
  | None => false
  end.

(** The vertices of coreness at least [k], in increasing order. *)
Definition core_of (corenesses : list Z) (k : Z) : list nat :=
  filter (fun v => Is_true (in_core corenesses k v)) (seq 0 (length corenesses)).


(** The indices the arguments of [k_core] stand for. *)
Definition k_indices (args : list k_arg) : list Z :=
  args ≫= (fun arg => match arg with KList ks => ks | KInt k => [k] end).

(** [not hasattr(args[0], "__iter__")] for a non-empty argument tuple. *)
Definition first_is_int (args : list k_arg) : bool :=
  match args with
  | KInt _ :: _ => true
  | _ => false
  end.

(** ** File formats: [_identify_format], [Read] and [write] (lines 1334-1458) *)

(** These functions raise [IOError] only. *)
Inductive io (A : Type) : Type :=
  | Returns (a : A)
  | IOError (msg : string).
Arguments Returns {A} a.
Arguments IOError {A} msg.

(** The argument [f]: a file name, or a file object, whose [name] may be
    missing. *)
Inductive file_arg : Type :=
  | FileName (name : string)
  | FileObject (name : option string).

(** [c.lower()] on one character and [s.lower()] on a byte string. *)
Definition lower_ascii (c : ascii) : ascii :=
  let n := nat_of_ascii c in
  if (65 <=? n)%nat && (n <=? 90)%nat then ascii_of_nat (n + 32) else c.

Fixpoint lower (s : string) : string :=
  match s with
  | EmptyString => EmptyString
  | String c s' => String (lower_ascii c) (lower s')
  end.

(** [str(format)] *)
Definition str_format (format : option string) : string :=
  match format with
  | None => "None"
  | Some s => s
  end.

(** The dict [_format_mapping], lines 2105-2124: the names of the reader and
    of the writer method of each format. *)
Definition _format_mapping : gmap string (option string * option string) :=
  list_to_map [
    ("ncol", (Some "Read_Ncol", Some "write_ncol"));
    ("lgl", (Some "Read_Lgl", Some "write_lgl"));
    ("graphdb", (Some "Read_GraphDB", None));
    ("graphmlz", (Some "Read_GraphMLz", Some "write_graphmlz"));
    ("graphml", (Some "Read_GraphML", Some "write_graphml"));
    ("gml", (Some "Read_GML", Some "write_gml"));
    ("dot", (None, Some "write_dot"));
    ("graphviz", (None, Some "write_dot"));
    ("net", (Some "Read_Pajek", Some "write_pajek"));
    ("pajek", (Some "Read_Pajek", Some "write_pajek"));
    ("dimacs", (Some "Read_DIMACS", Some "write_dimacs"));
    ("adjacency", (Some "Read_Adjacency", Some "write_adjacency"));
    ("adj", (Some "Read_Adjacency", Some "write_adjacency"));
    ("edgelist", (Some "Read_Edgelist", Some "write_edgelist"));
    ("edge", (Some "Read_Edgelist", Some "write_edgelist"));
    ("edges", (Some "Read_Edgelist", Some "write_edgelist"));
    ("pickle", (Some "Read_Pickle", Some "write_pickle"));
    ("svg", (None, Some "write_svg"))
  ].

(** The extensions that name their format, lines 1359-1361. *)
Definition format_extensions : list string :=
  [".graphml"; ".graphmlz"; ".lgl"; ".ncol"; ".pajek"; ".gml"; ".dimacs";
   ".edgelist"; ".edges"; ".edge"; ".net"; ".pickle"; ".dot"].

(** [f.readline()] for the [k]-th time on a file of the given lines: the
    empty string at the end of the file, never [None]. *)
Definition readline (lines : list string) (k : nat) : string :=
  default EmptyString (lines !! k).

(** [len(line.strip().split())] *)
Definition parts (line : string) : nat := length (String.words line).

Section formats.

(** [os.path.splitext] and [open(filename, "r")] belong to Python and to the
    file system; the functions are parametric in them.  Opening a file
    yields its lines or raises an [IOError]. *)
Variable splitext : string -> string * string.
Variable open : string -> io (list string).

(** Lines 1364-1389, once the file is open. *)
Definition sniff (lines : list string) : option string :=
  let line := readline lines 0 in
  if (parts line =? 2)%nat then
    let line := readline lines 1 in
    if (parts line =? 2)%nat then
      let line := readline lines 2 in
      if (parts line =? 0)%nat then None else Some "edges"
    else None
  else Some "adjacency".

Definition _identify_format (filename : file_arg) : io (option string) :=
  match (match filename with
         | FileName name => Some name
         | FileObject name => name
         end) with
  | None => Returns None
  | Some filename =>
      let '(root, ext) := splitext filename in
      let ext := lower ext in
      if bool_decide (ext ∈ format_extensions) then Returns (Some (PyStr.drop 1 ext))
      else if String.eqb ext ".txt" || String.eqb ext ".dat" then
        match open filename with
        | IOError msg => IOError msg
        | Returns lines => Returns (sniff lines)
        end
      else Returns None
  end.

(** The common part of [Read] and [write]: the name of the method the call
    is handed on to, [pick] choosing the reader or the writer of the pair.
    [except KeyError, IndexError] catches the KeyError of an unknown
    format. *)
Definition dispatch (pick : option string * option string -> option string)
    (kind : string) (f : file_arg) (format : option string) : io string :=
  match (match format with
         | None => _identify_format f
         | Some _ => Returns format
         end) with
  | IOError msg => IOError msg
  | Returns format =>
      match format ≫= (fun name => _format_mapping !! name) with
      | None => IOError ("unknown file format: " +:+ str_format format)
      | Some methods =>
          match pick methods with
          | None =>
              IOError ("no " +:+ kind +:+ " method for file format: "
                       +:+ str_format format)
          | Some method => Returns method
          end
      end
  end.

(** [Graph.Read(f, format)], up to the call of the reader method. *)
Definition Read (f : file_arg) (format : option string) : io string :=
  dispatch fst "reader" f format.

(** [g.write(f, format)], up to the call of the writer method. *)
Definition write (f : file_arg) (format : option string) : io string :=
  dispatch snd "writer" f format.

End formats.

(** *** Auxiliary notions for the file formats *)

(** [os.path.splitext] for names without a directory part and without
    leading dots, which is all the examples need: the extension starts at
    the last dot. *)
Definition splitext_simple (name : string) : string * string :=
  match PyStr.rindex "."%char name with
  | Some (S p) => (PyStr.take (S p) name, PyStr.drop (S p) name)
  | _ => (name, EmptyString)
  end.

(** A file system with two files. *)
Definition two_files (name : string) : io (list string) :=
  if String.eqb name "pairs.txt" then Returns ["1 2"; "2 3"]
  else if String.eqb name "triples.txt" then Returns ["1 2"; "2 3"; "3 1"]
  else IOError "No such file or directory".


(** The formats [_identify_format] can come up with. *)
Definition identifiable_formats : list string :=
  ["graphml"; "graphmlz"; "lgl"; "ncol"; "pajek"; "gml"; "dimacs"; "edgelist";
   "edges"; "edge"; "net"; "pickle"; "dot"; "adjacency"].

(** ** [Graph.__init__] with its argument handling, and pickling
    (lines 86-140 and 1925-1947) *)

(** What a caller passes to the constructor: an integer, a truth value, a
    list or tuple of pairs, or a dict from names to values, a value being
    one object or a sequence. *)
Inductive init_arg : Type :=
  | ArgInt (n : nat)
  | ArgBool (b : bool)
  | ArgList (edges : list (nat * nat))
  | ArgDict (d : gmap string assigned).

(** A [Graph] object: the graph of the core, the graph attributes, and the
    instance dict [__dict__] of the Python object. *)
Record graph_object : Type := GraphObject {
  graph_base : Graph;
  graph_attributes : gmap string assigned;
  instance_dict : gmap string pyval
}.

(** Modelled from the spec: the three arguments [GraphBase.__init__]
    accepts -- a vertex count, a list of pairs, a truth value -- and the
    TypeError for anything else. *)
Definition as_count (a : init_arg) : res nat :=
  match a with
  | ArgInt n => Ok n
  | ArgBool b => Ok (if b then 1 else 0)
  | _ => Err TypeError
  end.
Definition as_edges (a : init_arg) : res (list (nat * nat)) :=
  match a with
  | ArgList edges => Ok edges
  | _ => Err TypeError
  end.
Definition as_flag (a : init_arg) : res bool :=
  match a with
  | ArgBool b => Ok b
  | ArgInt n => Ok (negb (n =? 0)%nat)
  | _ => Err TypeError
  end.

(** [a.iteritems()], which only a dict has. *)
Definition iteritems (a : init_arg) : res (list (string * assigned)) :=
  match a with
  | ArgDict d => Ok (map_to_list d)
  | _ => Err (AttributeError "iteritems")
  end.

Definition kwd_order : list string :=
  ["n"; "edges"; "directed"; "graph_attrs"; "vertex_attrs"; "edge_attrs"].

(** Lines 118-120. *)
Definition override (kwds : gmap string init_arg) (params : list init_arg)
    (ik : nat * string) : list init_arg :=
  match kwds !! ik.2 with
  | Some v => <[ik.1 := v]> params
  | None => params
  end.

(** Lines 106-122: the six parameters, from the defaults, the positional
    and the keyword arguments. *)
Definition init_params (args : list init_arg) (kwds : gmap string init_arg)
    : list init_arg :=
  let params := [ArgInt 1; ArgList []; ArgBool false; ArgDict ∅; ArgDict ∅; ArgDict ∅] in
  let args :=
    match args with
    | ArgList _ :: _ => ArgInt 1 :: args
    | _ => args
    end in
  let params := args ++ drop (length args) params in
  foldl (override kwds) params (zip (seq 0 (length kwd_order)) kwd_order).

Definition Graph__init__ (args : list init_arg) (kwds : gmap string init_arg)
    : res graph_object :=
  match init_params args kwds with
  | [nverts; edges; directed; graph_attrs; vertex_attrs; edge_attrs] =>
      nverts ← as_count nverts;
      edges ← as_edges edges;
      directed ← as_flag directed;
      let self := GraphBase_init nverts edges directed in
      items ← iteritems graph_attrs;
      let attributes := foldl (fun m kv => <[kv.1 := kv.2]> m) ∅ items in
      items ← iteritems vertex_attrs;
      self ← foldM (fun g kv => vs_setitem g kv.1 kv.2) self items;
      items ← iteritems edge_attrs;
      self ← foldM (fun g kv => es_setitem g kv.1 kv.2) self items;
      Ok (GraphObject self attributes ∅)
  | _ => Err (ValueError "too many values to unpack")
  end.

(** [__reduce__], lines 1935-1947: the arguments for the constructor and
    the instance dict. *)
Definition __reduce__ (self : graph_object) : list init_arg * gmap string pyval :=
  let gattrs :=
    foldl (fun m kv => <[kv.1 := kv.2]> m) ∅ (map_to_list (graph_attributes self)) in
  let vattrs :=
    foldl (fun m kv => <[kv.1 := ASeq kv.2]> m) ∅
      (map_to_list (vertex_attributes (graph_base self))) in
  let eattrs :=
    foldl (fun m kv => <[kv.1 := ASeq kv.2]> m) ∅
      (map_to_list (edge_attributes (graph_base self))) in
  ([ArgInt (vcount (graph_base self)); ArgList (edge_list (graph_base self));
    ArgBool (is_directed (graph_base self));
    ArgDict gattrs; ArgDict vattrs; ArgDict eattrs],
   instance_dict self).

(** [_reconstruct], lines 1925-1933; [update] lets [attrs] win. *)
Definition _reconstruct (attrs : gmap string pyval) (args : list init_arg)
    (kwds : gmap string init_arg) : res graph_object :=
  result ← Graph__init__ args kwds;
  Ok (GraphObject (graph_base result) (graph_attributes result)
        (attrs ∪ instance_dict result)).

(** *** Auxiliary notions for the constructor *)

(** A graph object of the core: every column has one slot per entity and
    the edges join vertices of the graph. *)
Definition well_formed (g : Graph) : Prop :=
  columns_sized (vertex_attributes g) (vcount g) /\
  columns_sized (edge_attributes g) (ecount g) /\
  endpoints_below (vcount g) (edge_list g).

(** The square of the examples as a Python object. *)
Definition square_object : graph_object :=
  GraphObject square {[ "title" := AScalar (PStr "square") ]} {[ "cache" := PInt 1 ]}.

(** The value a column assignment stores when it is given a whole column. *)
Definition column_of_assigned (v : assigned) : list pyval :=
  match v with
  | ASeq l => l
  | AScalar _ => []
  end.

(** The six defaults of the constructor and the positional arguments as
    the constructor reads them. *)
Definition default_params : list init_arg :=
  [ArgInt 1; ArgList []; ArgBool false; ArgDict ∅; ArgDict ∅; ArgDict ∅].
Definition positional (args : list init_arg) : list init_arg :=
  match args with
  | ArgList _ :: _ => ArgInt 1 :: args
  | _ => args
  end.

(** *** Further notions for [select] *)

(** Both endpoints in [c]. *)
Definition within (c : collection) (s t : nat) : bool := member c s && member c t.

(** The six comparisons of the operator table on two integers. *)
Definition int_test (func : operator) (a z : Z) : bool :=
  match func with
  | OpLt => bool_decide (a < z)%Z
  | OpGt => bool_decide (z < a)%Z
  | OpLe => bool_decide (a <= z)%Z
  | OpGe => bool_decide (z <= a)%Z
  | OpEq => bool_decide (a = z)
  | OpNe => bool_decide (a <> z)
  | OpIn | OpNotin => false
  end.

(** The graph [DictList] builds from the records of the examples. *)
Definition example_graph : Graph :=
  mkGraph 3 true [(1, 0); (1, 2)]
    {[ "name" := [PStr "b"; PStr "a"; PStr "c"]; "age" := [PNone; PInt 30; PNone] ]}
    {[ "source" := [PStr "a"; PStr "a"]; "target" := [PStr "b"; PStr "c"];
       "weight" := [PInt 1; PNone] ]}.

(** ** [Graph.layout] (lines 868-941) and [Graph.__mul__] (lines 1882-1905) *)

(** The dict [_layout_mapping], lines 2126-2161. *)
Definition _layout_mapping : gmap string string :=
  list_to_map [
    ("circle", "layout_circle");
    ("circular", "layout_circle");
    ("drl", "layout_drl");
    ("drl_3d", "layout_drl_3d");
    ("fr", "layout_fruchterman_reingold");
    ("fruchterman_reingold", "layout_fruchterman_reingold");
    ("fr3d", "layout_fruchterman_reingold_3d");
    ("fr_3d", "layout_fruchterman_reingold_3d");
    ("fruchterman_reingold_3d", "layout_fruchterman_reingold_3d");
    ("gfr", "layout_grid_fruchterman_reingold");
    ("graphopt", "layout_graphopt");
    ("grid_fr", "layout_grid_fruchterman_reingold");
    ("grid_fruchterman_reingold", "layout_grid_fruchterman_reingold");
    ("kk", "layout_kamada_kawai");
    ("kamada_kawai", "layout_kamada_kawai");
    ("kk3d", "layout_kamada_kawai_3d");
    ("kk_3d", "layout_kamada_kawai_3d");
    ("kamada_kawai_3d", "layout_kamada_kawai_3d");
    ("lgl", "layout_lgl");
    ("large", "layout_lgl");
    ("large_graph", "layout_lgl");
    ("mds", "layout_mds");
    ("random", "layout_random");
    ("random_3d", "layout_random_3d");
    ("rt", "layout_reingold_tilford");
    ("tree", "layout_reingold_tilford");
    ("reingold_tilford", "layout_reingold_tilford");
    ("rt_circular", "layout_reingold_tilford_circular");
    ("reingold_tilford_circular", "layout_reingold_tilford_circular");
    ("sphere", "layout_sphere");
    ("spherical", "layout_sphere");
    ("star", "layout_star");
    ("circle_3d", "layout_sphere");
    ("circular_3d", "layout_sphere")
  ].

(** The argument [layout]: [None], a name, or a callable. *)
Inductive layout_arg (F : Type) : Type :=
  | LayoutNone
  | LayoutName (name : string)
  | LayoutCallable (f : F).
Arguments LayoutNone {F}.
Arguments LayoutName {F} name.
Arguments LayoutCallable {F} f.

(** The function the call is handed on to: a layout method of the class,
    by its name, or the callable the caller gave. *)
Inductive layout_method (F : Type) : Type :=
  | ClassMethod (name : string)
  | Callable (f : F).
Arguments ClassMethod {F} name.
Arguments Callable {F} f.

(** Lines 930-935; [plotting_layout] is the value of the configuration key
    [plotting.layout], a name.  A name that is not registered is the
    KeyError of the dict lookup. *)
Definition layout {F : Type} (plotting_layout : string) (layout : layout_arg F)
    : res (layout_method F) :=
  let layout :=
    match layout with
    | LayoutNone => LayoutName plotting_layout
    | _ => layout
    end in
  match layout with
  | LayoutCallable f => Ok (Callable f)
  | LayoutName name =>
      let layout := lower name in
      ClassMethod <$> dict_get _layout_mapping layout
  | LayoutNone => Err TypeError
  end.

(** What [__mul__] returns: a graph, or [NotImplemented]. *)
Inductive mul_result : Type :=
  | Product (g : graph_object)
  | NotImplemented.

(** The right operand of [*]: an integer, or something else. *)
Inductive mul_arg : Type :=
  | MulInt (k : Z)
  | MulOther.

(** [disjoint_union] belongs to the compiled core: the method is parametric
    in it. *)
Definition __mul__ (disjoint_union : graph_object -> list graph_object -> graph_object)
    (self : graph_object) (other : mul_arg) : res mul_result :=
  match other with
  | MulInt other =>
      if (other =? 0)%Z then Product <$> Graph__init__ [] ∅
      else if (other =? 1)%Z then Ok (Product self)
      else if (1 <? other)%Z then
        Ok (Product (disjoint_union self (replicate (Z.to_nat (other - 1)) self)))
      else Ok NotImplemented
  | MulOther => Ok NotImplemented
  end.

(** [__nonzero__], the truth value of a graph. *)
Definition __nonzero__ (self : graph_object) : bool :=
  (0 <? vcount (graph_base self))%nat.

(** *** Further notions for the delegated predicates *)

(** The six names [EdgeSeq.select] treats as structural properties. *)
Definition structural_names : list string :=
  ["_source"; "_from"; "_target"; "_to"; "_within"; "_between"].

(** An engine with one method, [index], which returns the absolute index of
    every member of the sequence it is given. *)
Definition index_method : engine := fun name =>
  if String.eqb name "index" then
    Some (fun _ arg =>
            match arg with
            | ArgVertexSeq indices | ArgEdgeSeq indices => Ok (vertex_id <$> indices)
            end)
  else None.
(** ** Facts about the string operations *)

Section string_facts.
Import PyStr.

Lemma app_nil_l (s : string) : EmptyString +:+ s = s.
Proof. reflexivity. Qed.

Lemma app_cons c (a b : string) : String c a +:+ b = String c (a +:+ b).
Proof. reflexivity. Qed.

Lemma app_empty_r (s : string) : s +:+ EmptyString = s.
Proof. induction s as [|c s IH]; [done | by rewrite app_cons, IH]. Qed.

Lemma app_assoc' (a b c : string) : (a +:+ b) +:+ c = a +:+ (b +:+ c).
Proof. induction a as [|x a IH]; [done | by rewrite !app_cons, IH]. Qed.

Lemma contains_app c a b : contains c (a +:+ b) = contains c a || contains c b.
Proof.
  induction a as [|x a IH]; [done |]. rewrite app_cons. simpl.
  destruct (Ascii.eqb c x); [done | exact IH].
Qed.

Lemma rindex_None c s : rindex c s = None <-> contains c s = false.
Proof.
  induction s as [|x s IH]; simpl; [done |].
  destruct (rindex c s) as [p|].
  - destruct (Ascii.eqb c x); split; try done.
    intros H. apply IH in H. done.
  - destruct (Ascii.eqb c x); split; try done.
    intros _. by apply IH.
Qed.

(** The last occurrence sits right after [a] when the tail is free of [c]. *)
Lemma rindex_app c a t :
  contains c t = false ->
  rindex c (a +:+ String c t) = Some (String.length a).
Proof.
  intros Ht. induction a as [|x a IH].
  - rewrite app_nil_l. simpl.
    apply rindex_None in Ht. rewrite Ht. by rewrite Ascii.eqb_refl.
  - rewrite app_cons. simpl. by rewrite IH.
Qed.

Lemma rindex_split c s p :
  rindex c s = Some p ->
  exists a t, s = a +:+ String c t /\ String.length a = p /\ contains c t = false.
Proof.
  revert p. induction s as [|x s IH]; intros p; simpl; [done |].
  destruct (rindex c s) as [q|] eqn:Hq.
  - intros [= <-]. destruct (IH q eq_refl) as (a & t & -> & <- & Ht).
    by exists (String x a), t.
  - destruct (Ascii.eqb c x) eqn:Hcx; [|done].
    intros [= <-]. apply Ascii.eqb_eq in Hcx as <-.
    exists EmptyString, s. split_and!; [done | done |]. by apply rindex_None.
Qed.

Lemma take_app_length a b : take (String.length a) (a +:+ b) = a.
Proof.
  induction a as [|x a IH]; [by destruct b |].
  rewrite app_cons. simpl. by rewrite IH.
Qed.

Lemma drop_app_length a c t : drop (String.length a + 1) (a +:+ String c t) = t.
Proof. induction a as [|x a IH]; [done |]. rewrite app_cons. exact IH. Qed.

Lemma app_inj_tail c a1 t1 a2 t2 :
  contains c t1 = false -> contains c t2 = false ->
  a1 +:+ String c t1 = a2 +:+ String c t2 -> a1 = a2 /\ t1 = t2.
Proof.
  intros H1 H2 Heq.
  assert (String.length a1 = String.length a2) as Hlen.
  { pose proof (rindex_app c a1 t1 H1) as E1.
    pose proof (rindex_app c a2 t2 H2) as E2.
    rewrite Heq in E1. congruence. }
  split.
  - rewrite <- (take_app_length a1 (String c t1)), Heq, Hlen.
    apply take_app_length.
  - rewrite <- (drop_app_length a1 c t1), Heq, Hlen.
    apply drop_app_length.
Qed.

Lemma operators_no_underscore op f :
  operators op = Some f -> contains underscore op = false.
Proof.
  intros H. unfold operators in H.
  repeat match type of H with
         | context [String.eqb op ?s] =>
             destruct (String.eqb_spec op s) as [->|_]; [reflexivity |]
         end.
  done.
Qed.

End string_facts.

(** ** The keyword grammar *)

Section keyword_grammar.
Import PyStr.

Lemma parse_keyword_default kw :
  contains underscore kw = false \/ rindex underscore kw = Some 0 ->
  parse_keyword kw = Ok (Predicate kw "eq" OpEq).
Proof.
  intros Hkw. unfold parse_keyword.
  assert (negb (contains underscore kw)
          || bool_decide (rindex underscore kw = Some 0) = true) as ->.
  { destruct Hkw as [-> | ->]; [done |].
    rewrite bool_decide_eq_true_2 by done. apply orb_true_r. }
  change (kw +:+ "_eq") with (kw +:+ String underscore "eq").
  rewrite rindex_app by done.
  by rewrite take_app_length, drop_app_length.
Qed.

Lemma parse_keyword_at kw a t :
  kw = a +:+ String underscore t -> a <> EmptyString -> contains underscore t = false ->
  parse_keyword kw =
    match operators t with
    | Some f => Ok (Predicate a t f)
    | None => Ok (Predicate kw t OpEq)
    end.
Proof.
  intros -> Ha Ht. unfold parse_keyword.
  pose proof (rindex_app underscore a t Ht) as Hr.
  assert (negb (contains underscore (a +:+ String underscore t))
          || bool_decide (rindex underscore (a +:+ String underscore t) = Some 0)
          = false) as ->.
  { rewrite contains_app. simpl. rewrite orb_true_r. simpl.
    apply bool_decide_eq_false_2. rewrite Hr. intros [= Hlen].
    destruct a; [done | discriminate]. }
  rewrite Hr, take_app_length, drop_app_length.
  by destruct (operators t).
Qed.

End keyword_grammar.

(** ** The error monad and the comprehension helpers *)

Section monad_facts.
Context {A B S : Type}.

Lemma foldM_app (body : S -> A -> res S) st l1 l2 :
  foldM body st (l1 ++ l2) = (st' ← foldM body st l1; foldM body st' l2).
Proof.
  revert st. induction l1 as [|x l1 IH]; intros st; simpl; [done |].
  destruct (body st x); simpl; [apply IH | done].
Qed.

Lemma mapM_res_length (f : A -> res B) l r :
  mapM_res f l = Ok r -> length r = length l.
Proof.
  revert r. induction l as [|x l IH]; intros r; simpl.
  - by intros [= <-].
  - destruct (f x); simpl; [|done].
    destruct (mapM_res f l); simpl; [|done].
    intros [= <-]. simpl. f_equal. by apply IH.
Qed.

Lemma mapM_res_total (f : A -> res B) l :
  Forall (fun x => exists y, f x = Ok y) l -> exists r, mapM_res f l = Ok r.
Proof.
  induction 1 as [|x l [y Hy] _ [r Hr]]; simpl; [by eexists |].
  rewrite Hy, Hr. by eexists.
Qed.

End monad_facts.

Lemma lookup_or_Some {A : Type} e (l : list A) i x :
  l !! i = Some x -> lookup_or e l i = Ok x.
Proof. unfold lookup_or. by intros ->. Qed.

Lemma lookup_or_None {A : Type} e (l : list A) i :
  l !! i = None -> lookup_or e l i = Err e.
Proof. unfold lookup_or. by intros ->. Qed.

Lemma lookup_or_Ok {A : Type} e (l : list A) i x :
  lookup_or e l i = Ok x -> l !! i = Some x.
Proof. unfold lookup_or. destruct (l !! i); [by intros [= ->] | done]. Qed.

Lemma mapM_res_compose {A B C : Type} (f : A -> res B) (h : B -> res C) l ys :
  mapM_res f l = Ok ys ->
  mapM_res h ys = mapM_res (fun x => y ← f x; h y) l.
Proof.
  revert ys. induction l as [|x l IH]; intros ys; simpl.
  - by intros [= <-].
  - destruct (f x) as [y|]; simpl; [|done].
    destruct (mapM_res f l) as [ys'|]; simpl; [|done].
    intros [= <-]. simpl. destruct (h y); simpl; [|done].
    by rewrite (IH ys').
Qed.

Lemma filter_indices_from_flags i func values value :
  filter_indices_from i func values value =
    (flags ← mapM_res (fun v => apply_operator func v value) values;
     Ok (true_positions i flags)).
Proof.
  revert i. induction values as [|v values IH]; intros i; simpl; [done |].
  destruct (apply_operator func v value) as [b|]; simpl; [|done].
  rewrite IH. by destruct (mapM_res _ values).
Qed.

Lemma filter_edges_from_flags i g test es :
  filter_edges_from i g test es =
    (flags ← mapM_res (fun e => st ← lookup_or IndexError (edge_list g) e;
                                Ok (test st.1 st.2)) es;
     Ok (true_positions i flags)).
Proof.
  revert i. induction es as [|e es IH]; intros i; simpl; [done |].
  destruct (lookup_or IndexError (edge_list g) e) as [st|]; simpl; [|done].
  rewrite IH. by destruct (mapM_res _ es).
Qed.

(** Selecting the flagged positions yields a sublist of the sequence. *)
Lemma select_true_positions_sublist (full : list nat) flags i r :
  select_relative full (true_positions i flags) = Ok r ->
  sublist r (drop i full).
Proof.
  unfold select_relative.
  revert i r. induction flags as [|b flags IH]; intros i r; simpl.
  - intros [= <-]. apply sublist_nil_l.
  - assert (sublist (drop (S i) full) (drop i full)) as Hdrop.
    { replace (S i) with (i + 1) by lia.
      rewrite <- drop_drop. apply sublist_drop. }
    destruct b; simpl.
    + destruct (full !! i) as [x|] eqn:Hx;
        [rewrite (lookup_or_Some _ _ _ _ Hx) | rewrite (lookup_or_None _ _ _ Hx)];
        simpl; [|done].
      destruct (mapM_res _ (true_positions (S i) flags)) as [r'|] eqn:Hr';
        simpl; [|done].
      intros [= <-]. rewrite (drop_S _ _ _ Hx). apply sublist_skip. by apply IH.
    + intros Hr. etrans; [by apply IH | done].
Qed.

(** When there is a flag for every member, the selection keeps exactly the
    flagged members. *)
Lemma select_true_positions_keep (full : list nat) flags i :
  i + length flags <= length full ->
  select_relative full (true_positions i flags) = Ok (keep flags (drop i full)).
Proof.
  unfold select_relative.
  revert i. induction flags as [|b flags IH]; intros i Hlen; simpl in *.
  - by destruct (drop i full).
  - destruct (lookup_lt_is_Some_2 full i) as [x Hx]; [lia |].
    rewrite (drop_S _ _ _ Hx).
    destruct b; simpl.
    + rewrite (lookup_or_Some _ _ _ _ Hx). simpl. rewrite IH by lia. done.
    + apply IH. lia.
Qed.

Lemma keep_filter {A : Type} (t : A -> res bool) (l : list A) flags :
  mapM_res t l = Ok flags ->
  keep flags l = filter (fun x => Is_true (ok_true (t x))) l.
Proof.
  revert flags. induction l as [|x l IH]; intros flags; simpl.
  - by intros [= <-].
  - destruct (t x) as [b|] eqn:Hb; simpl; [|done].
    destruct (mapM_res t l) as [fl|]; simpl; [|done].
    intros [= <-]. simpl. rewrite filter_cons, Hb.
    destruct b; simpl; by rewrite (IH fl).
Qed.

(** Inversion of a successful sequence of binds. *)
Ltac res_inv H :=
  repeat match type of H with
         | mbind _ ?m = Ok _ =>
             let E := fresh "E" in
             destruct m eqn:E; simpl in H; [|discriminate H]
         | (if ?b then _ else _) = Ok _ =>
             let E := fresh "E" in destruct b eqn:E
         | Err _ = Ok _ => discriminate H
         end.

(** ** [select] narrows the receiver *)

Section narrowing.
Variable methods : engine.
Variable g : Graph.

Lemma filter_indices_positions func values value idxs :
  filter_indices func values value = Ok idxs ->
  exists flags, idxs = true_positions 0 flags.
Proof.
  unfold filter_indices. rewrite filter_indices_from_flags. intros H.
  res_inv H. injection H as <-. by eexists.
Qed.

Lemma filter_edges_positions test es idxs :
  filter_edges_from 0 g test es = Ok idxs ->
  exists flags, idxs = true_positions 0 flags.
Proof.
  rewrite filter_edges_from_flags. intros H.
  res_inv H. injection H as <-. by eexists.
Qed.

Lemma VertexSeq_select_step_positions vs kw r :
  VertexSeq_select_step methods g vs kw = Ok r ->
  exists flags, select_relative vs (true_positions 0 flags) = Ok r.
Proof.
  destruct kw as [keyword value]. unfold VertexSeq_select_step. intros H.
  res_inv H.
  all: match goal with
       | E : filter_indices _ _ _ = Ok _ |- _ =>
           apply filter_indices_positions in E as [flags ->]
       end; by exists flags.
Qed.

Lemma EdgeSeq_select_step_positions es kw r :
  EdgeSeq_select_step methods g es kw = Ok r ->
  exists flags, select_relative es (true_positions 0 flags) = Ok r.
Proof.
  destruct kw as [keyword value]. unfold EdgeSeq_select_step, endpoint_filter.
  intros H. res_inv H.
  match goal with
  | E : _ = Ok ?idxs |- _ =>
      match type of H with select_relative _ idxs = _ =>
        assert (exists flags, idxs = true_positions 0 flags) as [flags ->]
      end
  end; [|by exists flags].
  clear H.
  repeat match goal with
         | E : (if ?b then _ else _) = Ok _ |- _ => destruct b
         end;
    res_inv E1;
    first [ by eapply filter_indices_positions
          | by eapply filter_edges_positions ].
Qed.

Lemma select_positions_sublist (seq : list nat) flags r :
  select_relative seq (true_positions 0 flags) = Ok r -> sublist r seq.
Proof. intros H. by apply select_true_positions_sublist in H. Qed.

Lemma foldM_sublist (step : list nat -> string * pyobj -> res (list nat)) :
  (forall seq kw r, step seq kw = Ok r -> sublist r seq) ->
  forall kwds seq r, foldM step seq kwds = Ok r -> sublist r seq.
Proof.
  intros Hstep. induction kwds as [|kw kwds IH]; intros seq r; simpl.
  - by intros [= <-].
  - destruct (step seq kw) as [seq'|] eqn:Hs; simpl; [|done].
    intros Hr. etrans; [by eapply IH | by eapply Hstep].
Qed.

End narrowing.

(** ** Predicates over literal attributes are filters *)

Lemma never_raises_total func value v :
  never_raises func value = true -> exists b, apply_operator func v value = Ok b.
Proof.
  destruct func; simpl; intros Hnr.
  1-4: destruct value as [w | [l|s|idx] | parts | i]; simpl in *;
       try done; by eexists.
  1-2: by eexists.
  - destruct value as [w | [l|s|idx] | parts | i]; simpl in *;
      try done; by eexists.
  - destruct value as [w | [l|s|idx] | parts | i]; simpl in *;
      try done; by eexists.
Qed.

Lemma get_attribute_values_lookup columns seq attr values :
  get_attribute_values columns seq attr = Ok values ->
  exists col, columns !! attr = Some col /\
              mapM_res (lookup_or IndexError col) seq = Ok values.
Proof.
  unfold get_attribute_values. destruct (columns !! attr) as [col|]; [|done].
  intros H. by exists col.
Qed.

Lemma literal_step_filter columns seq attr func value r :
  literal_step columns seq attr func value = Ok r ->
  exists col, columns !! attr = Some col /\
              r = filter (fun i => Is_true (passes col func value i)) seq.
Proof.
  unfold literal_step, filter_indices. intros H. res_inv H.
  apply get_attribute_values_lookup in E as (col & Hcol & Hvalues).
  exists col. split; [done |].
  rewrite filter_indices_from_flags in E0. res_inv E0. injection E0 as <-.
  rewrite (mapM_res_compose _ _ _ _ Hvalues) in E.
  rewrite select_true_positions_keep in H.
  - injection H as <-. rewrite drop_0. by apply keep_filter.
  - apply mapM_res_length in E. simpl. lia.
Qed.

Lemma literal_step_total columns seq attr func value col :
  columns !! attr = Some col ->
  Forall (fun i => i < length col) seq ->
  never_raises func value = true ->
  exists r, literal_step columns seq attr func value = Ok r.
Proof.
  intros Hcol Hseq Hnr. unfold literal_step, get_attribute_values, filter_indices.
  rewrite Hcol.
  destruct (mapM_res_total (lookup_or IndexError col) seq) as [values Hvalues].
  { eapply Forall_impl; [done |]. intros i Hi.
    destruct (lookup_lt_is_Some_2 col i Hi) as [x Hx].
    exists x. by apply lookup_or_Some. }
  rewrite Hvalues. simpl. rewrite filter_indices_from_flags.
  destruct (mapM_res_total (fun v => apply_operator func v value) values)
    as [flags Hflags].
  { apply Forall_forall. intros v _. by apply never_raises_total. }
  rewrite Hflags. simpl. rewrite select_true_positions_keep; [by eexists |].
  apply mapM_res_length in Hvalues, Hflags. simpl. lia.
Qed.

Section literal_predicates.
Variable columns : gmap string (list pyval).
Variable step : list nat -> string * pyobj -> res (list nat).

(** On a literal attribute the loop body is [literal_step]. *)
Hypothesis step_literal : forall seq kw,
  is_literal kw.1 = true ->
  exists p, parse_keyword kw.1 = Ok p /\
            step seq kw = literal_step columns seq (pred_attr p) (pred_func p) kw.2.

Lemma step_filter seq kw r :
  is_literal kw.1 = true -> step seq kw = Ok r ->
  r = filter (fun i => Is_true (passes_kw columns kw i)) seq.
Proof.
  intros Hlit Hstep. destruct (step_literal seq kw Hlit) as (p & Hp & Heq).
  rewrite Heq in Hstep. apply literal_step_filter in Hstep as (col & Hcol & ->).
  unfold passes_kw. by rewrite Hp, Hcol.
Qed.

Lemma fold_filter kwds seq r :
  Forall (fun kw => is_literal kw.1 = true) kwds ->
  foldM step seq kwds = Ok r ->
  r = filter (fun i => Is_true (passes_all columns kwds i)) seq.
Proof.
  intros Hlit. revert seq r.
  induction Hlit as [|kw kwds Hkw _ IH]; intros seq r; simpl.
  - intros [= <-]. induction seq as [|i seq IHs]; [done |].
    rewrite filter_cons. simpl. by rewrite <- IHs.
  - destruct (step seq kw) as [seq'|] eqn:Hs; simpl; [|done].
    intros Hr. apply IH in Hr as ->.
    rewrite (step_filter _ _ _ Hkw Hs), list_filter_filter.
    apply list_filter_iff. intros i. unfold passes_all. simpl.
    rewrite andb_True. tauto.
Qed.

Lemma passes_all_Permutation kwds kwds' i :
  kwds ≡ₚ kwds' -> passes_all columns kwds i = passes_all columns kwds' i.
Proof.
  intros Hperm. unfold passes_all.
  induction Hperm as [|kw l l' _ IH|kw kw' l|l l' l'' _ IH1 _ IH2]; simpl.
  - done.
  - by rewrite IH.
  - by rewrite !andb_assoc, (andb_comm (passes_kw columns kw' i)).
  - by rewrite IH1.
Qed.

Lemma fold_total kwds seq :
  Forall (evaluable columns seq) kwds -> exists r, foldM step seq kwds = Ok r.
Proof.
  revert seq. induction kwds as [|kw kwds IH]; intros seq Hev; simpl.
  - by eexists.
  - apply Forall_cons in Hev as [(Hlit & p & col & Hp & Hcol & Hseq & Hnr) Hev].
    destruct (step_literal seq kw Hlit) as (p' & Hp' & Heq).
    assert (p' = p) as -> by congruence.
    destruct (literal_step_total _ _ _ _ _ _ Hcol Hseq Hnr) as [seq' Hseq'].
    rewrite Heq, Hseq'. simpl. apply IH.
    apply literal_step_filter in Hseq' as (? & _ & Hf). subst seq'.
    eapply Forall_impl; [exact Hev |].
    intros kw' (Hlit' & q & col' & Hq & Hcol' & Hs & Hnr').
    split; [done |]. exists q, col'. split_and!; try done.
    apply Forall_forall. intros i [_ Hi]%list_elem_of_filter.
    by eapply Forall_forall in Hs.
Qed.

(** Applying [kwds1] and then [kwds2] gives what one pass over any
    arrangement [kwds] of the two together gives. *)
Lemma fold_composition_eq kwds1 kwds2 kwds seq r1 r2 :
  kwds ≡ₚ kwds1 ++ kwds2 ->
  Forall (fun kw => is_literal kw.1 = true) (kwds1 ++ kwds2) ->
  (s ← foldM step seq kwds1; foldM step s kwds2) = Ok r1 ->
  foldM step seq kwds = Ok r2 ->
  r1 = r2.
Proof.
  intros Hperm Hlit H1 H2. rewrite <- foldM_app in H1.
  apply fold_filter in H1 as ->; [|done].
  apply fold_filter in H2 as ->; [|by rewrite Hperm].
  apply list_filter_iff. intros i.
  by rewrite (passes_all_Permutation _ _ i Hperm).
Qed.

Lemma fold_composition kwds1 kwds2 kwds seq :
  kwds ≡ₚ kwds1 ++ kwds2 ->
  Forall (evaluable columns seq) (kwds1 ++ kwds2) ->
  exists r, (s ← foldM step seq kwds1; foldM step s kwds2) = Ok r /\
            foldM step seq kwds = Ok r.
Proof.
  intros Hperm Hev.
  destruct (fold_total _ _ Hev) as [r1 H1].
  assert (Forall (evaluable columns seq) kwds) as Hev' by by rewrite Hperm.
  destruct (fold_total _ _ Hev') as [r2 H2].
  rewrite foldM_app in H1.
  assert (r1 = r2) as <-.
  { eapply fold_composition_eq; try done.
    eapply Forall_impl; [exact Hev |]. by intros kw [? _]. }
  by exists r1.
Qed.

End literal_predicates.

Lemma VertexSeq_select_step_literal methods g seq kw :
  is_literal kw.1 = true ->
  exists p, parse_keyword kw.1 = Ok p /\
            VertexSeq_select_step methods g seq kw =
              literal_step (vertex_attributes g) seq (pred_attr p) (pred_func p) kw.2.
Proof.
  destruct kw as [keyword value]. unfold is_literal, VertexSeq_select_step. simpl.
  destruct (parse_keyword keyword) as [p|]; simpl; [|done].
  destruct (starts_with_underscore (pred_attr p)) as [[]|]; simpl; try done.
  intros _. exists p. split; reflexivity.
Qed.

Lemma EdgeSeq_select_step_literal methods g seq kw :
  is_literal kw.1 = true ->
  exists p, parse_keyword kw.1 = Ok p /\
            EdgeSeq_select_step methods g seq kw =
              literal_step (edge_attributes g) seq (pred_attr p) (pred_func p) kw.2.
Proof.
  destruct kw as [keyword value]. unfold is_literal, EdgeSeq_select_step. simpl.
  destruct (parse_keyword keyword) as [p|]; simpl; [|done].
  destruct (starts_with_underscore (pred_attr p)) as [[]|]; simpl; try done.
  intros _. exists p. split; [done |]. simpl. unfold literal_step.
  destruct (get_attribute_values _ _ _); simpl; [|done].
  by destruct (filter_indices _ _ _).
Qed.

(** ** Structural predicates on edges *)

Lemma select_by_flags (seq : list nat) (t : nat -> res bool) flags :
  mapM_res t seq = Ok flags ->
  select_relative seq (true_positions 0 flags) =
    Ok (filter (fun x => Is_true (ok_true (t x))) seq).
Proof.
  intros Hflags. rewrite select_true_positions_keep.
  - by rewrite drop_0, (keep_filter t seq flags Hflags).
  - apply mapM_res_length in Hflags. simpl. lia.
Qed.

Lemma select_edges_filter g test es :
  Forall (fun e => e < ecount g) es ->
  (idxs ← filter_edges_from 0 g test es; select_relative es idxs) =
    Ok (filter (fun e => Is_true (edge_test g test e)) es).
Proof.
  intros Hes. rewrite filter_edges_from_flags.
  destruct (mapM_res_total
              (fun e => st ← lookup_or IndexError (edge_list g) e;
                        Ok (test st.1 st.2)) es) as [flags Hflags].
  { eapply Forall_impl; [exact Hes |]. intros e He.
    destruct (lookup_lt_is_Some_2 (edge_list g) e He) as [st Hst].
    exists (test st.1 st.2). by rewrite (lookup_or_Some _ _ _ _ Hst). }
  rewrite Hflags. simpl. rewrite (select_by_flags _ _ _ Hflags). f_equal.
  apply list_filter_iff. intros e. unfold edge_test, lookup_or.
  destruct (edge_list g !! e) as [st|]; simpl; [|done].
  by destruct (test st.1 st.2).
Qed.

Lemma ensure_set_collection c :
  exists s, _ensure_set (OColl c) = Ok s /\ forall v, in_set s v = member c v.
Proof.
  destruct c as [l|s|idx]; simpl.
  - exists (list_to_set l). split; [done |]. intros v. unfold in_set.
    apply bool_decide_ext. apply elem_of_list_to_set.
  - by exists s.
  - eexists. split; [done |]. intros v. unfold in_set.
    apply bool_decide_ext. rewrite elem_of_list_to_set, list_elem_of_fmap.
    split.
    + intros (w & Hw & Hin). unfold vertex_id in Hw.
      injection Hw as Hw. apply Nat2Z.inj in Hw. by subst.
    + intros Hin. by exists v.
Qed.

Global Arguments _ensure_set : simpl never.

Lemma starts_with_underscore_cons c s :
  starts_with_underscore (String c s) = Ok (Ascii.eqb c PyStr.underscore).
Proof. reflexivity. Qed.

Section between_selector.
Variable methods : engine.
Variable g : Graph.

Lemma between_two_sets es keyword p c1 c2 :
  parse_keyword keyword = Ok p -> pred_attr p = "_between" ->
  Forall (fun e => e < ecount g) es ->
  EdgeSeq_select methods g es [(keyword, OTuple [c1; c2])] =
    Ok (filter (fun e => Is_true (edge_test g (between c1 c2) e)) es).
Proof.
  intros Hp Hattr Hes. unfold EdgeSeq_select, core_select. simpl.
  rewrite Hp. simpl. rewrite Hattr. simpl.
  destruct (ensure_set_collection c1) as (s1 & -> & H1).
  destruct (ensure_set_collection c2) as (s2 & -> & H2). simpl.
  pose proof (select_edges_filter g
    (fun s t => in_set s1 s && in_set s2 t || in_set s2 s && in_set s1 t)
    es Hes) as Hsel.
  destruct (filter_edges_from 0 g _ es) as [idxs|]; simpl in *; [|done].
  rewrite Hsel. simpl. f_equal. apply list_filter_iff. intros e.
  unfold edge_test, between. destruct (edge_list g !! e) as [[s t]|]; [|done].
  simpl. by rewrite !H1, !H2.
Qed.

Lemma between_wrong_arity es keyword p value n :
  parse_keyword keyword = Ok p -> pred_attr p = "_between" ->
  Py.len value = Ok n -> n <> 2 ->
  EdgeSeq_select methods g es [(keyword, value)] =
    Err (ValueError "_between selector requires two vertex ID lists").
Proof.
  intros Hp Hattr Hlen Hn. unfold EdgeSeq_select, core_select. simpl.
  rewrite Hp. simpl. rewrite Hattr. simpl. rewrite Hlen. simpl.
  destruct (Nat.eqb_spec n 2); [done |]. done.
Qed.

End between_selector.

(** ** Membership predicates *)

Lemma parse_keyword_func keyword p :
  parse_keyword keyword = Ok p ->
  operators (pred_op p) = Some (pred_func p) \/
  (operators (pred_op p) = None /\ pred_func p = OpEq).
Proof.
  unfold parse_keyword.
  destruct (PyStr.rindex _ _) as [pos|]; [|done].
  destruct (operators _) as [f|] eqn:Hop; intros [= <-]; simpl; auto.
Qed.



Section membership.
Variable methods : engine.
Variable g : Graph.



End membership.

(** ** Attribute assignment *)

Section assignment.

Lemma length_write_all col ivs : length (write_all col ivs) = length col.
Proof.
  revert col. induction ivs as [|iv ivs IH]; intros col; simpl; [done |].
  unfold write_all in IH. by rewrite IH, length_insert.
Qed.

Lemma store_lt col iv :
  iv.1 < length col -> store col iv = Ok (<[iv.1 := iv.2]> col).
Proof. unfold store. intros H. by destruct (Nat.ltb_spec iv.1 (length col)); [|lia]. Qed.

Lemma store_inv col iv c :
  store col iv = Ok c -> iv.1 < length col /\ c = <[iv.1 := iv.2]> col.
Proof.
  unfold store. destruct (Nat.ltb_spec iv.1 (length col)); [|done].
  by intros [= <-].
Qed.

Lemma foldM_store_ok col ivs :
  Forall (fun iv => iv.1 < length col) ivs ->
  foldM store col ivs = Ok (write_all col ivs).
Proof.
  revert col. induction ivs as [|iv ivs IH]; intros col Hin; simpl; [done |].
  apply Forall_cons in Hin as [Hiv Hin]. rewrite (store_lt _ _ Hiv). simpl.
  apply IH. eapply Forall_impl; [exact Hin |].
  intros iv' ?. by rewrite length_insert.
Qed.

Lemma foldM_store_inv col ivs col' :
  foldM store col ivs = Ok col' ->
  Forall (fun iv => iv.1 < length col) ivs /\ col' = write_all col ivs.
Proof.
  revert col. induction ivs as [|iv ivs IH]; intros col; simpl.
  - intros [= <-]. by split.
  - destruct (store col iv) as [c|] eqn:Hc; simpl; [|done].
    apply store_inv in Hc as [Hlt ->].
    intros [Hin ->]%IH. split; [|done]. constructor; [done |].
    eapply Forall_impl; [exact Hin |]. intros iv' ?.
    by rewrite length_insert in *.
Qed.

Lemma write_all_lookup_notin col ivs i :
  i ∉ ivs.*1 -> write_all col ivs !! i = col !! i.
Proof.
  revert col. induction ivs as [|[i' v'] ivs IH]; intros col Hi; simpl; [done |].
  rewrite fmap_cons in Hi. apply not_elem_of_cons in Hi as [Hne Hi]. simpl in *.
  unfold write_all in IH. rewrite IH by done.
  by apply list_lookup_insert_ne.
Qed.

Lemma write_all_lookup_in col ivs i v :
  NoDup ivs.*1 -> (i, v) ∈ ivs -> i < length col ->
  write_all col ivs !! i = Some v.
Proof.
  revert col. induction ivs as [|[i' v'] ivs IH]; intros col Hnd Hin Hi.
  - by apply elem_of_nil in Hin.
  - rewrite fmap_cons in Hnd. apply NoDup_cons in Hnd as [Hfresh Hnd]. simpl in *.
    apply elem_of_cons in Hin as [[= <- <-] | Hin].
    + fold (write_all (<[i:=v]> col) ivs).
      rewrite write_all_lookup_notin by done.
      by apply list_lookup_insert_eq.
    + fold (write_all (<[i':=v']> col) ivs).
      apply IH; [done | done |]. by rewrite length_insert.
Qed.

(** Writing every position in turn replaces the column. *)
Lemma write_all_full pre old vals :
  length old = length vals ->
  write_all (pre ++ old) (zip (seq (length pre) (length vals)) vals) = pre ++ vals.
Proof.
  revert pre old. induction vals as [|v vals IH]; intros pre old Hlen; simpl in *.
  - by destruct old.
  - destruct old as [|o old]; [done |]. simpl in *.
    fold (write_all (<[length pre := v]> (pre ++ o :: old))
            (zip (seq (S (length pre)) (length vals)) vals)).
    rewrite insert_app_r_alt by lia. rewrite Nat.sub_diag. simpl.
    rewrite (cons_middle v pre old), app_assoc.
    replace (S (length pre)) with (length (pre ++ [v]))
      by (rewrite length_app; simpl; lia).
    rewrite IH by lia. by rewrite <- app_assoc.
Qed.

Lemma length_cycle l k : length (cycle l k) = k.
Proof. unfold cycle. by rewrite length_fmap, length_seq. Qed.

Lemma lookup_cycle l k i :
  l <> [] -> i < k -> cycle l k !! i = l !! (i mod length l).
Proof.
  intros Hl Hi. unfold cycle.
  rewrite list_lookup_fmap, lookup_seq_lt by done. simpl.
  destruct (lookup_lt_is_Some_2 l (i mod length l)) as [x Hx].
  { apply Nat.mod_upper_bound. by destruct l. }
  by rewrite Hx.
Qed.

Lemma cycle_exact l : cycle l (length l) = l.
Proof.
  apply list_eq. intros i. destruct (decide (i < length l)) as [Hi|Hi].
  - rewrite lookup_cycle; [| by destruct l; simpl in *; [lia|] | done].
    by rewrite Nat.mod_small.
  - rewrite !lookup_ge_None_2; [done | lia | rewrite length_cycle; lia].
Qed.

Lemma length_assigned_values value k vals :
  assigned_values value k = Ok vals -> length vals = k.
Proof.
  destruct value as [v|l]; simpl.
  - intros [= <-]. apply length_replicate.
  - destruct (k <? length l)%nat; [done |].
    destruct ((length l =? 0)%nat && negb (k =? 0)%nat); [done |].
    intros [= <-]. apply length_cycle.
Qed.

Lemma assigned_values_exact l : assigned_values (ASeq l) (length l) = Ok l.
Proof.
  simpl. rewrite Nat.ltb_irrefl.
  destruct l as [|x l]; [done |]. change (length (x :: l) =? 0)%nat with false.
  simpl andb. cbv iota. by rewrite cycle_exact.
Qed.

Variable columns : gmap string (list pyval).
Variable universe : nat.
Variable name : string.

(** The column the assignment starts from. *)
Let old : list pyval := default (replicate universe PNone) (columns !! name).

Hypothesis column_length :
  forall col, columns !! name = Some col -> length col = universe.

Lemma length_old : length old = universe.
Proof.
  unfold old. destruct (columns !! name) as [col|] eqn:Hcol; simpl.
  - by apply column_length.
  - apply length_replicate.
Qed.

Lemma set_attribute_values_scope scope value vals :
  assigned_values value (length scope) = Ok vals ->
  Forall (fun i => i < universe) scope ->
  set_attribute_values columns universe scope name value =
    Ok (<[name := write_all old (zip scope vals)]> columns).
Proof.
  intros Hvals Hscope. unfold set_attribute_values. rewrite Hvals. simpl.
  fold old. rewrite foldM_store_ok; [done |].
  apply Forall_forall. intros [i v] Hin. simpl. rewrite length_old.
  apply elem_of_zip_l in Hin. by eapply Forall_forall in Hscope.
Qed.

Lemma set_attribute_values_full value vals :
  assigned_values value universe = Ok vals ->
  set_attribute_values columns universe (seq 0 universe) name value =
    Ok (<[name := vals]> columns).
Proof.
  intros Hvals. pose proof (length_assigned_values _ _ _ Hvals) as Hlen.
  rewrite (set_attribute_values_scope _ _ vals).
  - do 2 f_equal. rewrite <- Hlen.
    apply (write_all_full [] old vals). rewrite length_old. lia.
  - by rewrite length_seq.
  - apply Forall_forall. intros i Hi%elem_of_seq. lia.
Qed.

Lemma set_attribute_values_single i v :
  i < universe ->
  set_attribute_values columns universe [i] name (AScalar v) =
    Ok (<[name := <[i := v]> old]> columns).
Proof.
  intros Hi. rewrite (set_attribute_values_scope _ _ [v]); [done | done |].
  by constructor.
Qed.

End assignment.

Lemma set_attribute_values_scoped columns universe name scope value vals :
  (forall col, columns !! name = Some col -> length col = universe) ->
  assigned_values value (length scope) = Ok vals ->
  NoDup scope -> Forall (fun i => i < universe) scope ->
  exists column,
    set_attribute_values columns universe scope name value =
      Ok (<[name := column]> columns) /\
    length column = universe /\
    (forall j i, scope !! j = Some i -> column !! i = vals !! j) /\
    (forall i, i ∉ scope ->
       column !! i = default (replicate universe PNone) (columns !! name) !! i).
Proof.
  intros Hcol Hvals Hnd Hscope.
  pose proof (length_assigned_values _ _ _ Hvals) as Hlen.
  eexists. split; [by apply set_attribute_values_scope |].
  assert ((zip scope vals).*1 = scope) as Hfst by (apply fst_zip; lia).
  split_and!.
  - rewrite length_write_all. by apply length_old.
  - intros j i Hj.
    destruct (lookup_lt_is_Some_2 vals j) as [v Hv].
    { apply lookup_lt_Some in Hj. lia. }
    rewrite Hv. apply write_all_lookup_in.
    + by rewrite Hfst.
    + apply list_elem_of_lookup. exists j.
      apply lookup_zip_with_Some. by exists i, v.
    + rewrite length_old by done. eapply Forall_forall in Hscope; [done |].
      by eapply list_elem_of_lookup_2.
  - intros i Hi. apply write_all_lookup_notin. by rewrite Hfst.
Qed.

(** ** Loops over the items of a dict *)

Lemma foldM_pure {A S : Type} (I : S -> Prop) (body : S -> A -> res S)
    (pure : S -> A -> S) items st :
  I st ->
  (forall st x, I st -> x ∈ items -> body st x = Ok (pure st x) /\ I (pure st x)) ->
  foldM body st items = Ok (foldl pure st items) /\ I (foldl pure st items).
Proof.
  revert st. induction items as [|x items IH]; intros st Hst Hbody; simpl.
  - done.
  - destruct (Hbody st x Hst) as [-> Hst']; [by left |]. simpl.
    apply IH; [done |]. intros st'' y ? ?. apply Hbody; [done | by right].
Qed.

Section upsert.
Context {V W : Type}.
Variable f : string -> V -> option W -> W.

Lemma foldl_upsert_lookup (items : list (string * V)) (m : gmap string W) k :
  NoDup items.*1 ->
  foldl (upsert f) m items !! k =
    match (list_to_map items : gmap string V) !! k with
    | Some v => Some (f k v (m !! k))
    | None => m !! k
    end.
Proof.
  revert m. induction items as [|[k' v'] items IH]; intros m Hnd; simpl.
  - by rewrite lookup_empty.
  - rewrite fmap_cons in Hnd. apply NoDup_cons in Hnd as [Hfresh Hnd].
    rewrite IH by done. unfold upsert. simpl in *.
    destruct (decide (k' = k)) as [->|Hne].
    + rewrite lookup_insert_eq.
      rewrite (not_elem_of_list_to_map_1 items k) by done.
      by rewrite lookup_insert_eq.
    + rewrite !lookup_insert_ne by done. done.
Qed.

(** Over the items of a dict every key is met once. *)
Lemma foldl_upsert_items (data : gmap string V) (m : gmap string W) k :
  foldl (upsert f) m (map_to_list data) !! k =
    match data !! k with
    | Some v => Some (f k v (m !! k))
    | None => m !! k
    end.
Proof.
  rewrite foldl_upsert_lookup by apply NoDup_fst_map_to_list.
  by rewrite list_to_map_to_list.
Qed.

End upsert.

(** ** [create_list_from_indices] and the accumulated columns *)

Section columns.

Lemma length_fill l n : length (fill l n) = n.
Proof. unfold fill. by rewrite length_write_all, length_replicate. Qed.

Lemma create_list_from_indices_ok l n :
  Forall (fun iv => iv.1 < n) l -> create_list_from_indices l n = Ok (fill l n).
Proof.
  intros Hl. unfold create_list_from_indices. apply foldM_store_ok.
  by rewrite length_replicate.
Qed.

Lemma write_all_app_r col x l :
  Forall (fun iv => iv.1 < length col) l ->
  write_all (col ++ [x]) l = write_all col l ++ [x].
Proof.
  revert col. induction l as [|iv l IH]; intros col Hl; simpl; [done |].
  apply Forall_cons in Hl as [Hiv Hl].
  fold (write_all (<[iv.1:=iv.2]> (col ++ [x])) l).
  fold (write_all (<[iv.1:=iv.2]> col) l).
  rewrite insert_app_l by done. apply IH.
  eapply Forall_impl; [exact Hl |]. intros ? ?. by rewrite length_insert.
Qed.

Lemma fill_S l n :
  Forall (fun iv => iv.1 < n) l -> fill l (S n) = fill l n ++ [PNone].
Proof.
  intros Hl. unfold fill. rewrite replicate_S_end.
  apply write_all_app_r. by rewrite length_replicate.
Qed.

Lemma fill_snoc l n v :
  Forall (fun iv => iv.1 < n) l -> fill (l ++ [(n, v)]) (S n) = fill l n ++ [v].
Proof.
  intros Hl.
  assert (fill (l ++ [(n, v)]) (S n) = <[n := v]> (fill l (S n))) as ->.
  { unfold fill, write_all. by rewrite foldl_app. }
  rewrite fill_S by done.
  rewrite insert_app_r_alt by (rewrite length_fill; lia).
  by rewrite length_fill, Nat.sub_diag.
Qed.

Lemma materialize_ok attrs n :
  positions_below attrs n ->
  materialize attrs n = Ok ((fun l => fill l n) <$> attrs).
Proof.
  intros Hwf. unfold materialize.
  destruct (foldM_pure (fun _ => True)
              (fun cols kv => col ← create_list_from_indices kv.2 n;
                              Ok (<[kv.1 := col]> cols))
              (upsert (fun _ l _ => fill l n))
              (map_to_list attrs) ∅ I) as [-> _].
  - intros cols [k l] _ Hin. split; [|done]. simpl.
    apply elem_of_map_to_list in Hin.
    by rewrite create_list_from_indices_ok by by eapply Hwf.
  - f_equal. apply map_eq. intros k.
    rewrite foldl_upsert_items, lookup_fmap, lookup_empty.
    by destruct (attrs !! k).
Qed.

Lemma accumulate_lookup attrs idx data k :
  accumulate attrs idx data !! k =
    match data !! k with
    | Some v => Some (default [] (attrs !! k) ++ [(idx, v)])
    | None => attrs !! k
    end.
Proof.
  unfold accumulate.
  rewrite <- (foldl_upsert_items (fun _ v old => default [] old ++ [(idx, v)])).
  f_equal. clear. generalize (map_to_list data). intros items. revert attrs.
  induction items as [|kv items IH]; intros attrs; simpl; [done |].
  rewrite <- IH. f_equal. unfold accumulate_item, upsert.
  by destruct (attrs !! kv.1).
Qed.

Lemma length_column_of k records : length (column_of k records) = length records.
Proof. unfold column_of. by rewrite length_fmap. Qed.

Lemma column_of_absent k records :
  ~ Exists (fun r => is_Some (r !! k)) records ->
  column_of k records = replicate (length records) PNone.
Proof.
  induction records as [|r records IH]; intros Hno; simpl; [done |].
  rewrite Exists_cons in Hno.
  destruct (r !! k) as [v|] eqn:Hv; [exfalso; apply Hno; left; by eexists |].
  simpl. f_equal. apply IH. tauto.
Qed.

Lemma column_opt_length k records col :
  column_opt k records = Some col -> length col = length records.
Proof.
  unfold column_opt. case_decide; [|done]. intros [= <-]. apply length_column_of.
Qed.

(** The column of a key after one more record. *)
Lemma column_opt_snoc k records r :
  column_opt k (records ++ [r]) =
    match r !! k with
    | Some v =>
        Some (default (replicate (length records) PNone) (column_opt k records) ++ [v])
    | None => (fun c => c ++ [PNone]) <$> column_opt k records
    end.
Proof.
  unfold column_opt, column_of. rewrite fmap_app. simpl.
  destruct (r !! k) as [v|] eqn:Hv; simpl.
  - rewrite decide_True.
    2: { apply Exists_app. right. apply Exists_cons. left. by eexists. }
    f_equal. f_equal. case_decide as Hex; simpl; [done |].
    by apply column_of_absent.
  - case_decide as Hex.
    + rewrite decide_True; [done |]. apply Exists_app in Hex as [Hex|Hex]; [done |].
      apply Exists_cons in Hex as [[? Hx]|Hex]; [congruence |].
      by apply Exists_nil in Hex.
    + rewrite decide_False; [done |]. intros Hex'. apply Hex.
      apply Exists_app. by left.
Qed.

Lemma accumulated_nil : accumulated [] ∅.
Proof.
  split.
  - intros k l. by rewrite lookup_empty.
  - intros k. rewrite lookup_empty. unfold column_opt.
    rewrite decide_False; [done |]. by intros ?%Exists_nil.
Qed.

Lemma accumulated_snoc done attrs r :
  accumulated done attrs ->
  accumulated (done ++ [r]) (accumulate attrs (length done) r).
Proof.
  intros [Hwf Hcols]. unfold accumulated. rewrite length_app. simpl.
  replace (length done + 1) with (S (length done)) by lia. split.
  - intros k l. rewrite accumulate_lookup.
    destruct (r !! k) as [v|].
    + intros [= <-]. apply Forall_app. split.
      * destruct (attrs !! k) as [l'|] eqn:Hl'; simpl; [|done].
        eapply Forall_impl; [by eapply Hwf |]. intros ? ?. simpl in *. lia.
      * repeat constructor.
    + intros Hl. eapply Forall_impl; [by eapply Hwf |]. intros ? ?. simpl in *. lia.
  - intros k. rewrite accumulate_lookup, column_opt_snoc, <- Hcols.
    destruct (r !! k) as [v|]; simpl.
    + f_equal. destruct (attrs !! k) as [l|] eqn:Hl; simpl.
      * apply fill_snoc. by eapply Hwf.
      * by apply (fill_snoc []).
    + destruct (attrs !! k) as [l|] eqn:Hl; simpl; [|done].
      f_equal. apply fill_S. by eapply Hwf.
Qed.

Lemma accumulated_materialize done attrs :
  accumulated done attrs ->
  exists cols, materialize attrs (length done) = Ok cols /\
               forall k, cols !! k = column_opt k done.
Proof.
  intros [Hwf Hcols]. eexists. split; [by apply materialize_ok |].
  intros k. by rewrite lookup_fmap, <- Hcols.
Qed.

End columns.

(** ** The vertex records *)

Lemma vertex_loop_accumulated rest done attrs :
  accumulated done attrs ->
  exists attrs',
    vertex_loop (length done) rest attrs (length done) =
      (attrs', length (done ++ rest)) /\
    accumulated (done ++ rest) attrs'.
Proof.
  revert done attrs. induction rest as [|r rest IH]; intros done attrs Hacc; simpl.
  - exists attrs. by rewrite app_nil_r.
  - destruct (IH (done ++ [r]) _ (accumulated_snoc _ _ r Hacc)) as (attrs' & Hloop & Hacc').
    rewrite length_app in Hloop. simpl in Hloop.
    replace (length done + 1) with (S (length done)) in Hloop by lia.
    rewrite <- app_assoc in Hloop, Hacc'. by exists attrs'.
Qed.

Lemma construct_vertices_columns vertices vertex_name_attr :
  exists cols,
    construct_vertices vertices vertex_name_attr =
      Ok (cols, length (records_of vertices)) /\
    forall k, cols !! k = initial_column vertices vertex_name_attr k.
Proof.
  unfold construct_vertices, initial_column, records_of.
  destruct vertices as [[|r records]|]; simpl.
  - eexists. split; [done |]. intros k.
    case_decide as Hk; [subst; apply lookup_singleton_eq |].
    by apply lookup_singleton_ne.
  - destruct (vertex_loop_accumulated (r :: records) [] ∅ accumulated_nil)
      as (attrs & Hloop & Hacc). simpl in Hloop. rewrite Hloop.
    destruct (accumulated_materialize _ _ Hacc) as (cols & Hmat & Hcols).
    simpl in Hmat. rewrite Hmat. simpl. by exists cols.
  - eexists. split; [done |]. intros k.
    case_decide as Hk; [subst; apply lookup_singleton_eq |].
    by apply lookup_singleton_ne.
Qed.

Lemma initial_column_length vertices vertex_name_attr k col :
  initial_column vertices vertex_name_attr k = Some col ->
  length col = length (records_of vertices).
Proof.
  unfold initial_column. destruct (records_of vertices) as [|r records] eqn:Hrec.
  - case_decide; [|done]. by intros [= <-].
  - apply column_opt_length.
Qed.

(** ** Unique names and the id generator *)

Lemma size_list_to_set_le (l : list pyval) :
  size (list_to_set l : gset pyval) <= length l.
Proof.
  induction l as [|x l IH]; simpl; [done |].
  destruct (decide (x ∈ (list_to_set l : gset pyval))) as [Hin|Hout].
  - rewrite (subseteq_union_1_L {[x]}) by (by apply singleton_subseteq_l). lia.
  - rewrite size_union by set_solver. rewrite size_singleton. lia.
Qed.

Lemma has_duplicates_false l : has_duplicates l = false <-> NoDup l.
Proof.
  unfold has_duplicates. rewrite negb_false_iff, Nat.eqb_eq. split.
  - induction l as [|x l IH]; intros Hsize; [constructor |]. simpl in Hsize.
    pose proof (size_list_to_set_le l) as Hle.
    destruct (decide (x ∈ (list_to_set l : gset pyval))) as [Hin|Hout].
    + rewrite (subseteq_union_1_L {[x]}) in Hsize
        by (by apply singleton_subseteq_l). lia.
    + rewrite size_union in Hsize by set_solver. rewrite size_singleton in Hsize.
      constructor; [by rewrite elem_of_list_to_set in Hout |]. apply IH. lia.
  - intros Hnd. symmetry. by apply size_list_to_set.
Qed.

Module UniqueIdGeneratorFacts.
Import UniqueIdGenerator.

Lemma getitem_seen gen name :
  name ∈ gen ->
  exists i, getitem gen name = (i, gen) /\ gen !! i = Some name /\ i < length gen.
Proof.
  intros Hin. unfold getitem.
  destruct (list_find (fun x => x = name) gen) as [[i x]|] eqn:Hfind.
  - apply list_find_Some in Hfind as (Hi & -> & _).
    exists i. split_and!; [done | done |]. by eapply lookup_lt_Some.
  - apply list_find_None in Hfind. by eapply Forall_forall in Hfind.
Qed.

Lemma getitem_fresh gen name :
  name ∉ gen -> getitem gen name = (length gen, gen ++ [name]).
Proof.
  intros Hout. unfold getitem.
  destruct (list_find (fun x => x = name) gen) as [[i x]|] eqn:Hfind; [|done].
  apply list_find_Some in Hfind as (Hi & -> & _).
  exfalso. apply Hout. by eapply list_elem_of_lookup_2.
Qed.

Lemma init_from gen names :
  NoDup (gen ++ names) ->
  foldl (fun gen name => (getitem gen name).2) gen names = gen ++ names.
Proof.
  revert gen. induction names as [|x names IH]; intros gen Hnd; simpl.
  - by rewrite app_nil_r.
  - rewrite getitem_fresh.
    + simpl. rewrite IH; rewrite <- app_assoc; done.
    + apply NoDup_app in Hnd as (_ & Hdisj & _). intros Hin.
      apply (Hdisj x Hin). by left.
Qed.

Lemma init_unique names : NoDup names -> init names = names.
Proof. intros Hnd. by apply (init_from [] names). Qed.

End UniqueIdGeneratorFacts.

(** ** Graph construction *)

Section graph_facts.

Lemma columns_sized_insert cols n k col :
  columns_sized cols n -> length col = n -> columns_sized (<[k := col]> cols) n.
Proof.
  intros Hcols Hcol k' col'. destruct (decide (k = k')) as [->|Hne].
  - rewrite lookup_insert_eq. by intros [= <-].
  - rewrite lookup_insert_ne by done. apply Hcols.
Qed.

Lemma vs_setitem_exact g k col :
  columns_sized (vertex_attributes g) (vcount g) -> length col = vcount g ->
  vs_setitem g k (ASeq col) =
    Ok (with_vertex_attributes g (<[k := col]> (vertex_attributes g))).
Proof.
  intros Hcols Hlen. unfold vs_setitem.
  rewrite (set_attribute_values_full _ _ _ (Hcols k) (ASeq col) col).
  - done.
  - rewrite <- Hlen. apply assigned_values_exact.
Qed.

Lemma es_setitem_exact g k col :
  columns_sized (edge_attributes g) (ecount g) -> length col = ecount g ->
  es_setitem g k (ASeq col) =
    Ok (with_edge_attributes g (<[k := col]> (edge_attributes g))).
Proof.
  intros Hcols Hlen. unfold es_setitem.
  rewrite (set_attribute_values_full _ _ _ (Hcols k) (ASeq col) col).
  - done.
  - rewrite <- Hlen. apply assigned_values_exact.
Qed.

Lemma vertex_setitem_single g i k v :
  columns_sized (vertex_attributes g) (vcount g) -> i < vcount g ->
  vertex_setitem g i k v =
    Ok (with_vertex_attributes g
          (<[k := <[i := v]> (default (replicate (vcount g) PNone)
                                 (vertex_attributes g !! k))]>
             (vertex_attributes g))).
Proof.
  intros Hcols Hi. unfold vertex_setitem.
  by rewrite (set_attribute_values_single _ _ _ (Hcols k) i v Hi).
Qed.

Lemma edge_setitem_single g i k v :
  columns_sized (edge_attributes g) (ecount g) -> i < ecount g ->
  edge_setitem g i k v =
    Ok (with_edge_attributes g
          (upsert (fun _ v old => <[i := v]> (default (replicate (ecount g) PNone) old))
             (edge_attributes g) (k, v))).
Proof.
  intros Hcols Hi. unfold edge_setitem.
  by rewrite (set_attribute_values_single _ _ _ (Hcols k) i v Hi).
Qed.

Lemma foldl_with_vertex_attributes {V} (f : string -> V -> option (list pyval) -> list pyval)
    (items : list (string * V)) g :
  foldl (fun g kv => with_vertex_attributes g (upsert f (vertex_attributes g) kv))
    g items =
  with_vertex_attributes g (foldl (upsert f) (vertex_attributes g) items).
Proof.
  revert g. induction items as [|kv items IH]; intros g; simpl.
  - by destruct g.
  - by rewrite IH.
Qed.

Lemma foldl_with_edge_attributes {V} (f : string -> V -> option (list pyval) -> list pyval)
    (items : list (string * V)) g :
  foldl (fun g kv => with_edge_attributes g (upsert f (edge_attributes g) kv))
    g items =
  with_edge_attributes g (foldl (upsert f) (edge_attributes g) items).
Proof.
  revert g. induction items as [|kv items IH]; intros g; simpl.
  - by destruct g.
  - by rewrite IH.
Qed.

Lemma foldl_upsert_replace (cols : gmap string (list pyval)) :
  foldl (upsert (fun _ (v : list pyval) _ => v)) ∅ (map_to_list cols) = cols.
Proof.
  apply map_eq. intros k. rewrite foldl_upsert_items, lookup_empty.
  by destruct (cols !! k).
Qed.

(** The constructor stores columns of the right length as they are. *)
Lemma Graph_init_exact n edges directed vertex_attrs edge_attrs :
  vertices_needed edges <= n ->
  columns_sized vertex_attrs n ->
  columns_sized edge_attrs (length edges) ->
  Graph_init n edges directed vertex_attrs edge_attrs =
    Ok (mkGraph n directed edges vertex_attrs edge_attrs).
Proof.
  intros Hn Hv He. unfold Graph_init, GraphBase_init.
  rewrite Nat.max_l by done.
  destruct (foldM_pure
              (fun g => vcount g = n /\ columns_sized (vertex_attributes g) n)
              (fun g kv => vs_setitem g kv.1 (ASeq kv.2))
              (fun g kv => with_vertex_attributes g
                             (upsert (fun _ v _ => v) (vertex_attributes g) kv))
              (map_to_list vertex_attrs)
              (mkGraph n directed edges ∅ ∅)) as [-> _].
  { split; [done |]. intros k col. simpl. by rewrite lookup_empty. }
  { intros g [k col] [Hvc Hcols] Hin. apply elem_of_map_to_list in Hin.
    simpl. rewrite vs_setitem_exact; [| by rewrite Hvc | rewrite Hvc; by eapply Hv].
    split; [done |]. split; [done |]. simpl.
    apply columns_sized_insert; [done | by eapply Hv]. }
  simpl. rewrite foldl_with_vertex_attributes. simpl.
  rewrite foldl_upsert_replace.
  destruct (foldM_pure
              (fun g => edge_list g = edges /\
                        columns_sized (edge_attributes g) (length edges))
              (fun g kv => es_setitem g kv.1 (ASeq kv.2))
              (fun g kv => with_edge_attributes g
                             (upsert (fun _ v _ => v) (edge_attributes g) kv))
              (map_to_list edge_attrs)
              (with_vertex_attributes (mkGraph n directed edges ∅ ∅) vertex_attrs))
    as [-> _].
  { split; [done |]. intros k col. simpl. by rewrite lookup_empty. }
  { intros g [k col] [Hel Hcols] Hin. apply elem_of_map_to_list in Hin.
    simpl. rewrite es_setitem_exact;
      [| unfold ecount; by rewrite Hel | unfold ecount; rewrite Hel; by eapply He].
    split; [done |]. split; [done |]. simpl.
    apply columns_sized_insert; [done | by eapply He]. }
  rewrite foldl_with_edge_attributes. simpl.
  by rewrite foldl_upsert_replace.
Qed.

(** The per-edge attribute loop of the iterative mode. *)
Lemma edge_setitem_loop g idx (data : gmap string pyval) :
  columns_sized (edge_attributes g) (ecount g) -> idx < ecount g ->
  foldM (fun g kv => edge_setitem g idx kv.1 kv.2) g (map_to_list data) =
    Ok (with_edge_attributes g
          (foldl (upsert (fun _ v old =>
                    <[idx := v]> (default (replicate (ecount g) PNone) old)))
             (edge_attributes g) (map_to_list data))).
Proof.
  intros Hcols Hidx.
  destruct (foldM_pure
              (fun g' => edge_list g' = edge_list g /\
                         columns_sized (edge_attributes g') (ecount g))
              (fun g kv => edge_setitem g idx kv.1 kv.2)
              (fun g' kv => with_edge_attributes g'
                 (upsert (fun _ v old =>
                    <[idx := v]> (default (replicate (ecount g) PNone) old))
                    (edge_attributes g') kv))
              (map_to_list data) g) as [-> _].
  - done.
  - intros g' [k v] [Hel Hcols'] _. simpl.
    assert (ecount g' = ecount g) as Hec by (unfold ecount; by rewrite Hel).
    rewrite edge_setitem_single; [| by rewrite Hec | by rewrite Hec].
    rewrite Hec. split; [done |]. split; [done |]. simpl.
    apply columns_sized_insert; [done |]. rewrite length_insert. simpl.
    destruct (edge_attributes g' !! k) as [c|] eqn:Hc; simpl.
    + by eapply Hcols'.
    + apply length_replicate.
  - by rewrite foldl_with_edge_attributes.
Qed.

End graph_facts.

(** ** The two modes of [DictList] *)

Section modes.
Import UniqueIdGenerator UniqueIdGeneratorFacts.

(** The state after the vertex records were read. *)
Variable vertex_attrs0 : gmap string (list pyval).
Variable n0 : nat.
Variable names0 : list pyval.
Variables vertex_name_attr efk_src efk_dest : string.
Variable directed : bool.

Hypothesis sized0 : columns_sized vertex_attrs0 n0.
Hypothesis names_column : vertex_attrs0 !! vertex_name_attr = Some names0.

Local Abbreviation grown := (grown_columns vertex_attrs0 names0 vertex_name_attr).
Local Abbreviation live :=
  (live_graph vertex_attrs0 n0 names0 vertex_name_attr directed).
Local Abbreviation batch_finish :=
  (finish_batch vertex_attrs0 n0 vertex_name_attr directed).

Lemma length_names0 : length names0 = n0.
Proof. by eapply sized0. Qed.

Lemma grown_nil : grown [] = vertex_attrs0.
Proof.
  apply map_eq. intros k. unfold grown_columns. simpl.
  destruct (decide (k = vertex_name_attr)) as [->|Hne].
  - by rewrite lookup_insert_eq, app_nil_r, names_column.
  - rewrite lookup_insert_ne, lookup_fmap by done.
    destruct (vertex_attrs0 !! k); simpl; [by rewrite app_nil_r | done].
Qed.

Lemma grown_sized new : columns_sized (grown new) (n0 + length new).
Proof.
  intros k col. unfold grown_columns.
  destruct (decide (k = vertex_name_attr)) as [->|Hne].
  - rewrite lookup_insert_eq. intros [= <-].
    by rewrite length_app, length_names0.
  - rewrite lookup_insert_ne, lookup_fmap by done.
    destruct (vertex_attrs0 !! k) as [c|] eqn:Hc; simpl; [|done].
    intros [= <-]. rewrite length_app, length_replicate. f_equal. by eapply sized0.
Qed.

Lemma grown_snoc new x :
  <[vertex_name_attr :=
      <[n0 + length new := x]>
        (default (replicate (n0 + length new + 1) PNone)
           (((fun col => col ++ replicate 1 PNone) <$> grown new) !! vertex_name_attr))]>
    ((fun col => col ++ replicate 1 PNone) <$> grown new)
  = grown (new ++ [x]).
Proof.
  apply map_eq. intros k. unfold grown_columns.
  destruct (decide (k = vertex_name_attr)) as [->|Hne].
  - rewrite !lookup_insert_eq, lookup_fmap, lookup_insert_eq. simpl. f_equal.
    rewrite insert_app_r_alt by (rewrite length_app, length_names0; lia).
    rewrite length_app, length_names0, Nat.sub_diag. simpl.
    by rewrite <- app_assoc.
  - rewrite !lookup_insert_ne, !lookup_fmap, lookup_insert_ne, lookup_fmap by done.
    destruct (vertex_attrs0 !! k) as [c|]; simpl; [|done].
    rewrite length_app. simpl. rewrite Nat.add_1_r, replicate_S_end.
    by rewrite <- !app_assoc.
Qed.

Lemma extend_vertices_grown new :
  extend_vertices vertex_name_attr vertex_attrs0 n0 (names0 ++ new) =
    (grown new, n0 + length new).
Proof.
  unfold extend_vertices, len, values.
  rewrite length_app, length_names0.
  destruct (Nat.ltb_spec n0 (n0 + length new)) as [Hlt|Hge].
  - replace (n0 + length new - n0) with (length new) by lia. done.
  - destruct new as [|x new]; [|simpl in Hge; lia].
    simpl. by rewrite grown_nil, Nat.add_0_r.
Qed.

(** Resolving one endpoint name, and making room for it when it is new. *)
Lemma discover_grown new el ecols x :
  exists v more,
    getitem (names0 ++ new) x = (v, names0 ++ new ++ more) /\
    (names0 ++ new ++ more) !! v = Some x /\
    v < n0 + length (new ++ more) /\
    discover vertex_name_attr (live new el ecols) (n0 + length new) v x =
      Ok (live (new ++ more) el ecols, n0 + length (new ++ more)).
Proof.
  destruct (decide (x ∈ names0 ++ new)) as [Hin|Hout].
  - destruct (getitem_seen _ _ Hin) as (i & Hget & Hi & Hlt).
    rewrite length_app, length_names0 in Hlt.
    exists i, []. rewrite !app_nil_r. split_and!; [done | done | done |].
    unfold discover. by destruct (Nat.eqb_spec i (n0 + length new)); [lia |].
  - exists (n0 + length new), [x].
    rewrite (getitem_fresh _ _ Hout), !length_app, length_names0. simpl. split_and!.
    + by rewrite <- app_assoc.
    + rewrite app_assoc. apply list_lookup_middle.
      by rewrite length_app, length_names0.
    + lia.
    + unfold discover. rewrite Nat.eqb_refl.
      rewrite vertex_setitem_single.
      * simpl. unfold live_graph, with_vertex_attributes. simpl.
        rewrite grown_snoc, !length_app. simpl. by rewrite !Nat.add_assoc.
      * simpl. intros k col. rewrite lookup_fmap.
        destruct (grown new !! k) as [c|] eqn:Hc; simpl; [|done].
        intros [= <-]. rewrite length_app. simpl. f_equal.
        by eapply grown_sized.
      * simpl. lia.
Qed.

Lemma vertices_needed_below n el : endpoints_below n el -> vertices_needed el <= n.
Proof.
  induction 1 as [|e el [H1 H2] _ IH]; simpl; [lia |]. lia.
Qed.

Lemma batch_finish_live done new el acc ecols :
  accumulated done acc ->
  (forall k, ecols !! k = column_opt k done) ->
  length el = length done ->
  endpoints_below (n0 + length new) el ->
  batch_finish (BatchState (names0 ++ new) el acc (length done)) =
    Ok (live new el ecols).
Proof.
  intros Hacc Hecols Hlen Hel. unfold finish_batch. simpl.
  destruct (accumulated_materialize _ _ Hacc) as (cols & -> & Hcols). simpl.
  rewrite extend_vertices_grown.
  assert (cols = ecols) as ->.
  { apply map_eq. intros k. by rewrite Hcols, Hecols. }
  apply Graph_init_exact.
  - by apply vertices_needed_below.
  - apply grown_sized.
  - intros k col. rewrite Hecols, Hlen. apply column_opt_length.
Qed.

(** One more edge on the live graph: the slot [add_edges] appends, then
    the values of the record. *)
Lemma edge_columns_snoc done ecols (data : gmap string pyval) :
  (forall k, ecols !! k = column_opt k done) ->
  forall k,
    foldl (upsert (fun _ v old =>
             <[length done := v]> (default (replicate (S (length done)) PNone) old)))
      ((fun col => col ++ replicate 1 PNone) <$> ecols) (map_to_list data) !! k
    = column_opt k (done ++ [data]).
Proof.
  intros Hecols k.
  rewrite foldl_upsert_items, column_opt_snoc, lookup_fmap, Hecols.
  destruct (data !! k) as [v|]; [|done]. f_equal.
  destruct (column_opt k done) as [c|] eqn:Hc; cbn -[replicate].
  - apply column_opt_length in Hc. change (replicate 1 PNone) with [PNone].
    rewrite insert_app_r_alt by lia. by rewrite Hc, Nat.sub_diag.
  - rewrite replicate_S_end.
    rewrite insert_app_r_alt by (rewrite length_replicate; lia).
    by rewrite length_replicate, Nat.sub_diag.
Qed.

(** From related states, the iterative loop ends in the graph the batch
    mode assembles, and fails where the batch loop fails. *)
Lemma loops_agree rest :
  forall done idx new el acc ecols,
    idx = length done ->
    accumulated done acc ->
    (forall k, ecols !! k = column_opt k done) ->
    length el = length done ->
    endpoints_below (n0 + length new) el ->
    iterative_loop vertex_name_attr efk_src efk_dest idx rest
      (live new el ecols) (n0 + length new) (names0 ++ new) =
    (st ← batch_loop efk_src efk_dest idx rest
            (BatchState (names0 ++ new) el acc idx);
     batch_finish st).
Proof.
  induction rest as [|data rest IH];
    intros done idx new el acc ecols -> Hacc Hecols Hlen Hel.
  - simpl. symmetry. by apply batch_finish_live.
  - simpl. unfold dict_get.
    destruct (data !! efk_src) as [s|] eqn:Hs; simpl; [|done].
    destruct (discover_grown new el ecols s)
      as (v1 & more1 & Hget1 & _ & Hv1 & Hdisc1).
    rewrite Hget1.
    destruct (data !! efk_dest) as [d|] eqn:Hd; simpl; [|done].
    rewrite Hdisc1. simpl.
    destruct (discover_grown (new ++ more1) el ecols d)
      as (v2 & more2 & Hget2 & _ & Hv2 & Hdisc2).
    rewrite Hget2, Hdisc2. simpl.
    set (new2 := (new ++ more1) ++ more2) in *.
    assert (length (new ++ more1) <= length new2) as Hle2
      by (unfold new2; rewrite (length_app _ more2); lia).
    assert (length new <= length new2) as Hle
      by (rewrite length_app in Hle2; lia).
    unfold add_edges. simpl.
    destruct (Nat.ltb_spec v1 (n0 + length new2)); [|lia].
    destruct (Nat.ltb_spec v2 (n0 + length new2)); [|lia]. simpl.
    rewrite edge_setitem_loop; simpl.
    + unfold ecount. simpl. rewrite length_app, Hlen. simpl.
      rewrite !Nat.add_1_r.
      apply (IH (done ++ [data]) (S (length done)) new2 (el ++ [(v1, v2)])
               (accumulate acc (length done) data)).
      * rewrite length_app. simpl. lia.
      * by apply accumulated_snoc.
      * by apply edge_columns_snoc.
      * rewrite !length_app. simpl. lia.
      * apply Forall_app. split.
        -- eapply Forall_impl; [exact Hel |]. intros e [? ?]. split; lia.
        -- repeat constructor; simpl; lia.
    + intros k col. rewrite lookup_fmap. unfold ecount. simpl.
      rewrite length_app. simpl.
      destruct (ecols !! k) as [c|] eqn:Hc; simpl; [|done].
      intros [= <-]. rewrite length_app. simpl. f_equal.
      rewrite Hecols in Hc. apply column_opt_length in Hc. lia.
    + unfold ecount. simpl. rewrite length_app. simpl. lia.
Qed.


(** What the batch loop computes: it stops at the first record that lacks
    an endpoint key, and otherwise ends with the names in first-seen
    order, the resolved edges and the accumulated attributes. *)
Lemma batch_loop_spec rest :
  forall done idx new el acc,
    idx = length done ->
    accumulated done acc ->
    length el = length done ->
    endpoints_below (n0 + length new) el ->
    Forall2 (resolved efk_src efk_dest (names0 ++ new)) el done ->
    names0 ++ new = seen names0 (done ≫= endpoint_names efk_src efk_dest) ->
    (exists k,
       batch_loop efk_src efk_dest idx rest (BatchState (names0 ++ new) el acc idx)
         = Err (KeyError k) /\
       (k = efk_src \/ k = efk_dest) /\
       Exists (fun r => r !! k = None) rest) \/
    (exists new' el' acc',
       batch_loop efk_src efk_dest idx rest (BatchState (names0 ++ new) el acc idx)
         = Ok (BatchState (names0 ++ new') el' acc' (length (done ++ rest))) /\
       accumulated (done ++ rest) acc' /\
       length el' = length (done ++ rest) /\
       endpoints_below (n0 + length new') el' /\
       Forall2 (resolved efk_src efk_dest (names0 ++ new')) el' (done ++ rest) /\
       names0 ++ new' = seen names0 ((done ++ rest) ≫= endpoint_names efk_src efk_dest) /\
       Forall (has_endpoints efk_src efk_dest) rest).
Proof.
  induction rest as [|data rest IH];
    intros done idx new el acc -> Hacc Hlen Hel Hres Hseen.
  - right. exists new, el, acc. rewrite app_nil_r. by split_and!.
  - simpl. unfold dict_get.
    destruct (data !! efk_src) as [s|] eqn:Hs; simpl.
    2: { left. exists efk_src. split_and!; [done | by left | by left]. }
    destruct (discover_grown new el ∅ s) as (v1 & more1 & Hget1 & Hlk1 & Hv1 & _).
    rewrite Hget1.
    destruct (data !! efk_dest) as [d|] eqn:Hd; simpl.
    2: { left. exists efk_dest. split_and!; [done | by right | by left]. }
    destruct (discover_grown (new ++ more1) el ∅ d)
      as (v2 & more2 & Hget2 & Hlk2 & Hv2 & _).
    rewrite Hget2. rewrite Nat.add_1_r.
    set (new2 := (new ++ more1) ++ more2) in *.
    assert (length new <= length (new ++ more1) <= length new2) as Hle
      by (unfold new2; rewrite !length_app; lia).
    destruct (IH (done ++ [data]) (S (length done)) new2 (el ++ [(v1, v2)])
                (accumulate acc (length done) data)) as [Herr|Hok].
    + rewrite length_app. simpl. lia.
    + by apply accumulated_snoc.
    + rewrite !length_app. simpl. lia.
    + apply Forall_app. split.
      * eapply Forall_impl; [exact Hel |]. intros e [? ?]. split; lia.
      * repeat constructor; simpl; lia.
    + apply Forall2_app.
      * eapply Forall2_impl; [exact Hres |].
        intros e r (s' & d' & ? & ? & H1 & H2). exists s', d'.
        split_and!; [done | done | |].
        -- unfold new2. rewrite <- !app_assoc, app_assoc.
           by apply lookup_app_l_Some.
        -- unfold new2. rewrite <- !app_assoc, app_assoc.
           by apply lookup_app_l_Some.
      * repeat constructor. exists s, d. split_and!; [done | done | | done].
        simpl. unfold new2. rewrite app_assoc, app_assoc.
        apply lookup_app_l_Some. by rewrite <- app_assoc.
    + rewrite bind_app. unfold seen in *. rewrite foldl_app, <- Hseen.
      simpl. unfold endpoint_names. rewrite Hs, Hd. simpl.
      rewrite Hget1. simpl. by rewrite Hget2.
    + left. destruct Herr as (k & Hk & Hkey & Hex). exists k.
      split_and!; [done | done | by right].
    + right. destruct Hok as (new' & el' & acc' & Hloop & ? & ? & ? & ? & ? & ?).
      rewrite <- app_assoc in *. simpl in *.
      exists new', el', acc'. split_and!; try done.
      constructor; [|done]. split; by eexists.
Qed.

End modes.

(** The iterative mode returns what the batch mode returns, and raises
    what it raises. *)
Lemma DictList_modes_agree vertices edges directed vertex_name_attr
    edge_foreign_keys :
  DictList vertices edges directed vertex_name_attr edge_foreign_keys true =
  DictList vertices edges directed vertex_name_attr edge_foreign_keys false.
Proof.
  unfold DictList.
  destruct (construct_vertices_columns vertices vertex_name_attr)
    as (cols & -> & Hcols). simpl.
  set (n0 := length (records_of vertices)).
  assert (columns_sized cols n0) as Hsized.
  { intros k col. rewrite Hcols. apply initial_column_length. }
  unfold dict_get at 1 2.
  destruct (cols !! vertex_name_attr) as [names|] eqn:Hnames; simpl; [|done].
  destruct (has_duplicates names) eqn:Hdup; [done |].
  apply has_duplicates_false in Hdup.
  rewrite (UniqueIdGeneratorFacts.init_unique names Hdup).
  destruct edge_foreign_keys as [efk_src efk_dest].
  rewrite Graph_init_exact; [| simpl; lia | done | by intros k col].
  simpl.
  pose proof (loops_agree cols n0 names vertex_name_attr efk_src efk_dest directed
                Hsized Hnames edges [] 0 [] [] ∅ ∅ eq_refl accumulated_nil) as Hloops.
  unfold live_graph in Hloops. simpl in Hloops.
  rewrite (grown_nil cols names vertex_name_attr Hnames) in Hloops.
  rewrite Nat.add_0_r, app_nil_r in Hloops.
  rewrite Hloops.
  - done.
  - intros k. rewrite lookup_empty. unfold column_opt.
    rewrite decide_False; [done |]. by intros ?%Exists_nil.
  - done.
  - constructor.
Qed.

(** What a call of [DictList] amounts to, in either mode. *)
Lemma DictList_cases vertices edges directed vertex_name_attr efk_src efk_dest
    iterative :
  exists cols,
    construct_vertices vertices vertex_name_attr =
      Ok (cols, length (records_of vertices)) /\
    (forall k, cols !! k = initial_column vertices vertex_name_attr k) /\
    let call := DictList vertices edges directed vertex_name_attr
                  (efk_src, efk_dest) iterative in
    match cols !! vertex_name_attr with
    | None => call = Err (KeyError vertex_name_attr)
    | Some names =>
        if has_duplicates names
        then call = Err (ValueError "vertex names are not unique")
        else
          (exists k, call = Err (KeyError k) /\
                     (k = efk_src \/ k = efk_dest) /\
                     Exists (fun r => r !! k = None) edges) \/
          (exists new el ecols,
             call = Ok (mkGraph (length names + length new) directed el
                          (grown_columns cols names vertex_name_attr new) ecols) /\
             (forall k, ecols !! k = column_opt k edges) /\
             length el = length edges /\
             Forall2 (resolved efk_src efk_dest (names ++ new)) el edges /\
             names ++ new = seen names (edges ≫= endpoint_names efk_src efk_dest) /\
             Forall (has_endpoints efk_src efk_dest) edges)
    end.
Proof.
  destruct (construct_vertices_columns vertices vertex_name_attr)
    as (cols & Hcv & Hcols).
  exists cols. split_and!; [done | done |]. intros call.
  assert (call = DictList vertices edges directed vertex_name_attr
                   (efk_src, efk_dest) false) as ->.
  { unfold call. destruct iterative; [apply DictList_modes_agree | done]. }
  unfold DictList. rewrite Hcv. simpl.
  set (n0 := length (records_of vertices)).
  assert (columns_sized cols n0) as Hsized.
  { intros k col. rewrite Hcols. apply initial_column_length. }
  unfold dict_get.
  destruct (cols !! vertex_name_attr) as [names|] eqn:Hnames; simpl; [|done].
  destruct (has_duplicates names) eqn:Hdup; [done |].
  apply has_duplicates_false in Hdup.
  rewrite (UniqueIdGeneratorFacts.init_unique names Hdup).
  assert (length names = n0) as Hn0 by by eapply Hsized.
  destruct (batch_loop_spec cols n0 names vertex_name_attr efk_src efk_dest directed
              Hsized Hnames edges [] 0 [] [] ∅ eq_refl accumulated_nil eq_refl)
    as [(k & Hloop & Hk & Hex) | (new & el & acc & Hloop & Hacc & Hlen & Hel & Hres & Hseen & Hboth)].
  - constructor.
  - constructor.
  - by rewrite app_nil_r.
  - left. exists k. rewrite app_nil_r in Hloop. rewrite Hloop. by split_and!.
  - right. rewrite app_nil_r in Hloop. simpl in *. rewrite Hloop. simpl.
    destruct (accumulated_materialize _ _ Hacc) as (ecols & Hmat & Hecols).
    exists new, el, ecols. split_and!; try done.
    pose proof (batch_finish_live cols n0 names vertex_name_attr directed
                  Hsized Hnames edges new el acc ecols Hacc Hecols Hlen Hel) as Hfin.
    unfold finish_batch, live_graph in Hfin. simpl in Hfin. rewrite Hn0. exact Hfin.
Qed.

(** ** First-seen order *)

Lemma elem_of_seen gen l x : x ∈ seen gen l <-> x ∈ gen \/ x ∈ l.
Proof.
  revert gen. induction l as [|y l IH]; intros gen; simpl.
  - rewrite elem_of_nil. tauto.
  - unfold seen in *. simpl. rewrite IH, elem_of_cons.
    destruct (decide (y ∈ gen)) as [Hin|Hout].
    + destruct (UniqueIdGeneratorFacts.getitem_seen _ _ Hin) as (i & -> & _).
      simpl. split; [tauto |]. intros [?|[->|?]]; tauto.
    + rewrite (UniqueIdGeneratorFacts.getitem_fresh _ _ Hout). simpl.
      rewrite elem_of_app, list_elem_of_singleton. tauto.
Qed.

Lemma seen_snoc gen l x :
  seen gen (l ++ [x]) =
    if decide (x ∈ seen gen l) then seen gen l else seen gen l ++ [x].
Proof.
  unfold seen. rewrite foldl_app. simpl. fold (seen gen l).
  case_decide as Hin.
  - by destruct (UniqueIdGeneratorFacts.getitem_seen _ _ Hin) as (i & -> & _).
  - by rewrite (UniqueIdGeneratorFacts.getitem_fresh _ _ Hin).
Qed.

(** Starting from no names, the generator holds every name once, in the
    order of the first occurrences. *)
Lemma seen_first_occurrences l : seen [] l = reverse (remove_dups (reverse l)).
Proof.
  induction l as [|x l IH] using rev_ind; [done |].
  rewrite seen_snoc, reverse_snoc. simpl.
  assert (x ∈ seen [] l <-> x ∈ reverse l) as Hiff.
  { rewrite elem_of_seen, elem_of_reverse, elem_of_nil. tauto. }
  destruct (decide (x ∈ seen [] l)) as [Hin|Hout]; case_decide; try tauto.
  by rewrite reverse_cons, <- IH.
Qed.

(** ** Consequences for the constructed graph *)

(** A successful call, spelled out. *)
Lemma DictList_Ok vertices edges directed vertex_name_attr efk_src efk_dest
    iterative g :
  DictList vertices edges directed vertex_name_attr (efk_src, efk_dest) iterative
    = Ok g ->
  exists cols names new,
    (forall k, cols !! k = initial_column vertices vertex_name_attr k) /\
    cols !! vertex_name_attr = Some names /\
    NoDup names /\
    vcount g = length names + length new /\
    is_directed g = directed /\
    vertex_attributes g = grown_columns cols names vertex_name_attr new /\
    (forall k, edge_attributes g !! k = column_opt k edges) /\
    length (edge_list g) = length edges /\
    Forall2 (resolved efk_src efk_dest (names ++ new)) (edge_list g) edges /\
    names ++ new = seen names (edges ≫= endpoint_names efk_src efk_dest).
Proof.
  intros Hcall.
  destruct (DictList_cases vertices edges directed vertex_name_attr efk_src efk_dest
              iterative) as (cols & _ & Hcols & Hcases).
  simpl in Hcases. rewrite Hcall in Hcases.
  destruct (cols !! vertex_name_attr) as [names|] eqn:Hnames; [|done].
  destruct (has_duplicates names) eqn:Hdup; [done |].
  apply has_duplicates_false in Hdup.
  destruct Hcases as [(k & ? & _) | (new & el & ecols & Hg & Hecols & Hlen & Hres & Hseen & _)];
    [done |].
  injection Hg as ->. exists cols, names, new. by split_and!.
Qed.

Lemma column_of_lookup k records i r :
  records !! i = Some r -> column_of k records !! i = Some (default PNone (r !! k)).
Proof. intros Hr. unfold column_of. by rewrite list_lookup_fmap, Hr. Qed.

Lemma column_opt_present k records i r v :
  records !! i = Some r -> r !! k = Some v ->
  exists col, column_opt k records = Some col /\ col !! i = Some v.
Proof.
  intros Hr Hv. exists (column_of k records). split.
  - unfold column_opt. rewrite decide_True; [done |].
    apply Exists_exists. exists r. split; [by eapply list_elem_of_lookup_2 | by eexists].
  - by rewrite (column_of_lookup _ _ _ _ Hr), Hv.
Qed.

Lemma column_opt_Some k records col :
  column_opt k records = Some col ->
  col = column_of k records /\ exists r, r ∈ records /\ is_Some (r !! k).
Proof.
  unfold column_opt. case_decide as Hex; [|done]. intros [= <-].
  split; [done |]. by apply Exists_exists in Hex.
Qed.

(** ** Community comparison *)

Section swapping.
Context {A : Type}.
Implicit Types l : list A.

Lemma swap_items_ok l i n :
  i < length l -> n < length l -> swap_items l i n = Ok (swapped l i n).
Proof.
  intros Hi Hn. unfold swap_items, swapped.
  destruct (lookup_lt_is_Some_2 l n Hn) as [y Hy].
  destruct (lookup_lt_is_Some_2 l i Hi) as [x Hx].
  by rewrite (lookup_or_Some _ _ _ _ Hy), (lookup_or_Some _ _ _ _ Hx), Hy, Hx.
Qed.

Lemma length_swapped l i n : length (swapped l i n) = length l.
Proof.
  unfold swapped. destruct (l !! n), (l !! i); try done.
  by rewrite !length_insert.
Qed.

Lemma length_swap_out idxs : forall l n, length (swap_out l n idxs) = length l.
Proof.
  induction idxs as [|i rest IH]; intros l n; simpl; [done |].
  by rewrite IH, length_swapped.
Qed.

Lemma descending_below_le n m idxs :
  n <= m -> descending_below n idxs -> descending_below m idxs.
Proof. destruct idxs as [|i rest]; simpl; [done |]. intros ? [? ?]. split; [lia | done]. Qed.

Lemma descending_below_Forall n idxs :
  descending_below n idxs -> Forall (fun j => j < n) idxs.
Proof.
  revert n. induction idxs as [|i rest IH]; intros n; simpl; [constructor |].
  intros [Hi Hrest]. constructor; [done |].
  eapply Forall_impl; [by apply IH |]. simpl. lia.
Qed.

Lemma descending_below_length n idxs : descending_below n idxs -> length idxs <= n.
Proof.
  revert n. induction idxs as [|i rest IH]; intros n; simpl; [lia |].
  intros [Hi Hrest]. apply IH in Hrest. lia.
Qed.

Lemma omit_from_nil i l : omit_from i [] l = l.
Proof.
  revert i. induction l as [|x l IH]; intros i; cbn [omit_from]; [done |].
  rewrite IH. case_decide as Hin; [| done]. by apply elem_of_nil in Hin.
Qed.

Lemma omit_from_app i idxs l1 l2 :
  omit_from i idxs (l1 ++ l2) =
    omit_from i idxs l1 ++ omit_from (i + length l1) idxs l2.
Proof.
  revert i. induction l1 as [|x l1 IH]; intros i; simpl.
  - by rewrite Nat.add_0_r.
  - rewrite IH. replace (S i + length l1) with (i + S (length l1)) by lia.
    by destruct (decide (i ∈ idxs)).
Qed.

Lemma omit_from_below i idxs l :
  Forall (fun j => j < i) idxs -> omit_from i idxs l = l.
Proof.
  revert i. induction l as [|x l IH]; intros i Hall; simpl; [done |].
  rewrite decide_False.
  - rewrite IH; [done |]. eapply Forall_impl; [done |]. simpl. lia.
  - intros Hin. rewrite Forall_forall in Hall. apply Hall in Hin. lia.
Qed.

Lemma omit_from_cons_ge i r idxs l :
  i + length l <= r -> omit_from i (r :: idxs) l = omit_from i idxs l.
Proof.
  revert i. induction l as [|x l IH]; intros i Hr; simpl in *; [done |].
  rewrite IH by lia.
  destruct (decide (i ∈ r :: idxs)) as [Hin|Hnin], (decide (i ∈ idxs)) as [Hin'|Hnin'];
    try done.
  - apply elem_of_cons in Hin as [->|?]; [lia | done].
  - exfalso. apply Hnin. by right.
Qed.

Lemma omit_from_filter (P : A -> Prop) `{!forall x, Decision (P x)} i idxs l :
  (forall k x, l !! k = Some x -> (i + k ∈ idxs <-> ~ P x)) ->
  omit_from i idxs l = filter P l.
Proof.
  revert i. induction l as [|x l IH]; intros i Hspec; simpl; [done |].
  assert (omit_from (S i) idxs l = filter P l) as Hrest.
  { apply IH. intros k y Hk. rewrite <- (Hspec (S k) y Hk).
    by replace (S i + k) with (i + S k) by lia. }
  pose proof (Hspec 0 x eq_refl) as H0. rewrite Nat.add_0_r in H0.
  rewrite Hrest. destruct (decide (i ∈ idxs)) as [Hin|Hnin].
  - rewrite filter_cons_False; [done |]. by apply H0.
  - rewrite filter_cons_True; [done |]. destruct (decide (P x)); [done |].
    exfalso. by apply Hnin, H0.
Qed.

Lemma omit_from_snoc i idxs l y :
  omit_from i idxs (l ++ [y]) =
    omit_from i idxs l ++ (if decide (i + length l ∈ idxs) then [] else [y]).
Proof. rewrite omit_from_app. cbn [omit_from]. by case_decide. Qed.

Lemma omit_from_hit r idxs x l :
  Forall (fun j => j < r) idxs -> omit_from r (r :: idxs) (x :: l) = l.
Proof.
  intros Hbelow. cbn [omit_from]. rewrite decide_True by (by left).
  apply omit_from_below. constructor; [lia |].
  eapply Forall_impl; [done |]. simpl. lia.
Qed.

(** Swapping the listed positions to the end and cutting the end off keeps
    the members at the other positions, possibly in another order. *)
Lemma swap_out_kept idxs :
  forall l n,
    n <= length l -> descending_below n idxs ->
    take (n - length idxs) (swap_out l n idxs) ≡ₚ omit_from 0 idxs (take n l).
Proof.
  induction idxs as [|r rest IH]; intros l n Hn Hdesc; simpl.
  - by rewrite Nat.sub_0_r, omit_from_nil.
  - destruct Hdesc as [Hr Hrest].
    assert (descending_below (n - 1) rest) as Hrest'
      by (eapply descending_below_le; [| done]; lia).
    replace (n - S (length rest)) with (n - 1 - length rest) by lia.
    rewrite IH; [| rewrite length_swapped; lia | done].
    destruct (lookup_lt_is_Some_2 l (n - 1)) as [y Hy]; [lia |].
    destruct (lookup_lt_is_Some_2 l r) as [x Hx]; [lia |].
    unfold swapped. rewrite Hy, Hx.
    rewrite take_insert_ge by lia.
    assert (take n l = take (n - 1) l ++ [y]) as ->.
    { replace n with (S (n - 1)) at 1 by lia. by apply take_S_r. }
    pose proof (descending_below_Forall _ _ Hrest) as Hbelow.
    set (T := take (n - 1) l).
    assert (length T = n - 1) as HT by (apply length_take_le; lia).
    rewrite omit_from_snoc, HT. simpl.
    destruct (decide (r = n - 1)) as [->|Hne].
    + rewrite list_insert_id by done. fold T.
      rewrite decide_True by (by left).
      rewrite omit_from_cons_ge by lia.
      by rewrite app_nil_r.
    + rewrite decide_False.
      2:{ intros Hin. apply elem_of_cons in Hin as [?|Hin]; [lia |].
          rewrite Forall_forall in Hbelow. apply Hbelow in Hin. lia. }
      rewrite take_insert_lt by lia. fold T.
      assert (T !! r = Some x) as Hx'
        by (unfold T; rewrite lookup_take_lt by lia; done).
      pose proof (take_drop_middle T r x Hx') as Hsplit.
      assert (length (take r T) = r) as HA by (apply length_take_le; lia).
      rewrite <- Hsplit.
      assert (<[r := y]> (take r T ++ x :: drop (S r) T)
              = take r T ++ y :: drop (S r) T) as ->.
      { rewrite insert_app_r_alt by lia. by rewrite HA, Nat.sub_diag. }
      rewrite !(omit_from_app 0), HA. simpl (0 + r).
      rewrite omit_from_hit by done.
      rewrite (omit_from_below r) by done.
      rewrite omit_from_cons_ge by lia.
      rewrite <- !app_assoc. apply Permutation_app_head.
      apply Permutation_cons_append.
Qed.

End swapping.

Lemma swapped_zip {A B : Type} (a : list A) (b : list B) i n :
  length a = length b ->
  swapped (zip a b) i n = zip (swapped a i n) (swapped b i n).
Proof.
  intros Hlen. unfold swapped. rewrite !lookup_zip_with.
  destruct (a !! n) as [an|] eqn:Han; simpl.
  - destruct (lookup_lt_is_Some_2 b n) as [bn Hbn].
    { rewrite <- Hlen. by eapply lookup_lt_Some. }
    rewrite Hbn. simpl.
    destruct (a !! i) as [ai|] eqn:Hai; simpl.
    + destruct (lookup_lt_is_Some_2 b i) as [bi Hbi].
      { rewrite <- Hlen. by eapply lookup_lt_Some. }
      rewrite Hbi. simpl. by rewrite !insert_zip_with.
    + apply lookup_ge_None_1 in Hai. rewrite Hlen in Hai.
      apply lookup_ge_None_2 in Hai. by rewrite Hai.
  - apply lookup_ge_None_1 in Han. rewrite Hlen in Han.
    apply lookup_ge_None_2 in Han. by rewrite Han.
Qed.

Lemma swap_out_zip {A B : Type} idxs :
  forall (a : list A) (b : list B) n,
    length a = length b ->
    swap_out (zip a b) n idxs = zip (swap_out a n idxs) (swap_out b n idxs).
Proof.
  induction idxs as [|i rest IH]; intros a b n Hlen; simpl; [done |].
  rewrite swapped_zip by done. apply IH. by rewrite !length_swapped.
Qed.

Lemma foldM_remove_step idxs :
  forall vec1 vec2 n,
    length vec1 = length vec2 -> n <= length vec1 -> descending_below n idxs ->
    foldM remove_step (vec1, vec2, n) idxs =
      Ok (swap_out vec1 n idxs, swap_out vec2 n idxs, n - length idxs).
Proof.
  induction idxs as [|i rest IH]; intros vec1 vec2 n Hlen Hn Hdesc; simpl.
  - by rewrite Nat.sub_0_r.
  - destruct Hdesc as [Hi Hrest].
    rewrite !swap_items_ok by lia. simpl.
    rewrite IH; rewrite ?length_swapped; try lia.
    + do 2 f_equal. lia.
    + eapply descending_below_le; [| done]. lia.
Qed.

Lemma descending_below_filter (P : nat -> Prop) `{!forall i, Decision (P i)} n :
  descending_below n (reverse (filter P (seq 0 n))).
Proof.
  induction n as [|n IH]; [done |].
  rewrite seq_S, filter_app, reverse_app.
  rewrite filter_cons, filter_nil. destruct (decide (P (0 + n))).
  - rewrite reverse_singleton. simpl. split; [lia | done].
  - rewrite reverse_nil. simpl. eapply descending_below_le; [| done]. lia.
Qed.

Lemma filter_all {A : Type} (P : A -> Prop) `{!forall x, Decision (P x)} (l : list A) :
  Forall P l -> filter P l = l.
Proof.
  induction 1 as [|x l Hx Hl IH]; [done |].
  by rewrite filter_cons_True, IH.
Qed.

Lemma both_known_zip (vec1 vec2 : list pyval) :
  PNone ∉ vec1 -> PNone ∉ vec2 -> Forall both_known (zip vec1 vec2).
Proof.
  intros H1 H2. apply Forall_forall. intros [a b] Hin.
  pose proof (elem_of_zip_l _ _ _ _ Hin). pose proof (elem_of_zip_r _ _ _ _ Hin).
  split; simpl; congruence.
Qed.

Lemma zip_known_notin (vec1 vec2 : list pyval) :
  length vec1 = length vec2 -> Forall both_known (zip vec1 vec2) ->
  (PNone ∉ vec1) /\ (PNone ∉ vec2).
Proof.
  intros Hlen Hall. rewrite Forall_forall in Hall. split; intros Hin.
  - apply list_elem_of_lookup in Hin as [i Hi].
    destruct (lookup_lt_is_Some_2 vec2 i) as [b Hb].
    { rewrite <- Hlen. by eapply lookup_lt_Some. }
    assert ((PNone, b) ∈ zip vec1 vec2) as Hz.
    { apply list_elem_of_lookup. exists i. rewrite lookup_zip_with, Hi, Hb. done. }
    by destruct (Hall _ Hz).
  - apply list_elem_of_lookup in Hin as [i Hi].
    destruct (lookup_lt_is_Some_2 vec1 i) as [a Ha].
    { rewrite Hlen. by eapply lookup_lt_Some. }
    assert ((a, PNone) ∈ zip vec1 vec2) as Hz.
    { apply list_elem_of_lookup. exists i. rewrite lookup_zip_with, Ha, Hi. done. }
    by destruct (Hall _ Hz).
Qed.

(** What the removal loop leaves, whether or not the guard of line 2753
    lets it run. *)
Lemma removal_loop_result comm1 comm2 :
  length comm1 = length comm2 ->
  exists vec1 vec2,
    _prepare_community_comparison comm1 comm2 true = Ok (vec1, vec2) /\
    length vec1 = length vec2 /\
    zip vec1 vec2 ≡ₚ filter both_known (zip comm1 comm2).
Proof.
  intros Hlen. unfold _prepare_community_comparison.
  rewrite (proj2 (Nat.eqb_eq _ _) Hlen). simpl.
  destruct (bool_decide (PNone ∈ comm1) || bool_decide (PNone ∈ comm2)) eqn:Hnone.
  - set (idxs := reverse (filter
             (fun i => Is_true (is_None_at comm1 i || is_None_at comm2 i))
             (seq 0 (length comm1)))).
    assert (descending_below (length comm1) idxs) as Hdesc
      by apply descending_below_filter.
    rewrite foldM_remove_step by done. simpl.
    eexists _, _. split; [done |]. split.
    { by rewrite !length_take, !length_swap_out, Hlen. }
    rewrite <- zip_with_take, <- swap_out_zip by done.
    assert (length (zip comm1 comm2) = length comm1) as Hz.
    { rewrite length_zip_with. lia. }
    rewrite swap_out_kept; [| lia | done].
    rewrite <- Hz, firstn_all.
    apply reflexive_eq, omit_from_filter.
    intros k [a b] Hk. simpl.
    apply lookup_zip_with_Some in Hk as (a' & b' & [= <- <-] & Ha & Hb).
    unfold idxs. rewrite elem_of_reverse, list_elem_of_filter, elem_of_seq.
    unfold is_None_at. rewrite orb_True, !bool_decide_spec, Ha, Hb.
    unfold both_known. simpl. apply lookup_lt_Some in Ha.
    split.
    + intros [[[= ->]|[= ->]] _] [? ?]; done.
    + intros Hnot. split; [| lia].
      destruct (decide (a = PNone)) as [->|?]; [by left |].
      destruct (decide (b = PNone)) as [->|?]; [by right |].
      exfalso. by apply Hnot.
  - apply orb_false_iff in Hnone as [H1 H2].
    apply bool_decide_eq_false in H1, H2.
    eexists _, _. split; [done |]. split; [done |].
    by rewrite filter_all by (by apply both_known_zip).
Qed.

(** ** The adjacency matrix *)

Section adjacency.

Lemma bind_Ok_r {A : Type} (m : res A) : (x ← m; Ok x) = m.
Proof. by destruct m. Qed.

Lemma cell_replicate n default i j :
  i < n -> j < n -> cell (replicate n (replicate n default)) i j = Some default.
Proof.
  intros Hi Hj. unfold cell.
  rewrite lookup_replicate_2 by done. simpl. by apply lookup_replicate_2.
Qed.

Lemma square_matrix_replicate n default :
  square_matrix n (replicate n (replicate n default)).
Proof.
  split; [apply length_replicate |].
  apply Forall_replicate, length_replicate.
Qed.

Lemma set_cell_spec n data i j v :
  square_matrix n data -> i < n -> j < n ->
  exists data',
    set_cell data i j v = Ok data' /\ square_matrix n data' /\
    forall a b, cell data' a b =
                  if decide ((a, b) = (i, j)) then Some v else cell data a b.
Proof.
  intros [Hlen Hrows] Hi Hj. unfold set_cell.
  destruct (lookup_lt_is_Some_2 data i) as [row Hrow]; [lia |].
  rewrite (lookup_or_Some _ _ _ _ Hrow). simpl.
  assert (length row = n) as Hn.
  { rewrite Forall_forall in Hrows. eapply Hrows, list_elem_of_lookup_2, Hrow. }
  rewrite (proj2 (Nat.ltb_lt _ _)) by lia.
  eexists. split; [done |]. split.
  - split; [by rewrite length_insert |].
    apply Forall_insert; [done |]. by rewrite length_insert.
  - intros a b. unfold cell. case_decide as Hab.
    + injection Hab as -> ->. rewrite list_lookup_insert_eq by lia. simpl.
      apply list_lookup_insert_eq. lia.
    + destruct (decide (a = i)) as [->|Hne].
      * rewrite list_lookup_insert_eq by lia. simpl. rewrite Hrow. simpl.
        apply list_lookup_insert_ne. congruence.
      * by rewrite list_lookup_insert_ne.
Qed.

(** Writing one value to a list of cells. *)
Lemma set_cells_spec n v cells :
  forall data,
    square_matrix n data -> Forall (fun c => c.1 < n /\ c.2 < n) cells ->
    exists data',
      foldM (fun data c => set_cell data c.1 c.2 v) data cells = Ok data' /\
      square_matrix n data' /\
      forall a b, cell data' a b =
                    if decide ((a, b) ∈ cells) then Some v else cell data a b.
Proof.
  induction cells as [|[i j] cells IH]; intros data Hsq Hcells; simpl.
  - exists data. split; [done |]. split; [done |]. intros a b.
    by destruct (decide ((a, b) ∈ [])) as [Hin%elem_of_nil|].
  - apply Forall_cons in Hcells as [[Hi Hj] Hcells]. simpl in Hi, Hj.
    destruct (set_cell_spec n data i j v Hsq Hi Hj) as (data1 & -> & Hsq1 & Hc1).
    simpl. destruct (IH data1 Hsq1 Hcells) as (data2 & -> & Hsq2 & Hc2).
    exists data2. split; [done |]. split; [done |]. intros a b.
    rewrite Hc2, Hc1.
    destruct (decide ((a, b) ∈ cells)) as [Hin|Hnin].
    + rewrite decide_True; [done | by right].
    + destruct (decide ((a, b) = (i, j))) as [->|Hne].
      * rewrite decide_True; [done | by left].
      * rewrite decide_False; [done |].
        intros Hin. apply elem_of_cons in Hin as [?|?]; done.
Qed.

Variable n : nat.
Variable column : list pyval.
Variable cells : nat * nat -> list (nat * nat).
Variable body : matrix -> nat -> nat * nat -> res matrix.

Hypothesis body_cells : forall data idx edge,
  body data idx edge =
    (v ← lookup_or IndexError column idx;
     foldM (fun data c => set_cell data c.1 c.2 v) data (cells edge)).

(** The loop over the edges: each cell holds the value of the last edge
    written to it. *)
Lemma edge_loop_spec edges :
  forall k data,
    square_matrix n data ->
    Forall (fun e => Forall (fun c => c.1 < n /\ c.2 < n) (cells e)) edges ->
    k + length edges <= length column ->
    exists data',
      foldM (fun st ie => body st ie.1 ie.2) data (zip (seq k (length edges)) edges)
        = Ok data' /\
      square_matrix n data' /\
      (forall i j,
         (forall e, e ∈ edges -> (i, j) ∉ cells e) -> cell data' i j = cell data i j) /\
      (forall i j p e,
         edges !! p = Some e -> (i, j) ∈ cells e ->
         (forall q e', p < q -> edges !! q = Some e' -> (i, j) ∉ cells e') ->
         cell data' i j = column !! (k + p)).
Proof.
  induction edges as [|e edges IH]; intros k data Hsq Hall Hk; simpl.
  - exists data. split; [done |]. split; [done |]. split; [done |].
    intros i j p e Hp. done.
  - apply Forall_cons in Hall as [He Hall]. simpl in Hk.
    rewrite body_cells.
    destruct (lookup_lt_is_Some_2 column k) as [v Hv]; [lia |].
    rewrite (lookup_or_Some _ _ _ _ Hv). simpl.
    destruct (set_cells_spec n v (cells e) data Hsq He) as (data1 & -> & Hsq1 & Hc1).
    simpl.
    destruct (IH (S k) data1 Hsq1 Hall) as (data2 & -> & Hsq2 & Hnone & Hlast); [lia |].
    exists data2. split; [done |]. split; [done |]. split.
    + intros i j Hno. rewrite Hnone.
      * rewrite Hc1, decide_False; [done |]. apply Hno. by left.
      * intros e' He'. apply Hno. by right.
    + intros i j p e0 Hp Hin Hlater. destruct p as [|p]; simpl in Hp.
      * injection Hp as <-. rewrite Nat.add_0_r, Hnone.
        -- by rewrite Hc1, decide_True.
        -- intros e' He'. apply list_elem_of_lookup_1 in He' as [q Hq].
           apply (Hlater (S q)); [lia | done].
      * rewrite (Hlast i j p e0 Hp Hin).
        -- f_equal. lia.
        -- intros q e' Hq He'. apply (Hlater (S q)); [lia | done].
Qed.

End adjacency.

Lemma adjacency_cells_below directed t n e :
  e.1 < n /\ e.2 < n ->
  Forall (fun c => c.1 < n /\ c.2 < n) (adjacency_cells directed t e).
Proof.
  intros [H1 H2]. unfold adjacency_cells.
  destruct directed; [| destruct t]; repeat constructor; simpl; lia.
Qed.

(** With an edge attribute the method fills a square matrix in which every
    cell holds the value of the last edge written to it. *)
Lemma get_adjacency_spec base g t name default column :
  edge_attributes g !! name = Some column ->
  adjacency_ready g column ->
  exists data,
    get_adjacency base g (AdjType t) (AdjName name) default = Ok data /\
    square_matrix (vcount g) data /\
    (forall i j,
       i < vcount g -> j < vcount g ->
       (forall e, e ∈ edge_list g -> ~ writes_to (is_directed g) t i j e) ->
       cell data i j = Some default) /\
    (forall i j p e,
       edge_list g !! p = Some e -> writes_to (is_directed g) t i j e ->
       (forall q e', p < q -> edge_list g !! q = Some e' ->
                     ~ writes_to (is_directed g) t i j e') ->
       cell data i j = column !! p).
Proof.
  intros Hcol [Hends Hlen]. unfold get_adjacency. rewrite Hcol.
  unfold for_each_edge, writes_to.
  set (data0 := replicate (vcount g) (replicate (vcount g) default)).
  assert (Forall (fun e => Forall (fun c => c.1 < vcount g /\ c.2 < vcount g)
                             (adjacency_cells (is_directed g) t e)) (edge_list g))
    as Hcells.
  { eapply Forall_impl; [exact Hends |]. intros e He.
    by apply adjacency_cells_below. }
  assert (forall body,
    (forall data idx edge,
       body data idx edge =
         (v ← lookup_or IndexError column idx;
          foldM (fun data c => set_cell data c.1 c.2 v) data
            (adjacency_cells (is_directed g) t edge))) ->
    exists data,
      foldM (fun st ie => body st ie.1 ie.2) data0
        (zip (seq 0 (ecount g)) (edge_list g)) = Ok data /\
      square_matrix (vcount g) data /\
      (forall i j,
         i < vcount g -> j < vcount g ->
         (forall e, e ∈ edge_list g -> (i, j) ∉ adjacency_cells (is_directed g) t e) ->
         cell data i j = Some default) /\
      (forall i j p e,
         edge_list g !! p = Some e -> (i, j) ∈ adjacency_cells (is_directed g) t e ->
         (forall q e', p < q -> edge_list g !! q = Some e' ->
                       (i, j) ∉ adjacency_cells (is_directed g) t e') ->
         cell data i j = column !! p)) as Hloop.
  { intros body Hbody.
    destruct (edge_loop_spec (vcount g) column _ body Hbody (edge_list g) 0 data0)
      as (data & Hrun & Hsq & Hnone & Hlast).
    - apply square_matrix_replicate.
    - done.
    - unfold ecount in Hlen. lia.
    - exists data. split; [exact Hrun |]. split; [done |]. split.
      + intros i j Hi Hj Hno. rewrite Hnone by done. by apply cell_replicate.
      + intros i j p e Hp Hin Hlater. by rewrite (Hlast i j p e Hp Hin Hlater). }
  assert (forall (m : res matrix), (x ← m; Ok x) = m) as Hret by (by intros []).
  unfold adjacency_cells in *.
  destruct (is_directed g); [| destruct t].
  - apply (Hloop (fun data idx edge =>
             v ← lookup_or IndexError column idx; set_cell data edge.1 edge.2 v)).
    intros data idx [s d]. simpl.
    destruct (lookup_or IndexError column idx) as [v|]; simpl; [| done].
    by rewrite Hret.
  - apply (Hloop (fun data idx edge =>
             v ← lookup_or IndexError column idx;
             set_cell data (edge.1 `min` edge.2) (edge.1 `max` edge.2) v)).
    intros data idx [s d]. simpl.
    destruct (lookup_or IndexError column idx) as [v|]; simpl; [| done].
    by rewrite Hret.
  - apply (Hloop (fun data idx edge =>
             v ← lookup_or IndexError column idx;
             set_cell data (edge.1 `max` edge.2) (edge.1 `min` edge.2) v)).
    intros data idx [s d]. simpl.
    destruct (lookup_or IndexError column idx) as [v|]; simpl; [| done].
    by rewrite Hret.
  - apply (Hloop (fun data idx edge =>
             let '(source, target) := edge in
             v ← lookup_or IndexError column idx;
             data ← set_cell data source target v;
             set_cell data target source v)).
    intros data idx [s d]. simpl.
    destruct (lookup_or IndexError column idx) as [v|]; simpl; [| done].
    destruct (set_cell data s d v) as [data1|]; simpl; [| done].
    by rewrite Hret.
Qed.

Section last_write.
Context {A : Type}.
Variable hit : A -> Prop.
Context `{!forall e, Decision (hit e)}.

(** Either no member of a list is hit, or there is a last one that is. *)
Lemma last_hit (l : list A) :
  (forall e, e ∈ l -> ~ hit e) \/
  (exists p e, l !! p = Some e /\ hit e /\
               forall q e', p < q -> l !! q = Some e' -> ~ hit e').
Proof.
  induction l as [|x l IH].
  - left. intros e He. by apply elem_of_nil in He.
  - destruct IH as [Hnone|(p & e & Hp & He & Hlater)].
    + destruct (decide (hit x)) as [Hx|Hx].
      * right. exists 0, x. split; [done |]. split; [done |].
        intros q e' Hq He'. destruct q as [|q]; [lia |]. simpl in He'.
        eapply Hnone, list_elem_of_lookup_2, He'.
      * left. intros e He. apply elem_of_cons in He as [->|He]; [done |].
        by apply Hnone.
    + right. exists (S p), e. split; [done |]. split; [done |].
      intros q e' Hq He'. destruct q as [|q]; [lia |]. simpl in He'.
      apply (Hlater q); [lia | done].
Qed.

End last_write.

(** Two cells written by the same edges hold the same value. *)
Lemma get_adjacency_same_writes base g name default column t1 t2 i1 j1 i2 j2
    data1 data2 :
  edge_attributes g !! name = Some column ->
  adjacency_ready g column ->
  get_adjacency base g (AdjType t1) (AdjName name) default = Ok data1 ->
  get_adjacency base g (AdjType t2) (AdjName name) default = Ok data2 ->
  i1 < vcount g -> j1 < vcount g -> i2 < vcount g -> j2 < vcount g ->
  (forall e, writes_to (is_directed g) t1 i1 j1 e <->
             writes_to (is_directed g) t2 i2 j2 e) ->
  cell data1 i1 j1 = cell data2 i2 j2.
Proof.
  intros Hcol Hready Hrun1 Hrun2 Hi1 Hj1 Hi2 Hj2 Hsame.
  destruct (get_adjacency_spec base g t1 name default column Hcol Hready)
    as (d1 & Hd1 & _ & Hnone1 & Hlast1).
  destruct (get_adjacency_spec base g t2 name default column Hcol Hready)
    as (d2 & Hd2 & _ & Hnone2 & Hlast2).
  rewrite Hrun1 in Hd1. rewrite Hrun2 in Hd2.
  injection Hd1 as <-. injection Hd2 as <-.
  destruct (last_hit (writes_to (is_directed g) t1 i1 j1) (edge_list g))
    as [Hnone|(p & e & Hp & He & Hlater)].
  - rewrite Hnone1, Hnone2; try done.
    intros e He. rewrite <- Hsame. by apply Hnone.
  - rewrite (Hlast1 i1 j1 p e Hp He Hlater).
    rewrite (Hlast2 i2 j2 p e Hp); [done | by apply Hsame |].
    intros q e' Hq He'. rewrite <- Hsame. by eapply Hlater.
Qed.

(** ** [k_core] *)

Lemma core_idxs_filter corenesses idx vidxs :
  Forall (fun v => v < length corenesses) vidxs ->
  core_idxs corenesses idx vidxs =
    Ok (filter (fun v => Is_true (in_core corenesses idx v)) vidxs).
Proof.
  induction 1 as [|v vidxs Hv _ IH]; simpl; [done |].
  destruct (lookup_lt_is_Some_2 corenesses v Hv) as [c Hc].
  rewrite (lookup_or_Some _ _ _ _ Hc), IH. simpl.
  assert (in_core corenesses idx v = (idx <=? c)%Z) as Hin
    by (unfold in_core; by rewrite Hc).
  destruct (idx <=? c)%Z.
  - rewrite filter_cons_True; [done | by rewrite Hin].
  - rewrite filter_cons_False; [done | rewrite Hin; by intros []].
Qed.

Lemma k_core_loop {G : Type} corenesses (subgraph : list nat -> G) indices :
  mapM_res (fun idx => subgraph <$>
              core_idxs corenesses idx (seq 0 (length corenesses))) indices =
    Ok ((fun k => subgraph (core_of corenesses k)) <$> indices).
Proof.
  induction indices as [|k indices IH]; simpl; [done |].
  rewrite core_idxs_filter.
  - simpl. by rewrite IH.
  - apply Forall_forall. intros v Hv. apply elem_of_seq in Hv. lia.
Qed.

(** ** File formats *)

Ltac solve_elem_of :=
  cbn; repeat first [apply list_elem_of_here | apply list_elem_of_further].

Section format_facts.
Variable splitext : string -> string * string.
Variable open : string -> io (list string).

Lemma sniff_cases lines :
  sniff lines = Some "edges" \/ sniff lines = Some "adjacency" \/ sniff lines = None.
Proof.
  unfold sniff.
  destruct (parts (readline lines 0) =? 2)%nat; [| auto].
  destruct (parts (readline lines 1) =? 2)%nat; [| auto].
  destruct (parts (readline lines 2) =? 0)%nat; auto.
Qed.

Lemma identify_format_identifiable f fmt :
  _identify_format splitext open f = Returns (Some fmt) ->
  fmt ∈ identifiable_formats.
Proof.
  unfold _identify_format.
  destruct (match f with FileName name => Some name | FileObject name => name end)
    as [filename|]; [| done].
  destruct (splitext filename) as [root ext].
  destruct (bool_decide (lower ext ∈ format_extensions)) eqn:Hext.
  - apply bool_decide_eq_true in Hext. intros [= <-].
    unfold format_extensions in Hext.
    repeat (apply elem_of_cons in Hext as [Heq|Hext];
            [rewrite Heq; unfold identifiable_formats; solve_elem_of |]).
    by apply elem_of_nil in Hext.
  - destruct (String.eqb (lower ext) ".txt" || String.eqb (lower ext) ".dat");
      [| done].
    destruct (open filename) as [lines|]; [| done].
    destruct (sniff_cases lines) as [-> | [-> | ->]]; intros [= <-];
      unfold identifiable_formats; solve_elem_of.
Qed.

Lemma identifiable_format_methods fmt :
  fmt ∈ identifiable_formats ->
  exists reader writer,
    _format_mapping !! fmt = Some (reader, Some writer) /\
    (reader = None <-> fmt = "dot").
Proof.
  unfold identifiable_formats. intros Hin.
  repeat (apply elem_of_cons in Hin as [->|Hin];
          [eexists _, _; split; [vm_compute; reflexivity |];
           split; intros [=]; done |]).
  by apply elem_of_nil in Hin.
Qed.

End format_facts.

(** ** The constructor and pickling *)

Lemma foldl_insert_items {V : Type} (m : gmap string V) :
  foldl (fun acc kv => <[kv.1 := kv.2]> acc) ∅ (map_to_list m) = m.
Proof.
  change (foldl (upsert (fun _ (v : V) _ => v)) ∅ (map_to_list m) = m).
  apply map_eq. intros k. rewrite foldl_upsert_items, lookup_empty.
  by destruct (m !! k).
Qed.

Lemma foldl_insert_ASeq (cols : gmap string (list pyval)) :
  foldl (fun acc kv => <[kv.1 := ASeq kv.2]> acc) ∅ (map_to_list cols) = ASeq <$> cols.
Proof.
  change (foldl (upsert (fun _ (v : list pyval) _ => ASeq v)) ∅ (map_to_list cols)
          = ASeq <$> cols).
  apply map_eq. intros k. rewrite foldl_upsert_items, lookup_empty, lookup_fmap.
  by destruct (cols !! k).
Qed.

Lemma foldl_upsert_columns (cols : gmap string (list pyval)) :
  foldl (upsert (fun _ (v : assigned) _ => column_of_assigned v)) ∅
    (map_to_list (ASeq <$> cols)) = cols.
Proof.
  apply map_eq. intros k. rewrite foldl_upsert_items, lookup_empty, lookup_fmap.
  by destruct (cols !! k).
Qed.

Lemma vs_setitem_columns g (cols : gmap string (list pyval)) :
  vertex_attributes g = ∅ ->
  columns_sized cols (vcount g) ->
  foldM (fun g kv => vs_setitem g kv.1 kv.2) g (map_to_list (ASeq <$> cols)) =
    Ok (with_vertex_attributes g cols).
Proof.
  intros Hempty Hcols.
  destruct (foldM_pure
              (fun g' => vcount g' = vcount g /\
                         columns_sized (vertex_attributes g') (vcount g))
              (fun g kv => vs_setitem g kv.1 kv.2)
              (fun g' kv => with_vertex_attributes g'
                 (upsert (fun _ v _ => column_of_assigned v) (vertex_attributes g') kv))
              (map_to_list (ASeq <$> cols)) g) as [-> _].
  - split; [done |]. intros k col. by rewrite Hempty, lookup_empty.
  - intros g' [k v] [Hvc Hsized] Hin. apply elem_of_map_to_list in Hin.
    rewrite lookup_fmap in Hin.
    destruct (cols !! k) as [col|] eqn:Hk; [| done]. injection Hin as <-.
    simpl. rewrite vs_setitem_exact; [| by rewrite Hvc | rewrite Hvc; by eapply Hcols].
    split; [done |]. split; [done |]. simpl.
    apply columns_sized_insert; [done | by eapply Hcols].
  - rewrite foldl_with_vertex_attributes, Hempty. by rewrite foldl_upsert_columns.
Qed.

Lemma es_setitem_columns g (cols : gmap string (list pyval)) :
  edge_attributes g = ∅ ->
  columns_sized cols (ecount g) ->
  foldM (fun g kv => es_setitem g kv.1 kv.2) g (map_to_list (ASeq <$> cols)) =
    Ok (with_edge_attributes g cols).
Proof.
  intros Hempty Hcols.
  destruct (foldM_pure
              (fun g' => edge_list g' = edge_list g /\
                         columns_sized (edge_attributes g') (ecount g))
              (fun g kv => es_setitem g kv.1 kv.2)
              (fun g' kv => with_edge_attributes g'
                 (upsert (fun _ v _ => column_of_assigned v) (edge_attributes g') kv))
              (map_to_list (ASeq <$> cols)) g) as [-> _].
  - split; [done |]. intros k col. by rewrite Hempty, lookup_empty.
  - intros g' [k v] [Hel Hsized] Hin. apply elem_of_map_to_list in Hin.
    rewrite lookup_fmap in Hin.
    destruct (cols !! k) as [col|] eqn:Hk; [| done]. injection Hin as <-.
    assert (ecount g' = ecount g) as Hec by (unfold ecount; by rewrite Hel).
    simpl. rewrite es_setitem_exact; [| by rewrite Hec | rewrite Hec; by eapply Hcols].
    split; [done |]. split; [done |]. simpl.
    apply columns_sized_insert; [done | by eapply Hcols].
  - rewrite foldl_with_edge_attributes, Hempty. by rewrite foldl_upsert_columns.
Qed.

(** The keyword loop only reads the six keywords of [kwd_order]. *)
Lemma init_params_keywords args (kwds kwds' : gmap string init_arg) :
  (forall k, k ∈ kwd_order -> kwds !! k = kwds' !! k) ->
  init_params args kwds = init_params args kwds'.
Proof.
  intros Hsame. unfold init_params.
  generalize (match args with ArgList _ :: _ => ArgInt 1 :: args | _ => args end ++
              drop (length match args with ArgList _ :: _ => ArgInt 1 :: args | _ => args end)
                [ArgInt 1; ArgList []; ArgBool false; ArgDict ∅; ArgDict ∅; ArgDict ∅]).
  intros params.
  assert (forall ik, ik ∈ zip (seq 0 (length kwd_order)) kwd_order -> ik.2 ∈ kwd_order)
    as Hkeys.
  { intros [i k] Hin. by apply elem_of_zip_r in Hin. }
  revert params Hkeys.
  induction (zip (seq 0 (length kwd_order)) kwd_order) as [|ik l IH];
    intros params Hkeys; simpl; [done |].
  unfold override at 2 4. rewrite (Hsame ik.2) by (apply Hkeys; by left).
  apply IH. intros ik' Hin. apply Hkeys. by right.
Qed.

Lemma length_override kwds params ik :
  length (override kwds params ik) = length params.
Proof. unfold override. destruct (kwds !! ik.2); [apply length_insert | done]. Qed.

Lemma length_foldl_override kwds l :
  forall params, length (foldl (override kwds) params l) = length params.
Proof.
  induction l as [|ik l IH]; intros params; simpl; [done |].
  by rewrite IH, length_override.
Qed.

Lemma foldl_override_other kwds l i :
  forall params, i ∉ l.*1 -> foldl (override kwds) params l !! i = params !! i.
Proof.
  induction l as [|[j k] l IH]; intros params Hi; simpl; [done |].
  rewrite fmap_cons, not_elem_of_cons in Hi. destruct Hi as [Hne Hi]. simpl in Hne.
  rewrite IH by done. unfold override. simpl.
  destruct (kwds !! k); [by apply list_lookup_insert_ne | done].
Qed.

Lemma foldl_override_lookup kwds l i k :
  forall params,
    NoDup l.*1 -> (i, k) ∈ l -> i < length params ->
    foldl (override kwds) params l !! i =
      match kwds !! k with
      | Some v => Some v
      | None => params !! i
      end.
Proof.
  induction l as [|[j k'] l IH]; intros params Hnd Hin Hi; simpl.
  - by apply elem_of_nil in Hin.
  - rewrite fmap_cons in Hnd. apply NoDup_cons in Hnd as [Hj Hnd]. simpl in Hj.
    apply elem_of_cons in Hin as [[= <- <-]|Hin].
    + rewrite foldl_override_other by done. unfold override. simpl.
      destruct (kwds !! k); [by apply list_lookup_insert_eq | done].
    + rewrite IH; [| done | done | by rewrite length_override].
      destruct (kwds !! k) as [v|]; [done |].
      unfold override. simpl.
      destruct (kwds !! k'); [| done].
      apply list_lookup_insert_ne. intros ->.
      apply Hj, list_elem_of_fmap. by exists (i, k).
Qed.

(** ** Further facts on [select] *)

Section more_selectors.
Variable methods : engine.
Variable g : Graph.

Lemma within_one_set es keyword p c :
  parse_keyword keyword = Ok p -> pred_attr p = "_within" ->
  Forall (fun e => e < ecount g) es ->
  EdgeSeq_select methods g es [(keyword, OColl c)] =
    Ok (filter (fun e => Is_true (edge_test g (within c) e)) es).
Proof.
  intros Hp Hattr Hes. unfold EdgeSeq_select, core_select. simpl.
  rewrite Hp. simpl. rewrite Hattr. simpl.
  destruct (ensure_set_collection c) as (s & -> & Hs). simpl.
  pose proof (select_edges_filter g (fun a b => in_set s a && in_set s b) es Hes)
    as Hsel.
  destruct (filter_edges_from 0 g _ es) as [idxs|]; simpl in *; [|done].
  rewrite Hsel. simpl. f_equal. apply list_filter_iff. intros e.
  unfold edge_test, within. destruct (edge_list g !! e) as [[a b]|]; [|done].
  simpl. by rewrite !Hs.
Qed.

Lemma operators_membership op func :
  operators op = Some func -> is_in_or_notin op = false ->
  func <> OpIn /\ func <> OpNotin.
Proof.
  unfold operators, is_in_or_notin. intros Hop Hin.
  apply orb_false_iff in Hin as [Hin Hnotin].
  rewrite Hin, Hnotin in Hop.
  repeat match type of Hop with
         | (if ?b then _ else _) = _ => destruct b; [by injection Hop as <- |]
         end.
  done.
Qed.

Lemma apply_operator_int func a z :
  func <> OpIn -> func <> OpNotin ->
  apply_operator func (PInt a) (OVal (PInt z)) = Ok (int_test func a z).
Proof.
  intros Hin Hnotin. destruct func; try done; simpl; f_equal.
  - apply bool_decide_ext, Z.compare_lt_iff.
  - apply bool_decide_ext, Z.compare_gt_iff.
  - apply bool_decide_ext, Z.compare_le_iff.
  - apply bool_decide_ext, Z.compare_ge_iff.
  - apply bool_decide_ext. split; [by intros [= ->] | by intros ->].
  - rewrite <- bool_decide_not. apply bool_decide_ext.
    split; intros Hne; contradict Hne; congruence.
Qed.

Lemma endpoint_compare es (proj : nat * nat -> nat) func z :
  func <> OpIn -> func <> OpNotin ->
  Forall (fun e => e < ecount g) es ->
  (values ← mapM_res (fun e => vertex_id <$>
                         (proj <$> lookup_or IndexError (edge_list g) e)) es;
   idxs ← filter_indices func values (OVal (PInt z));
   select_relative es idxs) =
    Ok (filter (fun e => Is_true (edge_test g
                           (fun a b => int_test func (Z.of_nat (proj (a, b))) z) e)) es).
Proof.
  intros Hin Hnotin Hes.
  destruct (mapM_res_total
              (fun e => vertex_id <$> (proj <$> lookup_or IndexError (edge_list g) e))
              es) as [values Hvalues].
  { eapply Forall_impl; [exact Hes |]. intros e He.
    destruct (lookup_lt_is_Some_2 (edge_list g) e He) as [st Hst].
    eexists. by rewrite (lookup_or_Some _ _ _ _ Hst). }
  rewrite Hvalues. simpl. unfold filter_indices.
  rewrite filter_indices_from_flags, (mapM_res_compose _ _ _ _ Hvalues).
  match goal with
  | |- context [mapM_res ?t es] =>
      destruct (mapM_res_total t es) as [flags Hflags]
  end.
  { eapply Forall_impl; [exact Hes |]. intros e He.
    destruct (lookup_lt_is_Some_2 (edge_list g) e He) as [st Hst].
    rewrite (lookup_or_Some _ _ _ _ Hst). simpl. unfold vertex_id.
    rewrite apply_operator_int by done. by eexists. }
  rewrite Hflags. simpl. rewrite (select_by_flags _ _ _ Hflags). f_equal.
  apply list_filter_iff. intros e. unfold edge_test, lookup_or.
  destruct (edge_list g !! e) as [[a b]|]; simpl; [|done].
  unfold vertex_id. rewrite apply_operator_int by done. simpl.
  by destruct (int_test _ _ _).
Qed.

End more_selectors.

Lemma evaluable_narrow columns (seq r : list nat) kw :
  r ⊆ seq -> evaluable columns seq kw -> evaluable columns r kw.
Proof.
  intros Hsub (Hlit & p & col & Hp & Hcol & Hlen & Hnever).
  split; [done |]. exists p, col. repeat split; try done.
  rewrite Forall_forall in *. intros i Hi. apply Hlen, Hsub, Hi.
Qed.

Section literal_selection.
Variable columns : gmap string (list pyval).
Variable step : list nat -> string * pyobj -> res (list nat).
Hypothesis step_literal : forall seq kw,
  is_literal kw.1 = true ->
  exists p, parse_keyword kw.1 = Ok p /\
            step seq kw = literal_step columns seq (pred_attr p) (pred_func p) kw.2.

Lemma fold_selects kwds seq :
  Forall (evaluable columns seq) kwds ->
  foldM step seq kwds = Ok (filter (fun i => Is_true (passes_all columns kwds i)) seq).
Proof.
  intros Heval.
  destruct (fold_total columns step step_literal kwds seq Heval) as [r Hr].
  rewrite Hr. f_equal.
  apply (fold_filter columns step step_literal kwds seq r); [| done].
  eapply Forall_impl; [exact Heval |]. by intros kw [Hlit _].
Qed.

Lemma fold_idempotent kwds seq r :
  Forall (evaluable columns seq) kwds ->
  foldM step seq kwds = Ok r -> foldM step r kwds = Ok r.
Proof.
  intros Heval Hr. rewrite fold_selects in Hr by done. injection Hr as <-.
  rewrite fold_selects.
  - f_equal. rewrite list_filter_filter. apply list_filter_iff. tauto.
  - eapply Forall_impl; [exact Heval |]. intros kw. apply evaluable_narrow.
    intros i Hi. by apply list_elem_of_filter in Hi as [_ Hi].
Qed.

End literal_selection.

(** ** Further facts on [DictList] *)

Lemma NoDup_seen gen l : NoDup gen -> NoDup (seen gen l).
Proof.
  intros Hgen. induction l as [|x l IH] using rev_ind; [done |].
  rewrite seen_snoc. case_decide as Hin; [done |].
  apply NoDup_app. split; [done |]. split.
  - intros y Hy Hx. apply list_elem_of_singleton in Hx as ->. done.
  - apply NoDup_singleton.
Qed.

Lemma resolved_has_endpoints efk_src efk_dest names e r :
  resolved efk_src efk_dest names e r -> has_endpoints efk_src efk_dest r.
Proof. intros (s & d & Hs & Hd & _). split; by eexists. Qed.

Lemma resolved_below efk_src efk_dest names e r :
  resolved efk_src efk_dest names e r -> e.1 < length names /\ e.2 < length names.
Proof.
  intros (s & d & _ & _ & Hs & Hd). split; by eapply lookup_lt_Some.
Qed.

Lemma initial_column_name vertices vertex_name_attr names :
  initial_column vertices vertex_name_attr vertex_name_attr = Some names ->
  names = column_of vertex_name_attr (records_of vertices).
Proof.
  unfold initial_column. destruct (records_of vertices) as [|r records] eqn:Hrec.
  - rewrite decide_True by done. by intros [= <-].
  - intros Hcol. by apply column_opt_Some in Hcol as [-> _].
Qed.

Lemma initial_column_other vertices vertex_name_attr k :
  k <> vertex_name_attr ->
  initial_column vertices vertex_name_attr k = column_opt k (records_of vertices).
Proof.
  intros Hne. unfold initial_column.
  destruct (records_of vertices) as [|r records]; [| done].
  rewrite decide_False by done. unfold column_opt.
  rewrite decide_False; [done |]. by intros Hex%Exists_nil.
Qed.

Lemma initial_columns_sized vertices vertex_name_attr cols :
  (forall k, cols !! k = initial_column vertices vertex_name_attr k) ->
  columns_sized cols (length (records_of vertices)).
Proof.
  intros Hcols k col Hk. rewrite Hcols in Hk.
  by eapply initial_column_length.
Qed.

(** What a graph returned by [DictList] looks like. *)
Lemma DictList_shape vertices edges directed vertex_name_attr efk_src efk_dest
    iterative g :
  DictList vertices edges directed vertex_name_attr (efk_src, efk_dest) iterative
    = Ok g ->
  exists new,
    let names := column_of vertex_name_attr (records_of vertices) in
    vcount g = length (records_of vertices) + length new /\
    NoDup (names ++ new) /\
    names ++ new = seen names (edges ≫= endpoint_names efk_src efk_dest) /\
    vertex_attributes g !! vertex_name_attr = Some (names ++ new) /\
    (forall k, k <> vertex_name_attr ->
       vertex_attributes g !! k =
         (fun c => c ++ replicate (length new) PNone)
           <$> column_opt k (records_of vertices)) /\
    well_formed g /\
    Forall2 (resolved efk_src efk_dest (names ++ new)) (edge_list g) edges.
Proof.
  intros Hg.
  destruct (DictList_Ok _ _ _ _ _ _ _ _ Hg)
    as (cols & names & new & Hcols & Hnames & Hnd & Hvc & Hdir & Hva & Hea & Hlen
        & Hres & Hseen).
  assert (names = column_of vertex_name_attr (records_of vertices)) as Hn.
  { apply initial_column_name. by rewrite <- Hcols. }
  assert (length names = length (records_of vertices)) as Hln
    by (by rewrite Hn, length_column_of).
  pose proof (initial_columns_sized _ _ _ Hcols) as Hsized.
  exists new. simpl. rewrite <- Hn.
  split; [lia |]. split; [rewrite Hseen; by apply NoDup_seen |].
  split; [done |]. split.
  { rewrite Hva. unfold grown_columns. by rewrite lookup_insert_eq. }
  split.
  { intros k Hk. rewrite Hva. unfold grown_columns.
    rewrite lookup_insert_ne, lookup_fmap, Hcols by done.
    by rewrite initial_column_other. }
  split; [| done].
  split; [| split].
  - rewrite Hva, Hvc, Hln.
    apply (grown_sized cols (length (records_of vertices)) names vertex_name_attr);
      [done | done].
  - intros k col Hk. rewrite Hea in Hk. apply column_opt_length in Hk.
    unfold ecount. lia.
  - unfold endpoints_below. rewrite Hvc, <- length_app.
    clear -Hres. induction Hres as [|e r el rs He _ IH]; constructor; [| done].
    by eapply resolved_below.
Qed.

(** ** Layout names *)

Lemma lower_ascii_idemp c : lower_ascii (lower_ascii c) = lower_ascii c.
Proof.
  unfold lower_ascii.
  destruct ((65 <=? nat_of_ascii c)%nat && (nat_of_ascii c <=? 90)%nat) eqn:Hup.
  - apply andb_true_iff in Hup as [Hlo Hhi].
    apply Nat.leb_le in Hlo, Hhi.
    rewrite nat_ascii_embedding by lia.
    replace ((nat_of_ascii c + 32 <=? 90)%nat) with false
      by (symmetry; apply Nat.leb_gt; lia).
    by rewrite andb_false_r.
  - by rewrite Hup.
Qed.

Lemma lower_idemp s : lower (lower s) = lower s.
Proof. induction s as [|c s IH]; simpl; [done |]. by rewrite lower_ascii_idemp, IH. Qed.

Lemma layout_mapping_methods name method :
  _layout_mapping !! name = Some method ->
  Py.is_prefix "layout_" method = true.
Proof.
  intros Hm. apply elem_of_list_to_map_2 in Hm.
  repeat (apply elem_of_cons in Hm as [[= -> ->]|Hm]; [reflexivity |]).
  by apply elem_of_nil in Hm.
Qed.

(** ** Delegated predicates *)

Section delegated.
Variable methods : engine.
Variable g : Graph.

Lemma filter_flags (seq : list nat) func values value flags :
  mapM_res (fun v => apply_operator func v value) values = Ok flags ->
  length values = length seq ->
  (idxs ← filter_indices func values value; select_relative seq idxs) =
    Ok (keep flags seq).
Proof.
  intros Hflags Hlen. unfold filter_indices.
  rewrite filter_indices_from_flags, Hflags. simpl.
  rewrite select_true_positions_keep, drop_0; [done |].
  apply mapM_res_length in Hflags. simpl. lia.
Qed.

Lemma vertex_method_select seq keyword p name value values flags :
  parse_keyword keyword = Ok p -> pred_attr p = String PyStr.underscore name ->
  call_method methods name g (ArgVertexSeq seq) = Ok values ->
  mapM_res (fun v => apply_operator (pred_func p) v value) values = Ok flags ->
  length values = length seq ->
  VertexSeq_select methods g seq [(keyword, value)] = Ok (keep flags seq).
Proof.
  intros Hp Hattr Hcall Hflags Hlen.
  unfold VertexSeq_select, core_select. simpl. rewrite Hp. simpl.
  rewrite Hattr. simpl. rewrite Hcall. simpl.
  pose proof (filter_flags seq _ _ _ _ Hflags Hlen) as Hsel.
  destruct (filter_indices _ values value) as [idxs|]; simpl in *; [| done].
  by rewrite Hsel.
Qed.

Lemma edge_method_select seq keyword p name value values flags :
  parse_keyword keyword = Ok p -> pred_attr p = String PyStr.underscore name ->
  pred_attr p ∉ structural_names ->
  call_method methods name g (ArgEdgeSeq seq) = Ok values ->
  mapM_res (fun v => apply_operator (pred_func p) v value) values = Ok flags ->
  length values = length seq ->
  EdgeSeq_select methods g seq [(keyword, value)] = Ok (keep flags seq).
Proof.
  intros Hp Hattr Hstruct Hcall Hflags Hlen.
  unfold EdgeSeq_select, core_select. simpl. rewrite Hp. simpl.
  assert (starts_with_underscore (pred_attr p) = Ok true) as ->
    by (by rewrite Hattr).
  simpl. unfold structural_names in Hstruct.
  repeat match goal with
         | |- context [String.eqb (pred_attr p) ?s] =>
             destruct (String.eqb_spec (pred_attr p) s) as [Heq|_];
             [exfalso; apply Hstruct; rewrite Heq; solve_elem_of |]
         end.
  simpl. rewrite Hattr. simpl. rewrite Hcall. simpl.
  pose proof (filter_flags seq _ _ _ _ Hflags Hlen) as Hsel.
  destruct (filter_indices _ values value) as [idxs|]; simpl in *; [| done].
  by rewrite Hsel.
Qed.

Lemma unknown_method_select seq keyword p name value :
  parse_keyword keyword = Ok p -> pred_attr p = String PyStr.underscore name ->
  methods name = None ->
  VertexSeq_select methods g seq [(keyword, value)] = Err (AttributeError name) /\
  (pred_attr p ∉ structural_names ->
   EdgeSeq_select methods g seq [(keyword, value)] = Err (AttributeError name)).
Proof.
  intros Hp Hattr Hnone. split.
  - unfold VertexSeq_select, core_select. simpl. rewrite Hp. simpl.
    rewrite Hattr. simpl. unfold call_method. by rewrite Hnone.
  - intros Hstruct.
    unfold EdgeSeq_select, core_select. simpl. rewrite Hp. simpl.
    assert (starts_with_underscore (pred_attr p) = Ok true) as ->
      by (by rewrite Hattr).
    simpl. unfold structural_names in Hstruct.
    repeat match goal with
           | |- context [String.eqb (pred_attr p) ?s] =>
               destruct (String.eqb_spec (pred_attr p) s) as [Heq|_];
               [exfalso; apply Hstruct; rewrite Heq; solve_elem_of |]
           end.
    simpl. rewrite Hattr. simpl. unfold call_method. by rewrite Hnone.
Qed.

End delegated.

(** ** Looking a vertex up by its name *)



(** ** The two structural predicates on edges *)

Lemma between_comm c1 c2 s t : between c1 c2 s t = between c2 c1 s t.
Proof. unfold between. apply orb_comm. Qed.

Lemma between_same c s t : between c c s t = within c s t.
Proof. unfold between, within. apply orb_diag. Qed.

Lemma filter_edge_test_ext g (test1 test2 : nat -> nat -> bool) (es : list nat) :
  (forall s t, test1 s t = test2 s t) ->
  filter (fun e => Is_true (edge_test g test1 e)) es =
  filter (fun e => Is_true (edge_test g test2 e)) es.
Proof.
  intros Hext. apply list_filter_iff. intros e. unfold edge_test.
  destruct (edge_list g !! e) as [[s t]|]; [| done]. simpl. by rewrite Hext.
Qed.

(** * Main results *)

(** ** The keyword grammar of [select] *)

(** C3.  Every keyword name parses; the attribute and the function are
    either the two sides of a split [attr_tok] at the final underscore
    whose trailing token [tok] is one of the eight operator names (the
    part before it being non-empty), or, when the name admits no such
    split -- no underscore, only the leading underscore, or a trailing
    token that is not an operator -- the whole name with [eq]. *)
Theorem parse_keyword_split (kw : string) :
  exists attr op f,
    parse_keyword kw = Ok (Predicate attr op f) /\
    ((exists tok, kw = attr +:+ "_" +:+ tok /\ attr <> EmptyString /\
                  PyStr.contains PyStr.underscore tok = false /\
                  operators tok = Some f)
     \/ (attr = kw /\ f = OpEq /\ no_operator_split kw)).
Proof.
  destruct (PyStr.rindex PyStr.underscore kw) as [[|p]|] eqn:Hr.
  - (* only the leading underscore *)
    exists kw, "eq", OpEq. split; [apply parse_keyword_default; by right |].
    right. split_and!; [done.. |]. intros a tok Hkw Ha.
    destruct (operators tok) as [f|] eqn:Hop; [|done].
    apply operators_no_underscore in Hop.
    apply rindex_split in Hr as (a' & t' & Hkw' & Hlen & Ht').
    destruct a'; [|done]. rewrite Hkw' in Hkw.
    by destruct (app_inj_tail PyStr.underscore EmptyString t' a tok Ht' Hop Hkw) as [<- _].
  - apply rindex_split in Hr as (a & t & Hkw & Hlen & Ht).
    assert (a <> EmptyString) as Ha by (by destruct a).
    rewrite (parse_keyword_at kw a t Hkw Ha Ht).
    destruct (operators t) as [f|] eqn:Hop.
    + exists a, t, f. split; [done |]. left. by exists t.
    + exists kw, t, OpEq. split; [done |]. right. split_and!; [done.. |].
      intros a' tok Hkw' Ha'.
      destruct (operators tok) as [f|] eqn:Hop'; [|done].
      apply operators_no_underscore in Hop' as Htok.
      rewrite Hkw in Hkw'.
      destruct (app_inj_tail PyStr.underscore a t a' tok Ht Htok Hkw') as [_ <-].
      congruence.
  - (* no underscore at all *)
    apply rindex_None in Hr.
    exists kw, "eq", OpEq. split; [apply parse_keyword_default; by left |].
    right. split_and!; [done.. |]. intros a tok -> _.
    rewrite contains_app in Hr. simpl in Hr. by rewrite orb_true_r in Hr.
Qed.

Example parse_age_gt : parse_keyword "age_gt" = Ok (Predicate "age" "gt" OpGt).
Proof. reflexivity. Qed.
Example parse_cluster : parse_keyword "cluster" = Ok (Predicate "cluster" "eq" OpEq).
Proof. reflexivity. Qed.
Example parse_degree : parse_keyword "_degree" = Ok (Predicate "_degree" "eq" OpEq).
Proof. reflexivity. Qed.
Example parse_first_name :
  parse_keyword "first_name" = Ok (Predicate "first_name" "name" OpEq).
Proof. reflexivity. Qed.
Example parse_lookalike :
  parse_keyword "size_gte" = Ok (Predicate "size_gte" "gte" OpEq).
Proof. reflexivity. Qed.
Example parse_leading_op : parse_keyword "_gt" = Ok (Predicate "_gt" "eq" OpEq).
Proof. reflexivity. Qed.

(** ** Keyword predicates of [select] *)

(** C6.  On an edge sequence, a predicate whose attribute part is
    [_between] -- whatever operator was parsed from the keyword -- given a
    pair of two vertex collections keeps exactly the edges with one endpoint
    in the first and the other endpoint in the second collection, in either
    direction; given a value of any other length it raises the ValueError
    "_between selector requires two vertex ID lists". *)
Theorem select_between methods g es keyword p :
  parse_keyword keyword = Ok p -> pred_attr p = "_between" ->
  (forall c1 c2,
     Forall (fun e => e < ecount g) es ->
     EdgeSeq_select methods g es [(keyword, OTuple [c1; c2])] =
       Ok (filter (fun e => Is_true (edge_test g (between c1 c2) e)) es)) /\
  (forall value n,
     Py.len value = Ok n -> n <> 2 ->
     EdgeSeq_select methods g es [(keyword, value)] =
       Err (ValueError "_between selector requires two vertex ID lists")).
Proof.
  intros Hp Hattr. split.
  - intros c1 c2 Hes. by eapply between_two_sets.
  - intros value n Hlen Hn. by eapply between_wrong_arity.
Qed.

Lemma select_between_witness :
  EdgeSeq_select no_methods square [0; 1; 2; 3]
    [("_between_gt", OTuple [CList [PInt 0]; CList [PInt 1; PInt 2]])] = Ok [0] /\
  EdgeSeq_select no_methods square [0; 1; 2; 3]
    [("_between_gt", OTuple [CList [PInt 0]])] =
    Err (ValueError "_between selector requires two vertex ID lists").
Proof.
  destruct (select_between no_methods square [0; 1; 2; 3] "_between_gt"
              (Predicate "_between" "gt" OpGt) eq_refl eq_refl) as [Htwo Hother].
  split.
  - rewrite Htwo; [reflexivity |]. repeat constructor.
  - apply (Hother _ 1); [reflexivity | lia].
Defined.

(** C10.  A [select] call with keyword predicates only, when it returns,
    returns absolute indices that form an order-preserving subsequence of
    the receiver's: nothing is reordered and nothing is introduced. *)
Theorem select_narrows methods g self kwds r :
  (VertexSeq_select methods g self kwds = Ok r -> sublist r self) /\
  (EdgeSeq_select methods g self kwds = Ok r -> sublist r self).
Proof.
  split.
  - apply foldM_sublist. intros seq kw r' Hstep.
    apply VertexSeq_select_step_positions in Hstep as [flags Hsel].
    by eapply select_positions_sublist.
  - apply foldM_sublist. intros seq kw r' Hstep.
    apply EdgeSeq_select_step_positions in Hstep as [flags Hsel].
    by eapply select_positions_sublist.
Qed.

Lemma select_narrows_witness :
  VertexSeq_select no_methods square [3; 1; 0]
    [("x", OVal (PInt 5)); ("x_in", OColl (CList [PInt 5; PInt 0]))] = Ok [3; 1] /\
  sublist [3; 1] [3; 1; 0] /\
  EdgeSeq_select no_methods square [2; 0; 3]
    [("_within", OColl (CList [PInt 0; PInt 1; PInt 3]))] = Ok [0; 3] /\
  sublist [0; 3] [2; 0; 3].
Proof.
  split_and!.
  - reflexivity.
  - apply (proj1 (select_narrows no_methods square [3; 1; 0]
             [("x", OVal (PInt 5)); ("x_in", OColl (CList [PInt 5; PInt 0]))]
             [3; 1])).
    reflexivity.
  - reflexivity.
  - apply (proj2 (select_narrows no_methods square [2; 0; 3]
             [("_within", OColl (CList [PInt 0; PInt 1; PInt 3]))] [0; 3])).
    reflexivity.
Defined.

(** C9.  For keyword predicates over literal attributes, applying [kwds1]
    and then [kwds2] in two calls returns the same absolute indices (in the
    same order, hence the same set) as one call with the two groups
    together, in whatever order the keyword dictionary [kwds] yields them.
    When every predicate can be evaluated on the receiver both calls do
    return; and whenever both return, the results agree. *)
Theorem select_composition methods g seq kwds1 kwds2 kwds :
  kwds ≡ₚ kwds1 ++ kwds2 ->
  (Forall (evaluable (vertex_attributes g) seq) (kwds1 ++ kwds2) ->
   exists r,
     (s ← VertexSeq_select methods g seq kwds1;
      VertexSeq_select methods g s kwds2) = Ok r /\
     VertexSeq_select methods g seq kwds = Ok r) /\
  (Forall (evaluable (edge_attributes g) seq) (kwds1 ++ kwds2) ->
   exists r,
     (s ← EdgeSeq_select methods g seq kwds1;
      EdgeSeq_select methods g s kwds2) = Ok r /\
     EdgeSeq_select methods g seq kwds = Ok r) /\
  (Forall (fun kw => is_literal kw.1 = true) (kwds1 ++ kwds2) ->
   forall r1 r2,
     ((s ← VertexSeq_select methods g seq kwds1;
       VertexSeq_select methods g s kwds2) = Ok r1 ->
      VertexSeq_select methods g seq kwds = Ok r2 -> r1 = r2) /\
     ((s ← EdgeSeq_select methods g seq kwds1;
       EdgeSeq_select methods g s kwds2) = Ok r1 ->
      EdgeSeq_select methods g seq kwds = Ok r2 -> r1 = r2)).
Proof.
  intros Hperm. split_and!.
  - intros Hev.
    apply (fold_composition (vertex_attributes g) (VertexSeq_select_step methods g)
             (VertexSeq_select_step_literal methods g) kwds1 kwds2 kwds seq Hperm Hev).
  - intros Hev.
    apply (fold_composition (edge_attributes g) (EdgeSeq_select_step methods g)
             (EdgeSeq_select_step_literal methods g) kwds1 kwds2 kwds seq Hperm Hev).
  - intros Hlit r1 r2. split.
    + apply (fold_composition_eq (vertex_attributes g)
               (VertexSeq_select_step methods g)
               (VertexSeq_select_step_literal methods g) kwds1 kwds2 kwds seq r1 r2
               Hperm Hlit).
    + apply (fold_composition_eq (edge_attributes g)
               (EdgeSeq_select_step methods g)
               (EdgeSeq_select_step_literal methods g) kwds1 kwds2 kwds seq r1 r2
               Hperm Hlit).
Qed.

Lemma select_composition_witness :
  exists r,
    (s ← EdgeSeq_select no_methods square [0; 1; 2; 3] [("w_gt", OVal (PInt 1))];
     EdgeSeq_select no_methods square s [("w_lt", OVal (PInt 4))]) = Ok r /\
    EdgeSeq_select no_methods square [0; 1; 2; 3]
      [("w_lt", OVal (PInt 4)); ("w_gt", OVal (PInt 1))] = Ok r.
Proof.
  apply (select_composition no_methods square [0; 1; 2; 3]
           [("w_gt", OVal (PInt 1))] [("w_lt", OVal (PInt 4))]
           [("w_lt", OVal (PInt 4)); ("w_gt", OVal (PInt 1))]).
  - apply perm_swap.
  - repeat constructor.
    + by exists (Predicate "w" "gt" OpGt), [PInt 1; PInt 2; PInt 3; PInt 4];
        split_and!; try reflexivity; repeat constructor.
    + by exists (Predicate "w" "lt" OpLt), [PInt 1; PInt 2; PInt 3; PInt 4];
        split_and!; try reflexivity; repeat constructor.
Defined.


(** The same with a vertex sequence on the right: iterating it yields
    vertex objects, which equal no attribute value, so nothing passes. *)
Example membership_vertexseq_literal :
  VertexSeq_select no_methods square [0; 1; 2; 3]
    [("x_in", OColl (CVertexSeq [0]))] = Ok [] /\
  coerced_membership_select (vertex_attributes square) [0; 1; 2; 3] "x" false
    (OColl (CVertexSeq [0])) = Ok [0].
Proof. split; reflexivity. Qed.



(** ** Attribute assignment *)

(** C2.  Assigning through a collection whose scope is the list [scope] of
    absolute indices: a scalar (strings included) ends up at every entity
    of the scope; a non-empty sequence no longer than the scope is repeated
    cyclically, the [j]-th entity of the scope receiving the value at
    position [j mod len]; entities outside the scope keep their value.  In
    particular [[a, b]] assigned to a collection of seven entities gives the
    column [[a, b, a, b, a, b, a]]. *)
Theorem assignment_broadcast_cycle columns (universe : nat) name (scope : list nat) :
  (forall col, columns !! name = Some col -> length col = universe) ->
  NoDup scope -> Forall (fun i => i < universe) scope ->
  (forall v, exists column,
     set_attribute_values columns universe scope name (AScalar v) =
       Ok (<[name := column]> columns) /\
     (forall i, i ∈ scope -> column !! i = Some v) /\
     (forall i, i ∉ scope ->
        column !! i = default (replicate universe PNone) (columns !! name) !! i)) /\
  (forall l, l <> [] -> length l <= length scope -> exists column,
     set_attribute_values columns universe scope name (ASeq l) =
       Ok (<[name := column]> columns) /\
     (forall j i, scope !! j = Some i -> column !! i = l !! (j mod length l)) /\
     (forall i, i ∉ scope ->
        column !! i = default (replicate universe PNone) (columns !! name) !! i)) /\
  (forall a b,
     set_attribute_values ∅ 7 (seq 0 7) "color" (ASeq [a; b]) =
       Ok {[ "color" := [a; b; a; b; a; b; a] ]}).
Proof.
  intros Hcol Hnd Hscope. split_and!.
  - intros v.
    destruct (set_attribute_values_scoped columns universe name scope (AScalar v)
                (replicate (length scope) v) Hcol eq_refl Hnd Hscope)
      as (column & Hset & _ & Hin & Hout).
    exists column. split_and!; [done | | done].
    intros i [j Hj]%list_elem_of_lookup. rewrite (Hin j i Hj).
    apply lookup_replicate_2. by eapply lookup_lt_Some.
  - intros l Hl Hlen.
    assert (assigned_values (ASeq l) (length scope) = Ok (cycle l (length scope)))
      as Hvals.
    { simpl. destruct (Nat.ltb_spec (length scope) (length l)); [lia |].
      destruct (Nat.eqb_spec (length l) 0) as [H0|]; [by destruct l | done]. }
    destruct (set_attribute_values_scoped columns universe name scope (ASeq l)
                _ Hcol Hvals Hnd Hscope) as (column & Hset & _ & Hin & Hout).
    exists column. split_and!; [done | | done].
    intros j i Hj. rewrite (Hin j i Hj). apply lookup_cycle; [done |].
    by eapply lookup_lt_Some.
  - intros a b. reflexivity.
Qed.

Lemma assignment_broadcast_cycle_witness :
  set_attribute_values (vertex_attributes square) 4 [3; 1] "x" (AScalar (PStr "red")) =
    Ok {[ "x" := [PInt 0; PStr "red"; PInt 7; PStr "red"] ]} /\
  set_attribute_values (vertex_attributes square) 4 [0; 1; 2; 3] "x"
    (ASeq [PInt 1; PInt 2; PInt 3]) =
    Ok {[ "x" := [PInt 1; PInt 2; PInt 3; PInt 1] ]} /\
  (exists column,
     set_attribute_values (vertex_attributes square) 4 [3; 1] "x"
       (ASeq [PInt 8; PInt 9]) = Ok (<["x" := column]> (vertex_attributes square)) /\
     (forall j i, [3; 1] !! j = Some i -> column !! i = [PInt 8; PInt 9] !! (j mod 2)) /\
     (forall i, i ∉ [3; 1] ->
        column !! i =
          default (replicate 4 PNone) (vertex_attributes square !! "x") !! i)) /\
  set_attribute_values ∅ 7 (seq 0 7) "color" (ASeq [PStr "red"; PStr "green"]) =
    Ok {[ "color" := [PStr "red"; PStr "green"; PStr "red"; PStr "green";
                      PStr "red"; PStr "green"; PStr "red"] ]}.
Proof.
  assert (forall col, vertex_attributes square !! "x" = Some col -> length col = 4)
    as Hcol by (by intros col [= <-]).
  assert (NoDup [3; 1]) as Hnd
    by (apply (bool_decide_unpack (NoDup [3; 1])); vm_compute; exact I).
  assert (Forall (fun i => i < 4) [3; 1]) as Hscope by (repeat constructor).
  destruct (assignment_broadcast_cycle (vertex_attributes square) 4 "x" [3; 1]
              Hcol Hnd Hscope) as (_ & Hcyc & Hseven).
  split_and!.
  - reflexivity.
  - reflexivity.
  - apply (Hcyc [PInt 8; PInt 9]); [done | simpl; lia].
  - apply Hseven.
Defined.

(** ** [Graph.DictList] *)


Example DictList_both_modes :
  DictList (Some [vertex_b; vertex_a]) [edge_ab_weighted; edge_ac] true "name"
    ("source", "target") false =
    Ok (mkGraph 3 true [(1, 0); (1, 2)]
          {[ "name" := [PStr "b"; PStr "a"; PStr "c"];
             "age" := [PNone; PInt 30; PNone] ]}
          {[ "source" := [PStr "a"; PStr "a"];
             "target" := [PStr "b"; PStr "c"];
             "weight" := [PInt 1; PNone] ]}) /\
  DictList (Some [vertex_b; vertex_a]) [edge_ab_weighted; edge_ac] true "name"
    ("source", "target") true =
    Ok (mkGraph 3 true [(1, 0); (1, 2)]
          {[ "name" := [PStr "b"; PStr "a"; PStr "c"];
             "age" := [PNone; PInt 30; PNone] ]}
          {[ "source" := [PStr "a"; PStr "a"];
             "target" := [PStr "b"; PStr "c"];
             "weight" := [PInt 1; PNone] ]}).
Proof. split; vm_compute; reflexivity. Qed.

(** C7.  Two vertex records with the same value under the name key make
    [DictList] raise the ValueError "vertex names are not unique", in
    either mode and whatever the edges; when the name values of the records
    are pairwise distinct, that error is not raised. *)
Theorem DictList_unique_names records edges directed vertex_name_attr
    edge_foreign_keys iterative :
  (forall i j ri rj v,
     i <> j -> records !! i = Some ri -> records !! j = Some rj ->
     ri !! vertex_name_attr = Some v -> rj !! vertex_name_attr = Some v ->
     DictList (Some records) edges directed vertex_name_attr edge_foreign_keys
       iterative = Err (ValueError "vertex names are not unique")) /\
  (NoDup (column_of vertex_name_attr records) ->
   DictList (Some records) edges directed vertex_name_attr edge_foreign_keys
     iterative <> Err (ValueError "vertex names are not unique")).
Proof.
  destruct edge_foreign_keys as [efk_src efk_dest].
  destruct (DictList_cases (Some records) edges directed vertex_name_attr
              efk_src efk_dest iterative) as (cols & _ & Hcols & Hcases).
  simpl in Hcases. rewrite Hcols in Hcases. unfold initial_column in Hcases.
  simpl in Hcases. split.
  - intros i j ri rj v Hij Hi Hj Hvi Hvj.
    destruct records as [|r records]; [done |].
    destruct (column_opt_present vertex_name_attr _ i ri v Hi Hvi) as (col & Hcol & Hci).
    rewrite Hcol in Hcases.
    destruct (has_duplicates col) eqn:Hdup; [done |].
    apply has_duplicates_false in Hdup.
    apply column_opt_Some in Hcol as [-> _].
    pose proof (column_of_lookup vertex_name_attr _ _ _ Hj) as Hcj.
    rewrite Hvj in Hcj. simpl in Hcj.
    by pose proof (NoDup_lookup _ _ _ _ Hdup Hci Hcj).
  - intros Hnd Hcall. rewrite Hcall in Hcases.
    destruct records as [|r records].
    + rewrite decide_True in Hcases by done. simpl in Hcases.
      destruct Hcases as [(k & ? & _) | (? & ? & ? & ? & _)]; done.
    + destruct (column_opt vertex_name_attr (r :: records)) as [col|] eqn:Hcol;
        [|done].
      apply column_opt_Some in Hcol as [-> _].
      apply has_duplicates_false in Hnd. rewrite Hnd in Hcases.
      destruct Hcases as [(k & ? & _) | (? & ? & ? & ? & _)]; done.
Qed.

Lemma DictList_unique_names_witness :
  DictList (Some [vertex_a; vertex_b; vertex_a]) [edge_ab] false "name"
    ("source", "target") true = Err (ValueError "vertex names are not unique") /\
  DictList (Some [vertex_a; vertex_b]) [edge_ab] false "name"
    ("source", "target") true <> Err (ValueError "vertex names are not unique").
Proof.
  split.
  - apply (proj1 (DictList_unique_names [vertex_a; vertex_b; vertex_a] [edge_ab]
                    false "name" ("source", "target") true)
             0 2 vertex_a vertex_a (PStr "a"));
      [lia | reflexivity | reflexivity | reflexivity | reflexivity].
  - apply (proj2 (DictList_unique_names [vertex_a; vertex_b] [edge_ab]
                    false "name" ("source", "target") true)).
    apply (bool_decide_unpack (NoDup (column_of "name" [vertex_a; vertex_b]))).
    vm_compute. exact I.
Defined.

(** C8.  Without vertex records ([None] or an empty list) and with edge
    records that carry both endpoint keys, [DictList] returns a graph whose
    only vertex column is the name column; it lists every endpoint name
    once, in the order of first occurrence among the endpoints read as
    source, target, source, target, ...; the vertex count is the number of
    these names, and every edge joins the positions of its two names.  For
    the edges (a, b), (a, c) the names are [a; b; c], the count is 3 and
    the edge list is [(0, 1); (0, 2)], in both modes. *)
Theorem DictList_discovers_vertices vertices edges directed vertex_name_attr
    efk_src efk_dest iterative :
  (records_of vertices = [] ->
   Forall (has_endpoints efk_src efk_dest) edges ->
   exists g names,
     DictList vertices edges directed vertex_name_attr (efk_src, efk_dest) iterative
       = Ok g /\
     names = reverse (remove_dups (reverse (edges ≫= endpoint_names efk_src efk_dest))) /\
     vertex_attributes g = {[ vertex_name_attr := names ]} /\
     vcount g = length names /\
     Forall2 (resolved efk_src efk_dest names) (edge_list g) edges) /\
  (forall g,
     DictList None [edge_ab; edge_ac] directed "name" ("source", "target") iterative
       = Ok g ->
     vertex_attributes g = {[ "name" := [PStr "a"; PStr "b"; PStr "c"] ]} /\
     vcount g = 3 /\ edge_list g = [(0, 1); (0, 2)]).
Proof.
  split.
  - intros Hrec Hedges.
    destruct (DictList_cases vertices edges directed vertex_name_attr efk_src efk_dest
                iterative) as (cols & _ & Hcols & Hcases).
    simpl in Hcases. unfold initial_column in Hcols. rewrite Hrec in Hcols.
    rewrite Hcols, decide_True in Hcases by done. simpl in Hcases.
    destruct Hcases as [(k & _ & Hk & Hex) | (new & el & ecols & Hg & _ & _ & Hres & Hseen & _)].
    + exfalso. apply Exists_exists in Hex as (r & Hr & Hnone).
      eapply Forall_forall in Hedges as [[s Hs] [d Hd]]; [|done].
      destruct Hk as [-> | ->]; congruence.
    + simpl in *. exists (mkGraph (length new) directed el
                            (grown_columns cols [] vertex_name_attr new) ecols), new.
      split_and!; [done | | | done | done].
      * rewrite Hseen. apply seen_first_occurrences.
      * apply map_eq. intros k. unfold grown_columns. simpl.
        destruct (decide (k = vertex_name_attr)) as [->|Hne].
        -- by rewrite lookup_insert_eq, lookup_singleton_eq.
        -- rewrite lookup_insert_ne, lookup_fmap, Hcols by done.
           rewrite decide_False by done. by rewrite lookup_singleton_ne.
  - destruct directed, iterative; vm_compute; by intros g [= <-].
Qed.

Lemma DictList_discovers_vertices_witness :
  exists g,
    DictList None [edge_ab; edge_ac] false "name" ("source", "target") true = Ok g /\
    vertex_attributes g = {[ "name" := [PStr "a"; PStr "b"; PStr "c"] ]} /\
    vcount g = 3 /\ edge_list g = [(0, 1); (0, 2)].
Proof.
  destruct (DictList_discovers_vertices None [edge_ab; edge_ac] false "name"
              "source" "target" true) as [Hgeneral Hexample].
  destruct Hgeneral as (g & names & Hg & _).
  - reflexivity.
  - repeat constructor; by eexists.
  - exists g. split; [exact Hg |]. by apply Hexample.
Defined.

(** C5, as stated, fails: the endpoint keys of an edge record are stored as
    edge attributes like every other key, in both modes. *)
Lemma DictList_keeps_endpoint_keys :
  edge_attributes <$>
    DictList None [edge_ab_weighted] false "name" ("source", "target") false =
    Ok {[ "source" := [PStr "a"]; "target" := [PStr "b"]; "weight" := [PInt 1] ]} /\
  edge_attributes <$>
    DictList None [edge_ab_weighted] false "name" ("source", "target") true =
    Ok {[ "source" := [PStr "a"]; "target" := [PStr "b"]; "weight" := [PInt 1] ]} /\
  ({[ "source" := [PStr "a"]; "target" := [PStr "b"]; "weight" := [PInt 1] ]}
     : gmap string (list pyval)) !! "source" <> None.
Proof. split_and!; [by vm_compute | by vm_compute | by vm_compute]. Qed.

(** C5, amended.  When [DictList] returns, in either mode, every key of
    every edge record -- the two endpoint keys included -- is an edge
    attribute column: the column holds the value of each record under the
    key and [None] where a record lacks it, and there are no other edge
    columns.  The endpoint keys moreover decide the edge: its source and
    target are the positions of the two names in the name column. *)
Theorem DictList_edge_attributes vertices edges directed vertex_name_attr
    efk_src efk_dest iterative g :
  DictList vertices edges directed vertex_name_attr (efk_src, efk_dest) iterative
    = Ok g ->
  (forall k, edge_attributes g !! k = column_opt k edges) /\
  (forall i r k v,
     edges !! i = Some r -> r !! k = Some v ->
     exists col, edge_attributes g !! k = Some col /\ col !! i = Some v) /\
  (forall i r,
     edges !! i = Some r ->
     exists s d col_s col_d,
       r !! efk_src = Some s /\ r !! efk_dest = Some d /\
       edge_attributes g !! efk_src = Some col_s /\ col_s !! i = Some s /\
       edge_attributes g !! efk_dest = Some col_d /\ col_d !! i = Some d) /\
  (exists names,
     vertex_attributes g !! vertex_name_attr = Some names /\
     Forall2 (resolved efk_src efk_dest names) (edge_list g) edges).
Proof.
  intros Hcall.
  destruct (DictList_Ok _ _ _ _ _ _ _ _ Hcall)
    as (cols & names & new & _ & _ & _ & _ & _ & Hv & He & _ & Hres & _).
  assert (forall i r k v, edges !! i = Some r -> r !! k = Some v ->
            exists col, edge_attributes g !! k = Some col /\ col !! i = Some v)
    as Hpresent.
  { intros i r k v Hr Hk. rewrite He. by eapply column_opt_present. }
  split_and!.
  - done.
  - done.
  - intros i r Hr.
    destruct (Forall2_lookup_r _ _ _ _ _ Hres Hr) as (e & _ & s & d & Hs & Hd & _).
    destruct (Hpresent i r efk_src s Hr Hs) as (col_s & ? & ?).
    destruct (Hpresent i r efk_dest d Hr Hd) as (col_d & ? & ?).
    by exists s, d, col_s, col_d.
  - exists (names ++ new). split; [|done].
    rewrite Hv. unfold grown_columns. apply lookup_insert_eq.
Qed.

Lemma DictList_edge_attributes_witness :
  exists g,
    DictList (Some [vertex_b; vertex_a]) [edge_ab_weighted; edge_ac] true "name"
      ("source", "target") true = Ok g /\
    edge_attributes g !! "source" = column_opt "source" [edge_ab_weighted; edge_ac] /\
    edge_attributes g !! "weight" = Some [PInt 1; PNone].
Proof.
  eexists. split; [vm_compute; reflexivity |].
  match goal with
  | |- edge_attributes ?g !! _ = _ /\ _ =>
      destruct (DictList_edge_attributes (Some [vertex_b; vertex_a])
                  [edge_ab_weighted; edge_ac] true "name" "source" "target" true g)
        as (Hcols & _)
  end.
  - vm_compute. reflexivity.
  - split; [apply Hcols |]. rewrite Hcols. reflexivity.
Defined.

(** * Further properties of the code *)

(** ** [select] *)

(** X1.  On an edge sequence of edges of the graph, a predicate whose
    attribute part is [_within] -- whatever operator was parsed from the
    keyword -- given a collection of vertices keeps exactly the edges whose
    two endpoints are both in the collection, in the order of the
    receiver. *)
Theorem select_within methods g es keyword p c :
  parse_keyword keyword = Ok p -> pred_attr p = "_within" ->
  Forall (fun e => e < ecount g) es ->
  EdgeSeq_select methods g es [(keyword, OColl c)] =
    Ok (filter (fun e => Is_true (edge_test g (within c) e)) es).
Proof. apply within_one_set. Qed.

Lemma select_within_witness :
  EdgeSeq_select no_methods square [0; 1; 2; 3]
    [("_within", OColl (CVertexSeq [0; 1; 2]))] = Ok [0; 1].
Proof.
  rewrite (select_within no_methods square [0; 1; 2; 3] "_within"
             (Predicate "_within" "eq" OpEq) (CVertexSeq [0; 1; 2]) eq_refl eq_refl).
  - reflexivity.
  - repeat constructor.
Defined.

(** X2.  On an edge sequence of edges of the graph, a predicate on an
    endpoint property ([_source], [_from], [_target], [_to]) whose operator
    is one of the six comparisons, given an integer, keeps exactly the edges
    whose source, respectively target, vertex id stands in that relation to
    the integer; without an operator suffix the relation is equality. *)
Theorem select_endpoint_comparison methods g (es : list nat) keyword p z :
  parse_keyword keyword = Ok p ->
  is_source_attr (pred_attr p) || is_target_attr (pred_attr p) = true ->
  is_in_or_notin (pred_op p) = false ->
  Forall (fun e => e < ecount g) es ->
  EdgeSeq_select methods g es [(keyword, OVal (PInt z))] =
    Ok (filter (fun e => Is_true (edge_test g
                  (fun a b => int_test (pred_func p)
                                (Z.of_nat (endpoint_of (pred_attr p) a b)) z) e)) es).
Proof.
  intros Hp Hattr Hop Hes.
  assert (pred_func p <> OpIn /\ pred_func p <> OpNotin) as [Hin Hnotin].
  { destruct (parse_keyword_func _ _ Hp) as [Hf | [_ ->]]; [| done].
    by eapply operators_membership. }
  unfold EdgeSeq_select, core_select. simpl. rewrite Hp. simpl.
  assert (starts_with_underscore (pred_attr p) = Ok true) as ->.
  { unfold is_source_attr, is_target_attr in Hattr.
    repeat match type of Hattr with
           | context [String.eqb ?a ?b] =>
               destruct (String.eqb_spec a b) as [-> | _]; [reflexivity |]
           end.
    done. }
  simpl. unfold endpoint_of, endpoint_filter, edge_source, edge_target.
  fold (is_source_attr (pred_attr p)). fold (is_target_attr (pred_attr p)).
  rewrite Hop. simpl.
  destruct (is_source_attr (pred_attr p)) eqn:Hsrc; simpl in *.
  - pose proof (endpoint_compare g es fst (pred_func p) z Hin Hnotin Hes) as Hsel.
    destruct (mapM_res _ es) as [values|]; simpl in *; [|done].
    destruct (filter_indices _ values _) as [idxs|]; simpl in *; [|done].
    by rewrite Hsel.
  - rewrite Hattr.
    pose proof (endpoint_compare g es snd (pred_func p) z Hin Hnotin Hes) as Hsel.
    destruct (mapM_res _ es) as [values|]; simpl in *; [|done].
    destruct (filter_indices _ values _) as [idxs|]; simpl in *; [|done].
    by rewrite Hsel.
Qed.

Lemma select_endpoint_comparison_witness :
  EdgeSeq_select no_methods square [0; 1; 2; 3] [("_target_ge", OVal (PInt 3))]
    = Ok [2; 3] /\
  EdgeSeq_select no_methods square [0; 1; 2; 3] [("_source", OVal (PInt 0))]
    = Ok [0; 3].
Proof.
  split.
  - rewrite (select_endpoint_comparison no_methods square [0; 1; 2; 3] "_target_ge"
               (Predicate "_target" "ge" OpGe) 3 eq_refl eq_refl eq_refl).
    + reflexivity.
    + repeat constructor.
  - rewrite (select_endpoint_comparison no_methods square [0; 1; 2; 3] "_source"
               (Predicate "_source" "eq" OpEq) 0 eq_refl eq_refl eq_refl).
    + reflexivity.
    + repeat constructor.
Defined.

(** X3.  When every keyword is a predicate over a literal attribute that can
    be evaluated on the receiver (the attribute exists, the receiver's
    indices are in range, the operator accepts the right-hand side),
    [select] returns exactly the members of the receiver that pass all the
    predicates, in the order of the receiver. *)
Theorem select_literal_filter methods g seq kwds :
  (Forall (evaluable (vertex_attributes g) seq) kwds ->
   VertexSeq_select methods g seq kwds =
     Ok (filter (fun i => Is_true (passes_all (vertex_attributes g) kwds i)) seq)) /\
  (Forall (evaluable (edge_attributes g) seq) kwds ->
   EdgeSeq_select methods g seq kwds =
     Ok (filter (fun i => Is_true (passes_all (edge_attributes g) kwds i)) seq)).
Proof.
  split; intros Heval.
  - apply (fold_selects (vertex_attributes g) (VertexSeq_select_step methods g)
             (VertexSeq_select_step_literal methods g) kwds seq Heval).
  - apply (fold_selects (edge_attributes g) (EdgeSeq_select_step methods g)
             (EdgeSeq_select_step_literal methods g) kwds seq Heval).
Qed.

Lemma select_literal_filter_witness :
  VertexSeq_select no_methods square [3; 2; 1; 0]
    [("x_ge", OVal (PInt 5)); ("x_ne", OVal (PInt 7))] = Ok [3; 1].
Proof.
  rewrite (proj1 (select_literal_filter no_methods square [3; 2; 1; 0]
                    [("x_ge", OVal (PInt 5)); ("x_ne", OVal (PInt 7))])).
  - reflexivity.
  - repeat constructor.
    + by exists (Predicate "x" "ge" OpGe), [PInt 0; PInt 5; PInt 7; PInt 5];
        split_and!; try reflexivity; repeat constructor.
    + by exists (Predicate "x" "ne" OpNe), [PInt 0; PInt 5; PInt 7; PInt 5];
        split_and!; try reflexivity; repeat constructor.
Defined.

(** X4.  Selecting twice with the same predicates over literal attributes
    changes nothing: applied to its own result, [select] returns that
    result. *)
Theorem select_idempotent methods g seq kwds r :
  (Forall (evaluable (vertex_attributes g) seq) kwds ->
   VertexSeq_select methods g seq kwds = Ok r ->
   VertexSeq_select methods g r kwds = Ok r) /\
  (Forall (evaluable (edge_attributes g) seq) kwds ->
   EdgeSeq_select methods g seq kwds = Ok r ->
   EdgeSeq_select methods g r kwds = Ok r).
Proof.
  split; intros Heval Hr.
  - apply (fold_idempotent (vertex_attributes g) (VertexSeq_select_step methods g)
             (VertexSeq_select_step_literal methods g) kwds seq r Heval Hr).
  - apply (fold_idempotent (edge_attributes g) (EdgeSeq_select_step methods g)
             (EdgeSeq_select_step_literal methods g) kwds seq r Heval Hr).
Qed.

Lemma select_idempotent_witness :
  EdgeSeq_select no_methods square [1; 2] [("w_gt", OVal (PInt 1))] = Ok [1; 2].
Proof.
  apply (proj2 (select_idempotent no_methods square [0; 1; 2]
                  [("w_gt", OVal (PInt 1))] [1; 2])).
  - repeat constructor.
    by exists (Predicate "w" "gt" OpGt), [PInt 1; PInt 2; PInt 3; PInt 4];
      split_and!; try reflexivity; repeat constructor.
  - reflexivity.
Defined.

(** ** [Graph.DictList] *)

(** X5.  A graph returned by [DictList], in either mode, is well formed:
    every vertex column has one slot per vertex, every edge column one slot
    per edge, and both endpoints of every edge are vertices of the graph. *)
Theorem DictList_well_formed vertices edges directed vertex_name_attr efk_src
    efk_dest iterative g :
  DictList vertices edges directed vertex_name_attr (efk_src, efk_dest) iterative
    = Ok g ->
  well_formed g.
Proof.
  intros Hg.
  by destruct (DictList_shape _ _ _ _ _ _ _ _ Hg) as (new & _ & _ & _ & _ & _ & Hwf & _).
Qed.

Lemma DictList_well_formed_witness : well_formed example_graph.
Proof.
  apply (DictList_well_formed (Some [vertex_b; vertex_a]) [edge_ab_weighted; edge_ac]
           true "name" "source" "target" false).
  reflexivity.
Defined.

(** X6.  The vertices of a graph returned by [DictList] are the vertex
    records in their order, followed by the names met among the edge
    endpoints that no record carries, each once.  The name column lists the
    names of the records and then the new names, without repetition; any
    other vertex column exists exactly when some record carries its key, and
    holds the values of the records, [None] where a record lacks the key and
    [None] for every vertex met among the edges. *)
Theorem DictList_vertex_columns vertices edges directed vertex_name_attr efk_src
    efk_dest iterative g :
  DictList vertices edges directed vertex_name_attr (efk_src, efk_dest) iterative
    = Ok g ->
  exists new,
    let names := column_of vertex_name_attr (records_of vertices) in
    vcount g = length (records_of vertices) + length new /\
    vertex_attributes g !! vertex_name_attr = Some (names ++ new) /\
    NoDup (names ++ new) /\
    (forall x, x ∈ new <->
       x ∈ edges ≫= endpoint_names efk_src efk_dest /\ x ∉ names) /\
    (forall k, k <> vertex_name_attr ->
       vertex_attributes g !! k =
         (fun c => c ++ replicate (length new) PNone)
           <$> column_opt k (records_of vertices)).
Proof.
  intros Hg.
  destruct (DictList_shape _ _ _ _ _ _ _ _ Hg)
    as (new & Hvc & Hnd & Hseen & Hname & Hother & _ & _).
  exists new. simpl in *. split; [done |]. split; [done |]. split; [done |].
  split; [| done].
  intros x. apply NoDup_app in Hnd as (_ & Hdisj & _).
  assert (x ∈ column_of vertex_name_attr (records_of vertices) ++ new <->
          x ∈ column_of vertex_name_attr (records_of vertices) \/
          x ∈ edges ≫= endpoint_names efk_src efk_dest) as Hin
    by (rewrite Hseen; apply elem_of_seen).
  rewrite elem_of_app in Hin. split.
  - intros Hx. split.
    + destruct (proj1 Hin (or_intror Hx)) as [Hn|He]; [| done].
      by destruct (Hdisj x Hn).
    + intros Hn. by apply (Hdisj x Hn).
  - intros [He Hn]. by destruct (proj2 Hin (or_intror He)).
Qed.

Lemma DictList_vertex_columns_witness :
  exists new,
    let names := column_of "name" (records_of (Some [vertex_b; vertex_a])) in
    vcount example_graph = length (records_of (Some [vertex_b; vertex_a])) + length new /\
    vertex_attributes example_graph !! "name" = Some (names ++ new) /\
    NoDup (names ++ new) /\
    (forall x, x ∈ new <->
       x ∈ [edge_ab_weighted; edge_ac] ≫= endpoint_names "source" "target" /\
       x ∉ names) /\
    (forall k, k <> "name" ->
       vertex_attributes example_graph !! k =
         (fun c => c ++ replicate (length new) PNone)
           <$> column_opt k (records_of (Some [vertex_b; vertex_a]))).
Proof.
  apply (DictList_vertex_columns (Some [vertex_b; vertex_a])
           [edge_ab_weighted; edge_ac] true "name" "source" "target" true
           example_graph).
  reflexivity.
Defined.

(** X7.  [DictList] never returns a graph when some edge record lacks one of
    the two endpoint keys; without vertex records it then raises the
    KeyError of an endpoint key that some edge record lacks, in either
    mode. *)
Theorem DictList_missing_endpoint_key vertices edges directed vertex_name_attr
    efk_src efk_dest iterative :
  Exists (fun r => ~ has_endpoints efk_src efk_dest r) edges ->
  (forall g,
     DictList vertices edges directed vertex_name_attr (efk_src, efk_dest) iterative
       <> Ok g) /\
  (records_of vertices = [] ->
   exists k,
     (k = efk_src \/ k = efk_dest) /\ Exists (fun r => r !! k = None) edges /\
     DictList vertices edges directed vertex_name_attr (efk_src, efk_dest) iterative
       = Err (KeyError k)).
Proof.
  intros Hlack.
  assert (~ Forall (has_endpoints efk_src efk_dest) edges) as Hnot.
  { intros Hall. apply Exists_exists in Hlack as (r & Hr & Hno).
    rewrite Forall_forall in Hall. by apply Hno, Hall. }
  split.
  - intros g Hg.
    destruct (DictList_shape _ _ _ _ _ _ _ _ Hg) as (new & _ & _ & _ & _ & _ & _ & Hres).
    apply Hnot. clear -Hres.
    induction Hres as [|e r el rs He _ IH]; constructor; [| done].
    by eapply resolved_has_endpoints.
  - intros Hrec.
    destruct (DictList_cases vertices edges directed vertex_name_attr efk_src efk_dest
                iterative) as (cols & _ & Hcols & Hcall).
    simpl in Hcall. rewrite Hcols in Hcall. unfold initial_column in Hcall.
    rewrite Hrec, decide_True in Hcall by done.
    change (has_duplicates []) with false in Hcall.
    destruct Hcall as [(k & Hk & Hkey & Hex) | (new & el & ecols & _ & _ & _ & _ & _ & Hall)].
    + by exists k.
    + done.
Qed.

Lemma DictList_missing_endpoint_key_witness :
  exists k,
    (k = "source" \/ k = "target") /\
    Exists (fun r => r !! k = None) [edge_ab; vertex_a] /\
    DictList None [edge_ab; vertex_a] false "name" ("source", "target") false
      = Err (KeyError k).
Proof.
  assert (Exists (fun r => ~ has_endpoints "source" "target" r) [edge_ab; vertex_a])
    as Hlack.
  { apply Exists_cons_tl, Exists_cons_hd. intros [[v Hv] _]. by vm_compute in Hv. }
  apply (proj2 (DictList_missing_endpoint_key None [edge_ab; vertex_a] false "name"
                  "source" "target" false Hlack)).
  reflexivity.
Defined.

(** X8.  When vertex records are given and none of them carries the name
    key, [DictList] raises the KeyError of the name key, in either mode and
    whatever the edges. *)
Theorem DictList_missing_name_key records edges directed vertex_name_attr
    edge_foreign_keys iterative :
  records <> [] ->
  Forall (fun r => r !! vertex_name_attr = None) records ->
  DictList (Some records) edges directed vertex_name_attr edge_foreign_keys iterative
    = Err (KeyError vertex_name_attr).
Proof.
  intros Hne Hall. destruct edge_foreign_keys as [efk_src efk_dest].
  destruct (DictList_cases (Some records) edges directed vertex_name_attr efk_src
              efk_dest iterative) as (cols & _ & Hcols & Hcall).
  simpl in Hcall. rewrite Hcols in Hcall. unfold initial_column in Hcall.
  simpl in Hcall. destruct records as [|r records]; [done |].
  unfold column_opt in Hcall. rewrite decide_False in Hcall; [done |].
  intros Hex. apply Exists_exists in Hex as (r' & Hr' & [v Hv]).
  rewrite Forall_forall in Hall. by rewrite (Hall r' Hr') in Hv.
Qed.

Lemma DictList_missing_name_key_witness :
  DictList (Some [vertex_a; vertex_b]) [] false "label" ("source", "target") true
    = Err (KeyError "label").
Proof.
  apply (DictList_missing_name_key [vertex_a; vertex_b] [] false "label"
           ("source", "target") true).
  - done.
  - repeat constructor.
Defined.

(** X9.  A keyword whose attribute part begins with an underscore and is
    none of the structural names of the edge grammar is delegated to the
    graph method of that name (without the underscore), called with the
    sequence: [select] keeps exactly the members whose value in the returned
    list passes the operator, in the order of the receiver.  When the graph
    has no such method the call raises the AttributeError of the name. *)
Theorem select_method_predicate methods g seq keyword p name value :
  parse_keyword keyword = Ok p -> pred_attr p = String PyStr.underscore name ->
  (forall values flags,
     mapM_res (fun v => apply_operator (pred_func p) v value) values = Ok flags ->
     length values = length seq ->
     (call_method methods name g (ArgVertexSeq seq) = Ok values ->
      VertexSeq_select methods g seq [(keyword, value)] = Ok (keep flags seq)) /\
     (pred_attr p ∉ structural_names ->
      call_method methods name g (ArgEdgeSeq seq) = Ok values ->
      EdgeSeq_select methods g seq [(keyword, value)] = Ok (keep flags seq))) /\
  (methods name = None ->
   VertexSeq_select methods g seq [(keyword, value)] = Err (AttributeError name) /\
   (pred_attr p ∉ structural_names ->
    EdgeSeq_select methods g seq [(keyword, value)] = Err (AttributeError name))).
Proof.
  intros Hp Hattr. split.
  - intros values flags Hflags Hlen. split.
    + intros Hcall. by eapply vertex_method_select.
    + intros Hstruct Hcall. by eapply edge_method_select.
  - intros Hnone. by eapply unknown_method_select.
Qed.

Lemma select_method_predicate_witness :
  VertexSeq_select index_method square [3; 1; 2] [("_index_gt", OVal (PInt 1))]
    = Ok (keep [true; false; true] [3; 1; 2]) /\
  VertexSeq_select index_method square [3; 1; 2] [("_degree_gt", OVal (PInt 1))]
    = Err (AttributeError "degree").
Proof.
  destruct (select_method_predicate index_method square [3; 1; 2] "_index_gt"
              (Predicate "_index" "gt" OpGt) "index" (OVal (PInt 1)) eq_refl eq_refl)
    as [Hsel _].
  destruct (Hsel [PInt 3; PInt 1; PInt 2] [true; false; true] eq_refl eq_refl)
    as [Hvertex _].
  destruct (select_method_predicate index_method square [3; 1; 2] "_degree_gt"
              (Predicate "_degree" "gt" OpGt) "degree" (OVal (PInt 1)) eq_refl eq_refl)
    as [_ Hnone].
  split.
  - apply Hvertex. reflexivity.
  - exact (proj1 (Hnone eq_refl)).
Defined.

(** X10.  On an edge sequence of edges of the graph, the order of the two
    collections given to [_between] does not matter, and [_within] with a
    collection selects the same edges as [_between] with that collection
    twice. *)
Theorem select_between_within methods g es c1 c2 :
  Forall (fun e => e < ecount g) es ->
  EdgeSeq_select methods g es [("_between", OTuple [c1; c2])] =
    EdgeSeq_select methods g es [("_between", OTuple [c2; c1])] /\
  EdgeSeq_select methods g es [("_within", OColl c1)] =
    EdgeSeq_select methods g es [("_between", OTuple [c1; c1])].
Proof.
  intros Hes.
  rewrite !(between_two_sets methods g es "_between" (Predicate "_between" "eq" OpEq))
    by done.
  rewrite (within_one_set methods g es "_within" (Predicate "_within" "eq" OpEq))
    by done.
  split; f_equal; apply filter_edge_test_ext; intros s t.
  - apply between_comm.
  - symmetry. apply between_same.
Qed.

Lemma select_between_within_witness :
  EdgeSeq_select no_methods square [0; 1; 2; 3]
    [("_between", OTuple [CList [PInt 0]; CSet {[ PInt 1; PInt 3 ]}])] =
    EdgeSeq_select no_methods square [0; 1; 2; 3]
      [("_between", OTuple [CSet {[ PInt 1; PInt 3 ]}; CList [PInt 0]])].
Proof.
  apply (proj1 (select_between_within no_methods square [0; 1; 2; 3]
                  (CList [PInt 0]) (CSet {[ PInt 1; PInt 3 ]})
                  ltac:(repeat constructor))).
Defined.



(** ** The constructor and pickling *)

(** X12.  Pickling round trip: for a graph whose columns have one slot per
    entity and whose edges join its own vertices, calling [_reconstruct]
    with what [__reduce__] returns gives the same object back: the same
    vertex count, edge list and direction, the same graph, vertex and edge
    attributes, and the same instance dict. *)
Theorem reduce_reconstruct (self : graph_object) :
  well_formed (graph_base self) ->
  _reconstruct (__reduce__ self).2 (__reduce__ self).1 ∅ = Ok self.
Proof.
  intros (Hv & He & Hends). destruct self as [g gattrs d]. simpl in *.
  unfold _reconstruct, __reduce__, Graph__init__, init_params. simpl.
  unfold override. rewrite !lookup_empty. simpl.
  rewrite !foldl_insert_items, !foldl_insert_ASeq.
  unfold GraphBase_init. rewrite Nat.max_l by (by apply vertices_needed_below).
  rewrite vs_setitem_columns by done. simpl.
  rewrite es_setitem_columns by done. simpl.
  rewrite (right_id_L ∅ (∪)). by destruct g.
Qed.

Lemma reduce_reconstruct_witness :
  _reconstruct (__reduce__ square_object).2 (__reduce__ square_object).1 ∅
    = Ok square_object.
Proof.
  apply (reduce_reconstruct square_object).
  split; [| split].
  - intros k col Hk. cbn [square_object graph_base square vertex_attributes] in Hk.
    apply lookup_singleton_Some in Hk as [_ <-]. reflexivity.
  - intros k col Hk. cbn [square_object graph_base square edge_attributes] in Hk.
    apply lookup_singleton_Some in Hk as [_ <-]. reflexivity.
  - unfold endpoints_below. simpl. repeat constructor; simpl; lia.
Defined.

(** X13.  The constructor reads the six keywords n, edges, directed,
    graph_attrs, vertex_attrs and edge_attrs only: any other keyword
    argument is ignored without an error. *)
Theorem init_ignores_other_keywords args (kwds : gmap string init_arg) :
  Graph__init__ args kwds =
    Graph__init__ args (filter (fun kv => kv.1 ∈ kwd_order) kwds).
Proof.
  unfold Graph__init__.
  rewrite (init_params_keywords args kwds (filter (fun kv => kv.1 ∈ kwd_order) kwds));
    [done |].
  intros k Hk. destruct (kwds !! k) as [v|] eqn:Hv.
  - symmetry. by apply map_lookup_filter_Some.
  - symmetry. apply map_lookup_filter_None. by left.
Qed.

(** X14.  Each of the six parameters of the constructor is the keyword
    argument of its name when there is one, whatever was passed by
    position; otherwise the positional argument at its place, the places
    counted after a vertex count of 1 was put in front of a leading edge
    list; otherwise the default (1, [], False, {}, {}, {}). *)
Theorem init_parameter_sources args kwds i k :
  kwd_order !! i = Some k ->
  init_params args kwds !! i =
    match kwds !! k with
    | Some v => Some v
    | None =>
        match positional args !! i with
        | Some a => Some a
        | None => default_params !! i
        end
    end.
Proof.
  intros Hk. unfold init_params. fold (positional args). fold default_params.
  assert (i < 6) as Hi by (apply lookup_lt_Some in Hk; simpl in Hk; lia).
  rewrite (foldl_override_lookup kwds _ i k).
  - destruct (kwds !! k); [done |].
    destruct (positional args !! i) as [a|] eqn:Ha.
    + by rewrite (lookup_app_l_Some _ _ _ _ Ha).
    + apply lookup_ge_None_1 in Ha.
      rewrite lookup_app_r, lookup_drop by done. f_equal. lia.
  - rewrite fst_zip by (simpl; lia). apply NoDup_seq.
  - apply list_elem_of_lookup. exists i. rewrite lookup_zip_with, lookup_seq_lt by done.
    simpl. by rewrite Hk.
  - rewrite length_app, length_drop. simpl. lia.
Qed.

Lemma init_parameter_sources_witness :
  init_params [ArgList [(0, 1)]; ArgBool true] {[ "n" := ArgInt 5 ]} !! 0 =
    Some (ArgInt 5) /\
  init_params [ArgList [(0, 1)]; ArgBool true] {[ "n" := ArgInt 5 ]} !! 2 =
    Some (ArgBool true) /\
  init_params [ArgList [(0, 1)]; ArgBool true] {[ "n" := ArgInt 5 ]} !! 3 =
    Some (ArgDict ∅).
Proof.
  split; [| split].
  - etrans; [apply (init_parameter_sources [ArgList [(0, 1)]; ArgBool true]
                      {[ "n" := ArgInt 5 ]} 0 "n"); reflexivity | reflexivity].
  - etrans; [apply (init_parameter_sources [ArgList [(0, 1)]; ArgBool true]
                      {[ "n" := ArgInt 5 ]} 2 "directed"); reflexivity | reflexivity].
  - etrans; [apply (init_parameter_sources [ArgList [(0, 1)]; ArgBool true]
                      {[ "n" := ArgInt 5 ]} 3 "graph_attrs"); reflexivity | reflexivity].
Defined.

(** X15.  More than six positional arguments -- or six when the first is an
    edge list, the vertex count being put in front of it -- make the
    constructor raise a ValueError when it unpacks the parameters, whatever
    the keyword arguments. *)
Theorem init_too_many_arguments args kwds :
  6 < length (positional args) ->
  Graph__init__ args kwds = Err (ValueError "too many values to unpack").
Proof.
  intros Hlen. unfold Graph__init__.
  assert (6 < length (init_params args kwds)) as Hparams.
  { unfold init_params. fold (positional args).
    rewrite length_foldl_override, length_app. lia. }
  destruct (init_params args kwds) as [|p1 [|p2 [|p3 [|p4 [|p5 [|p6 [|p7 ps]]]]]]];
    simpl in Hparams; try lia; done.
Qed.

Lemma init_too_many_arguments_witness :
  Graph__init__ [ArgList []; ArgList []; ArgBool true; ArgDict ∅; ArgDict ∅; ArgDict ∅]
    ∅ = Err (ValueError "too many values to unpack").
Proof.
  apply (init_too_many_arguments
           [ArgList []; ArgList []; ArgBool true; ArgDict ∅; ArgDict ∅; ArgDict ∅] ∅).
  simpl. lia.
Defined.

(** Without arguments the constructor builds a graph of one vertex. *)
Example Graph_no_arguments :
  Graph__init__ [] ∅ = Ok (GraphObject (mkGraph 1 false [] ∅ ∅) ∅ ∅).
Proof. reflexivity. Qed.

(** ** [Graph.get_adjacency] *)

(** X16.  For a graph whose edges join its own vertices and an edge attribute
    with one value per edge, [get_adjacency(type, attribute, default)]
    returns an n x n matrix, n being the vertex count.  A cell no edge is
    written to holds [default]; any other cell holds the attribute value of
    the last edge, in edge order, that is written to it.  A directed edge
    (s, t) is written to the cell (s, t); an undirected one to (s, t) and
    (t, s) with [GET_ADJACENCY_BOTH], to (min, max) with
    [GET_ADJACENCY_UPPER] and to (max, min) with [GET_ADJACENCY_LOWER]. *)
Theorem get_adjacency_cells base g t name default column :
  edge_attributes g !! name = Some column ->
  adjacency_ready g column ->
  exists data,
    get_adjacency base g (AdjType t) (AdjName name) default = Ok data /\
    square_matrix (vcount g) data /\
    (forall i j,
       i < vcount g -> j < vcount g ->
       (forall e, e ∈ edge_list g -> ~ writes_to (is_directed g) t i j e) ->
       cell data i j = Some default) /\
    (forall i j p e,
       edge_list g !! p = Some e -> writes_to (is_directed g) t i j e ->
       (forall q e', p < q -> edge_list g !! q = Some e' ->
                     ~ writes_to (is_directed g) t i j e') ->
       cell data i j = column !! p).
Proof. apply get_adjacency_spec. Qed.

Lemma get_adjacency_cells_witness :
  exists data,
    get_adjacency no_base (triangle true) (AdjType GET_ADJACENCY_BOTH)
      (AdjName "weight") (PInt 0) = Ok data /\
    square_matrix 3 data /\
    (forall i j,
       i < 3 -> j < 3 ->
       (forall e, e ∈ [(0, 1); (2, 1); (0, 2)] ->
                  ~ writes_to true GET_ADJACENCY_BOTH i j e) ->
       cell data i j = Some (PInt 0)) /\
    (forall i j p e,
       [(0, 1); (2, 1); (0, 2)] !! p = Some e ->
       writes_to true GET_ADJACENCY_BOTH i j e ->
       (forall q e', p < q -> [(0, 1); (2, 1); (0, 2)] !! q = Some e' ->
                     ~ writes_to true GET_ADJACENCY_BOTH i j e') ->
       cell data i j = [PInt 7; PInt 8; PInt 9] !! p).
Proof.
  apply (get_adjacency_cells no_base (triangle true) GET_ADJACENCY_BOTH "weight"
           (PInt 0) [PInt 7; PInt 8; PInt 9]).
  - reflexivity.
  - split; [| reflexivity]. unfold endpoints_below. simpl.
    repeat constructor; simpl; lia.
Defined.

(** X17.  On an undirected graph the matrix of [GET_ADJACENCY_BOTH] is
    symmetric, the matrix of [GET_ADJACENCY_UPPER] holds [default] below the
    diagonal, and the matrix of [GET_ADJACENCY_LOWER] is the transpose of the
    one of [GET_ADJACENCY_UPPER]. *)
Theorem get_adjacency_triangles base g name default column :
  edge_attributes g !! name = Some column ->
  adjacency_ready g column ->
  is_directed g = false ->
  exists both upper lower,
    get_adjacency base g (AdjType GET_ADJACENCY_BOTH) (AdjName name) default
      = Ok both /\
    get_adjacency base g (AdjType GET_ADJACENCY_UPPER) (AdjName name) default
      = Ok upper /\
    get_adjacency base g (AdjType GET_ADJACENCY_LOWER) (AdjName name) default
      = Ok lower /\
    (forall i j, i < vcount g -> j < vcount g -> cell both i j = cell both j i) /\
    (forall i j, j < i -> i < vcount g -> cell upper i j = Some default) /\
    (forall i j, i < vcount g -> j < vcount g -> cell lower i j = cell upper j i).
Proof.
  intros Hcol Hready Hdir.
  destruct (get_adjacency_spec base g GET_ADJACENCY_BOTH name default column
              Hcol Hready) as (both & Hboth & _ & _ & _).
  destruct (get_adjacency_spec base g GET_ADJACENCY_UPPER name default column
              Hcol Hready) as (upper & Hupper & _ & Hnone & _).
  destruct (get_adjacency_spec base g GET_ADJACENCY_LOWER name default column
              Hcol Hready) as (lower & Hlower & _ & _ & _).
  exists both, upper, lower. do 3 (split; [done |]). split; [| split].
  - intros i j Hi Hj.
    eapply get_adjacency_same_writes; try done.
    intros [s d]. unfold writes_to, adjacency_cells. rewrite Hdir. simpl.
    rewrite !elem_of_cons, !elem_of_nil. split; intros [[= -> ->]|[[= -> ->]|[]]]; auto.
  - intros i j Hji Hi. apply Hnone; [lia | lia |].
    intros [s d] _. unfold writes_to, adjacency_cells. rewrite Hdir. simpl.
    rewrite elem_of_cons, elem_of_nil. intros [[= -> ->]|[]]. lia.
  - intros i j Hi Hj.
    eapply get_adjacency_same_writes; try done.
    intros [s d]. unfold writes_to, adjacency_cells. rewrite Hdir. simpl.
    rewrite !elem_of_cons, !elem_of_nil. split; intros [[= -> ->]|[]]; auto.
Qed.

Lemma get_adjacency_triangles_witness :
  exists both upper lower,
    get_adjacency no_base (triangle false) (AdjType GET_ADJACENCY_BOTH)
      (AdjName "weight") (PInt 0) = Ok both /\
    get_adjacency no_base (triangle false) (AdjType GET_ADJACENCY_UPPER)
      (AdjName "weight") (PInt 0) = Ok upper /\
    get_adjacency no_base (triangle false) (AdjType GET_ADJACENCY_LOWER)
      (AdjName "weight") (PInt 0) = Ok lower /\
    (forall i j, i < 3 -> j < 3 -> cell both i j = cell both j i) /\
    (forall i j, j < i -> i < 3 -> cell upper i j = Some (PInt 0)) /\
    (forall i j, i < 3 -> j < 3 -> cell lower i j = cell upper j i).
Proof.
  apply (get_adjacency_triangles no_base (triangle false) "weight" (PInt 0)
           [PInt 7; PInt 8; PInt 9]).
  - reflexivity.
  - split; [| reflexivity]. unfold endpoints_below. simpl.
    repeat constructor; simpl; lia.
  - reflexivity.
Defined.

Example get_adjacency_upper :
  get_adjacency no_base (triangle false) (AdjName "weight")
    (AdjType GET_ADJACENCY_UPPER) (PInt 0) =
    Ok [[PInt 0; PInt 7; PInt 9]; [PInt 0; PInt 0; PInt 8]; [PInt 0; PInt 0; PInt 0]].
Proof. reflexivity. Qed.

(** X18.  The two leading arguments of [get_adjacency] may come in either
    order: an attribute name in the place of [type] is taken as the
    attribute, the type being the other argument, or
    [GET_ADJACENCY_BOTH] when that is [None].  On a directed graph the type
    is ignored.  A name that is not an edge attribute raises the ValueError
    "Attribute does not exist". *)
Theorem get_adjacency_arguments base g name default t :
  get_adjacency base g (AdjName name) AdjNone default =
    get_adjacency base g (AdjType GET_ADJACENCY_BOTH) (AdjName name) default /\
  get_adjacency base g (AdjName name) (AdjType t) default =
    get_adjacency base g (AdjType t) (AdjName name) default /\
  (is_directed g = true ->
   get_adjacency base g (AdjType t) (AdjName name) default =
     get_adjacency base g (AdjType GET_ADJACENCY_BOTH) (AdjName name) default) /\
  (edge_attributes g !! name = None ->
   get_adjacency base g (AdjType t) (AdjName name) default =
     Err (ValueError "Attribute does not exist")).
Proof.
  split; [done |]. split; [done |]. split.
  - intros Hdir. unfold get_adjacency. by rewrite Hdir.
  - intros Hnone. unfold get_adjacency. by rewrite Hnone.
Qed.

Lemma get_adjacency_arguments_witness :
  get_adjacency no_base (triangle true) (AdjType GET_ADJACENCY_UPPER)
    (AdjName "weight") (PInt 0) =
    get_adjacency no_base (triangle true) (AdjType GET_ADJACENCY_BOTH)
      (AdjName "weight") (PInt 0) /\
  get_adjacency no_base (triangle true) (AdjType GET_ADJACENCY_UPPER)
    (AdjName "colour") (PInt 0) = Err (ValueError "Attribute does not exist").
Proof.
  split.
  - apply (get_adjacency_arguments no_base (triangle true) "weight" (PInt 0)
             GET_ADJACENCY_UPPER). reflexivity.
  - apply (get_adjacency_arguments no_base (triangle true) "colour" (PInt 0)
             GET_ADJACENCY_UPPER). reflexivity.
Defined.

(** ** [Graph.k_core] *)

(** X19.  Called without arguments, [k_core] raises an IndexError on a graph
    with at most one vertex (the test [hasattr(args[0], ...)] is reached with
    an empty argument tuple); on a larger graph it returns the list of the
    k-cores for k = 0, ..., n - 1 in this order. *)
Theorem k_core_no_arguments {G : Type} (corenesses : list Z)
    (subgraph : list nat -> G) :
  (length corenesses <= 1 ->
   k_core (length corenesses) corenesses subgraph [] = Err IndexError) /\
  (1 < length corenesses ->
   k_core (length corenesses) corenesses subgraph [] =
     Ok (GraphList ((fun k => subgraph (core_of corenesses (Z.of_nat k)))
                      <$> seq 0 (length corenesses)))).
Proof.
  split; intros Hn; unfold k_core; rewrite length_fmap, length_seq.
  - by rewrite (proj2 (Nat.ltb_ge _ _)) by lia.
  - rewrite (proj2 (Nat.ltb_lt _ _)) by lia. simpl.
    rewrite k_core_loop. simpl. by rewrite <- list_fmap_compose.
Qed.

Lemma k_core_no_arguments_witness :
  k_core 1 [0%Z] id [] = Err IndexError /\
  k_core 3 [1; 2; 2]%Z id [] = Ok (GraphList [[0; 1; 2]; [0; 1; 2]; [1; 2]]).
Proof.
  split.
  - apply (proj1 (k_core_no_arguments [0%Z] id)). simpl. lia.
  - apply (proj2 (k_core_no_arguments [1; 2; 2]%Z id)). simpl. lia.
Defined.

(** X20.  Called with arguments, [k_core] never raises: it returns a single
    graph when the arguments amount to one index and the first of them is
    an integer, and otherwise the list of the k-cores of all the indices the
    arguments hold, in the order given.  The k-core is the subgraph of the
    vertices of coreness at least k. *)
Theorem k_core_arguments {G : Type} (corenesses : list Z)
    (subgraph : list nat -> G) (args : list k_arg) :
  args <> [] ->
  k_core (length corenesses) corenesses subgraph args =
    Ok (match k_indices args with
        | [k] =>
            if first_is_int args then OneGraph (subgraph (core_of corenesses k))
            else GraphList [subgraph (core_of corenesses k)]
        | indices =>
            GraphList ((fun k => subgraph (core_of corenesses k)) <$> indices)
        end).
Proof.
  intros Hargs. unfold k_core. destruct args as [|arg args]; [done |].
  fold (k_indices (arg :: args)).
  destruct arg as [k|ks].
  - change (k_indices (KInt k :: args)) with (k :: k_indices args).
    destruct (k_indices args) as [|k2 indices]; cbn -[mapM_res];
      by rewrite k_core_loop.
  - destruct (k_indices (KList ks :: args)) as [|k1 [|k2 indices]]; cbn -[mapM_res];
      by rewrite k_core_loop.
Qed.

Lemma k_core_arguments_witness :
  k_core 3 [1; 2; 2]%Z id [KInt 2] = Ok (OneGraph [1; 2]) /\
  k_core 3 [1; 2; 2]%Z id [KList [2%Z]] = Ok (GraphList [[1; 2]]) /\
  k_core 3 [1; 2; 2]%Z id [KInt 2; KInt 1] = Ok (GraphList [[1; 2]; [0; 1; 2]]).
Proof.
  split; [| split].
  - by apply (k_core_arguments [1; 2; 2]%Z id [KInt 2]).
  - by apply (k_core_arguments [1; 2; 2]%Z id [KList [2%Z]]).
  - by apply (k_core_arguments [1; 2; 2]%Z id [KInt 2; KInt 1]).
Defined.

(** ** Community comparison *)

(** X21.  [_prepare_community_comparison] raises the ValueError "the two
    membership vectors must be equal in length" exactly when the two
    membership lists differ in length; otherwise it returns, and without
    [remove_none] it returns the two lists as they are, [None] entries
    included. *)
Theorem prepare_community_comparison_lengths comm1 comm2 (remove_none : bool) :
  (length comm1 <> length comm2 ->
   _prepare_community_comparison comm1 comm2 remove_none =
     Err (ValueError "the two membership vectors must be equal in length")) /\
  (length comm1 = length comm2 ->
   exists vec1 vec2,
     _prepare_community_comparison comm1 comm2 remove_none = Ok (vec1, vec2) /\
     (remove_none = false -> vec1 = comm1 /\ vec2 = comm2)).
Proof.
  split; intros Hlen.
  - unfold _prepare_community_comparison.
    by rewrite (proj2 (Nat.eqb_neq _ _) Hlen).
  - destruct remove_none.
    + destruct (removal_loop_result comm1 comm2 Hlen)
        as (vec1 & vec2 & Hrun & _).
      by exists vec1, vec2.
    + exists comm1, comm2. unfold _prepare_community_comparison.
      by rewrite (proj2 (Nat.eqb_eq _ _) Hlen).
Qed.

Lemma prepare_community_comparison_lengths_witness :
  _prepare_community_comparison [PInt 0; PNone] [PInt 1] true =
    Err (ValueError "the two membership vectors must be equal in length") /\
  exists vec1 vec2,
    _prepare_community_comparison [PInt 0; PNone] [PNone; PInt 1] false
      = Ok (vec1, vec2) /\
    (false = false -> vec1 = [PInt 0; PNone] /\ vec2 = [PNone; PInt 1]).
Proof.
  split.
  - apply (proj1 (prepare_community_comparison_lengths
                    [PInt 0; PNone] [PInt 1] true)). simpl. lia.
  - apply (proj2 (prepare_community_comparison_lengths
                    [PInt 0; PNone] [PNone; PInt 1] false)). reflexivity.
Defined.

(** X22.  With [remove_none], two membership lists of equal length come back
    equally long and free of [None]; the pairs of memberships they hold,
    position by position, are the pairs of the input in which neither side is
    [None], each as often as in the input.  The order of the pairs may
    change. *)
Theorem prepare_community_comparison_remove_none comm1 comm2 :
  length comm1 = length comm2 ->
  exists vec1 vec2,
    _prepare_community_comparison comm1 comm2 true = Ok (vec1, vec2) /\
    length vec1 = length vec2 /\
    (PNone ∉ vec1) /\ (PNone ∉ vec2) /\
    zip vec1 vec2 ≡ₚ filter both_known (zip comm1 comm2).
Proof.
  intros Hlen.
  destruct (removal_loop_result comm1 comm2 Hlen)
    as (vec1 & vec2 & Hrun & Hlen' & Hperm).
  destruct (zip_known_notin vec1 vec2 Hlen') as [Hnone1 Hnone2].
  { rewrite Hperm. apply Forall_forall. intros p Hp.
    by apply list_elem_of_filter in Hp as [Hp _]. }
  by exists vec1, vec2.
Qed.

Lemma prepare_community_comparison_remove_none_witness :
  exists vec1 vec2,
    _prepare_community_comparison [PNone; PInt 1; PInt 2; PInt 3]
      [PInt 5; PInt 6; PNone; PInt 8] true = Ok (vec1, vec2) /\
    length vec1 = length vec2 /\
    (PNone ∉ vec1) /\ (PNone ∉ vec2) /\
    zip vec1 vec2 ≡ₚ
      filter both_known (zip [PNone; PInt 1; PInt 2; PInt 3]
                             [PInt 5; PInt 6; PNone; PInt 8]).
Proof.
  apply (prepare_community_comparison_remove_none
           [PNone; PInt 1; PInt 2; PInt 3] [PInt 5; PInt 6; PNone; PInt 8]).
  reflexivity.
Defined.

(** The entries that are kept need not keep their order: the entry at the
    end moves into the first hole. *)
Example prepare_community_comparison_reorders :
  _prepare_community_comparison [PNone; PInt 1; PInt 2; PInt 3]
    [PInt 5; PInt 6; PNone; PInt 8] true = Ok ([PInt 3; PInt 1], [PInt 8; PInt 6]).
Proof. reflexivity. Qed.

(** ** File formats *)

(** X23.  Whatever format [_identify_format] finds for a file, the table
    [_format_mapping] knows it and names a writer for it, so [write]
    without a [format] argument hands the call on; it also names a reader,
    so [Read] hands the call on, except for [dot], for which [Read] raises
    the IOError "no reader method for file format: dot". *)
Theorem identified_format_dispatch splitext open f fmt :
  _identify_format splitext open f = Returns (Some fmt) ->
  (exists method, write splitext open f None = Returns method) /\
  (fmt <> "dot" -> exists method, Read splitext open f None = Returns method) /\
  (fmt = "dot" ->
   Read splitext open f None = IOError "no reader method for file format: dot").
Proof.
  intros Hfmt.
  destruct (identifiable_format_methods fmt
              (identify_format_identifiable splitext open f fmt Hfmt))
    as (reader & writer & Hmethods & Hreader).
  unfold write, Read, dispatch. rewrite Hfmt. simpl. rewrite Hmethods. simpl.
  split; [by exists writer |]. split.
  - intros Hdot. destruct reader as [reader|]; [by exists reader |].
    exfalso. by apply Hdot, Hreader.
  - intros ->. destruct reader as [reader|]; [| done].
    by destruct (proj2 Hreader eq_refl).
Qed.

Lemma identified_format_dispatch_witness :
  (exists method,
     write splitext_simple two_files (FileName "triples.txt") None = Returns method) /\
  (("edges" : string) <> "dot" ->
   exists method,
     Read splitext_simple two_files (FileName "triples.txt") None = Returns method) /\
  (("edges" : string) = "dot" ->
   Read splitext_simple two_files (FileName "triples.txt") None =
     IOError "no reader method for file format: dot").
Proof.
  apply (identified_format_dispatch splitext_simple two_files
           (FileName "triples.txt") "edges").
  reflexivity.
Defined.

(** X24.  [_identify_format] never comes up with [svg], [graphviz], [adj] or
    [graphdb], although [_format_mapping] lists them: these formats have to
    be named by the caller.  A file whose extension is [.svg] in particular
    has no identified format, and [write] without a [format] argument
    raises the IOError "unknown file format: None" for it. *)
Theorem unidentified_formats splitext open :
  (forall f fmt,
     fmt ∈ ["svg"; "graphviz"; "adj"; "graphdb"] ->
     _identify_format splitext open f <> Returns (Some fmt)) /\
  (forall name root ext,
     splitext name = (root, ext) -> lower ext = ".svg" ->
     write splitext open (FileName name) None =
       IOError "unknown file format: None") /\
  (forall f, write splitext open f (Some "svg") = Returns "write_svg").
Proof.
  split; [| split].
  - intros f fmt Hfmt Hid.
    apply identify_format_identifiable in Hid. unfold identifiable_formats in Hid.
    repeat (apply elem_of_cons in Hfmt as [->|Hfmt];
            [by apply (bool_decide_pack _) in Hid |]).
    by apply elem_of_nil in Hfmt.
  - intros name root ext Hsplit Hext.
    unfold write, dispatch, _identify_format. by rewrite Hsplit, Hext.
  - done.
Qed.

Lemma unidentified_formats_witness :
  _identify_format splitext_simple two_files (FileName "plot.SVG")
    <> Returns (Some "svg") /\
  write splitext_simple two_files (FileName "plot.SVG") None =
    IOError "unknown file format: None".
Proof.
  split.
  - apply (proj1 (unidentified_formats splitext_simple two_files)).
    apply list_elem_of_here.
  - apply (proj1 (proj2 (unidentified_formats splitext_simple two_files))
             "plot.SVG" "plot" ".SVG"); reflexivity.
Defined.

(** X25.  A file with the extension [.txt] or [.dat] is taken for an edge
    list exactly when each of its first two lines has two fields and its
    third line has at least one, and for an adjacency matrix exactly when
    its first line does not have two fields -- an empty file included.  So
    an edge list of fewer than three lines is never recognised. *)
Theorem identify_text_file splitext open name root ext lines :
  splitext name = (root, ext) ->
  lower ext = ".txt" \/ lower ext = ".dat" ->
  open name = Returns lines ->
  (_identify_format splitext open (FileName name) = Returns (Some "edges") <->
   parts (readline lines 0) = 2 /\ parts (readline lines 1) = 2 /\
   parts (readline lines 2) <> 0) /\
  (_identify_format splitext open (FileName name) = Returns (Some "adjacency") <->
   parts (readline lines 0) <> 2) /\
  (length lines < 3 ->
   _identify_format splitext open (FileName name) <> Returns (Some "edges")).
Proof.
  intros Hsplit Hext Hopen.
  assert (_identify_format splitext open (FileName name) = Returns (sniff lines))
    as ->.
  { unfold _identify_format. rewrite Hsplit.
    destruct Hext as [-> | ->]; simpl; by rewrite Hopen. }
  unfold sniff.
  assert (length lines < 3 -> parts (readline lines 2) = 0) as Hshort.
  { intros Hlen. unfold readline. by rewrite lookup_ge_None_2 by lia. }
  destruct (Nat.eqb_spec (parts (readline lines 0)) 2) as [H0|H0];
    [destruct (Nat.eqb_spec (parts (readline lines 1)) 2) as [H1|H1];
     [destruct (Nat.eqb_spec (parts (readline lines 2)) 0) as [H2|H2] |] |];
    (split; [| split]); try (split; [intros [=] | intros ?]); try tauto;
    try done; try (intros Hlen [=]; apply Hshort in Hlen; lia); try lia.
Qed.

Lemma identify_text_file_witness :
  (_identify_format splitext_simple two_files (FileName "pairs.txt")
     = Returns (Some "edges") <->
   parts (readline ["1 2"; "2 3"] 0) = 2 /\ parts (readline ["1 2"; "2 3"] 1) = 2 /\
   parts (readline ["1 2"; "2 3"] 2) <> 0) /\
  (_identify_format splitext_simple two_files (FileName "pairs.txt")
     = Returns (Some "adjacency") <->
   parts (readline ["1 2"; "2 3"] 0) <> 2) /\
  (length ["1 2"; "2 3"] < 3 ->
   _identify_format splitext_simple two_files (FileName "pairs.txt")
     <> Returns (Some "edges")).
Proof.
  apply (identify_text_file splitext_simple two_files "pairs.txt" "pairs" ".txt"
           ["1 2"; "2 3"]).
  - reflexivity.
  - left. reflexivity.
  - reflexivity.
Defined.

Example Read_two_line_edge_list :
  Read splitext_simple two_files (FileName "pairs.txt") None =
    IOError "unknown file format: None" /\
  Read splitext_simple two_files (FileName "triples.txt") None =
    Returns "Read_Edgelist".
Proof. split; reflexivity. Qed.

(** ** [Graph.layout] and [Graph.__mul__] *)

(** X26.  [layout] looks a layout name up without regard to case, and every
    registered name stands for a method whose name begins with [layout_]; a
    name that is not registered raises the KeyError of the lower-case name;
    a callable is used as it is. *)
Theorem layout_names {F : Type} (plotting_layout : string) (name : string) :
  layout (F := F) plotting_layout (LayoutName name) =
    layout plotting_layout (LayoutName (lower name)) /\
  (forall method,
     layout (F := F) plotting_layout (LayoutName name) = Ok (ClassMethod method) ->
     Py.is_prefix "layout_" method = true) /\
  (_layout_mapping !! lower name = None ->
   layout (F := F) plotting_layout (LayoutName name) = Err (KeyError (lower name))) /\
  (forall f : F, layout plotting_layout (LayoutCallable f) = Ok (Callable f)).
Proof.
  split; [| split; [| split]].
  - unfold layout. by rewrite lower_idemp.
  - intros method. unfold layout, dict_get.
    destruct (_layout_mapping !! lower name) as [m|] eqn:Hm; [| done].
    intros [= <-]. by eapply layout_mapping_methods.
  - intros Hnone. unfold layout, dict_get. by rewrite Hnone.
  - done.
Qed.

Lemma layout_names_witness :
  layout (F := unit) "kk" (LayoutName "Bogus") = Err (KeyError "bogus") /\
  Py.is_prefix "layout_" "layout_fruchterman_reingold" = true.
Proof.
  split.
  - apply (proj1 (proj2 (proj2 (layout_names (F := unit) "kk" "Bogus")))).
    reflexivity.
  - apply (proj1 (proj2 (layout_names (F := unit) "kk" "FR"))). reflexivity.
Defined.

(** X27.  Multiplying a graph by 0 gives what the constructor builds without
    arguments: an undirected graph of one vertex, without edges and
    attributes, whatever the receiver -- a graph that counts as true.
    Multiplying by 1 gives the receiver itself, and a negative factor or a
    factor that is no integer gives [NotImplemented]. *)
Theorem mul_small_factors disjoint_union self :
  __mul__ disjoint_union self (MulInt 0) =
    Ok (Product (GraphObject (mkGraph 1 false [] ∅ ∅) ∅ ∅)) /\
  __nonzero__ (GraphObject (mkGraph 1 false [] ∅ ∅) ∅ ∅) = true /\
  __mul__ disjoint_union self (MulInt 1) = Ok (Product self) /\
  (forall k, (k < 0)%Z -> __mul__ disjoint_union self (MulInt k) = Ok NotImplemented) /\
  __mul__ disjoint_union self MulOther = Ok NotImplemented.
Proof.
  split; [done |]. split; [done |]. split; [done |]. split; [| done].
  intros k Hk. unfold __mul__.
  destruct (Z.eqb_spec k 0); [lia |]. destruct (Z.eqb_spec k 1); [lia |].
  by destruct (Z.ltb_spec 1 k); [lia |].
Qed.

Lemma mul_small_factors_witness :
  __mul__ (fun g _ => g) square_object (MulInt (-2)) = Ok NotImplemented.
Proof.
  apply (proj1 (proj2 (proj2 (proj2
           (mul_small_factors (fun g _ => g) square_object))))).
  lia.
Defined.
